(** * Field Vision service (backend/services/veo_service.py)

    A shallow embedding of [VeoService]: the job records, the in-memory job
    store, the fallback over Veo models, the bounded poll loop, the
    background job wrapper, the janitor and the construction of
    [FieldAnalytics] from a parsed Gemini response.

    Conventions of the model.
    - Python [str] is a byte string ([string]); [str.lower] is modelled on
      ASCII letters.
    - [time.time()] and timestamps are integer clock ticks ([Z]); the
      rounding of float subtraction is not modelled.
    - An [Exception] is represented by its [str(exc)] message.  Only
      [Exception]s are modelled ([except Exception] catches all of them).
    - [print] is not modelled; calls to the external collaborators
      (google-genai, [time.sleep], [asyncio.create_task]) and writes of
      [job.status] are recorded in a chronological trace of events.
    - The service is modelled at two grains.  In [step] and [reachable]
      every operation of the service and every run of a background task is
      executed in one piece.  In [interleaved] the run of a background task
      is a worker thread whose library calls and attribute writes interleave
      with the operations of the event loop; what a caller can read between
      two writes of a run is stated there.  [reachable_interleaved] relates
      the two.
    - [VeoJob] objects live in a heap and are referred to by location, as the
      store and the background task share the same object.  The field
      [analytics] holds the value the analytics had when the job was created;
      no method of the service reads it.  The note that a failed analysis
      writes to the shared [MOCK_ANALYTICS] is modelled where it is written, in
      [_analyze_image_sync]. *)

From Stdlib Require Import ZArith String Ascii List Lia.
From Stdlib Require Import Floats.PrimFloat.
From stdpp Require Import base gmap sets list strings.

Set Warnings "-inexact-float,-register-all,-clear-no-such-hyp".
Local Open Scope string_scope.
Local Open Scope Z_scope.
Local Open Scope list_scope.

(** ** Outcomes of Python computations *)

Inductive outcome (A : Type) : Type :=
| Ok (a : A)
| Raise (msg : string).
Arguments Ok {A} a.
Arguments Raise {A} msg.

(** ** String helpers: [str.lower], [in], [os.path.join] *)

Definition lower_ascii (c : ascii) : ascii :=
  let n := nat_of_ascii c in
  if ((65 <=? n)%nat && (n <=? 90)%nat)%bool then ascii_of_nat (n + 32) else c.

Fixpoint lower (s : string) : string :=
  match s with
  | EmptyString => EmptyString
  | String c s' => String (lower_ascii c) (lower s')
  end.

(** [pat in s] *)
Fixpoint contains (pat s : string) : bool :=
  String.prefix pat s ||
  match s with
  | EmptyString => false
  | String _ s' => contains pat s'
  end.

Fixpoint ends_with_sep (s : string) : bool :=
  match s with
  | EmptyString => false
  | String c EmptyString => Ascii.eqb c "/"
  | String _ s' => ends_with_sep s'
  end.

(** [os.path.join(a, b)] (posixpath, two components) *)
Definition path_join (a b : string) : string :=
  if String.prefix "/" b then b
  else if (String.eqb a "" || ends_with_sep a)%bool then a +:+ b
  else a +:+ "/" +:+ b.

(** [str(uuid.uuid4())]: 36 characters, lower-case hexadecimal digits in
    groups of 8-4-4-4-12 separated by dashes, version digit 4 and variant
    digit in 8..b. *)
Definition is_hex (c : ascii) : bool :=
  contains (String c EmptyString) "0123456789abcdef".

Definition uuid_char_ok (i : nat) (c : ascii) : bool :=
  if ((i =? 8) || (i =? 13) || (i =? 18) || (i =? 23))%nat%bool then Ascii.eqb c "-"
  else if (i =? 14)%nat then Ascii.eqb c "4"
  else if (i =? 19)%nat then contains (String c EmptyString) "89ab"
  else is_hex c.

Fixpoint uuid_shape (i : nat) (s : string) : bool :=
  match s with
  | EmptyString => (i =? 36)%nat
  | String c s' => uuid_char_ok i c && uuid_shape (S i) s'
  end.

Definition is_uuid4_str (s : string) : bool := uuid_shape 0 s.

(** ** Data models *)

Record FieldAnalytics := {
  land_area_ha : float;
  water_need_l_per_day : float;
  profit_usd_per_ha : float;
  risk_score : Z;
  risk_label : string;
  sustainability_score : Z;
  soil_type : string;
  dominant_vegetation : string;
  recommended_crop : string;
  veo_prompt : string;
  is_mock : bool;
  notes : string
}.

Inductive Status := generating | ready | error.

#[global] Instance Status_eq_dec : EqDecision Status.
Proof. solve_decision. Defined.

(** [status] takes the three values the code assigns.  [job_error] is the
    field [error].  [job_notes] is the attribute [notes] that [_run_veo_sync]
    attaches to the object on the billing path; [None] when the attribute is
    absent. *)
Record VeoJob := {
  job_id : string;
  status : Status;
  video_url : option string;
  video_path : option string;
  analytics : option FieldAnalytics;
  job_error : option string;
  created_at : Z;
  job_notes : option string
}.

Definition new_VeoJob (jid : string) (a : FieldAnalytics) (now : Z) : VeoJob :=
  {| job_id := jid; status := generating; video_url := None; video_path := None;
     analytics := Some a; job_error := None; created_at := now; job_notes := None |}.

Definition with_status (v : Status) (j : VeoJob) : VeoJob :=
  {| job_id := job_id j; status := v; video_url := video_url j;
     video_path := video_path j; analytics := analytics j;
     job_error := job_error j; created_at := created_at j; job_notes := job_notes j |}.

Definition with_video_url (v : option string) (j : VeoJob) : VeoJob :=
  {| job_id := job_id j; status := status j; video_url := v;
     video_path := video_path j; analytics := analytics j;
     job_error := job_error j; created_at := created_at j; job_notes := job_notes j |}.

Definition with_video_path (v : option string) (j : VeoJob) : VeoJob :=
  {| job_id := job_id j; status := status j; video_url := video_url j;
     video_path := v; analytics := analytics j;
     job_error := job_error j; created_at := created_at j; job_notes := job_notes j |}.

Definition with_error (v : option string) (j : VeoJob) : VeoJob :=
  {| job_id := job_id j; status := status j; video_url := video_url j;
     video_path := video_path j; analytics := analytics j;
     job_error := v; created_at := created_at j; job_notes := job_notes j |}.

Definition with_notes (v : option string) (j : VeoJob) : VeoJob :=
  {| job_id := job_id j; status := status j; video_url := video_url j;
     video_path := video_path j; analytics := analytics j;
     job_error := job_error j; created_at := created_at j; job_notes := v |}.

(** ** Mock data *)

Definition MOCK_ANALYTICS : FieldAnalytics :=
  {| land_area_ha := 12.4%float;
     water_need_l_per_day := 3800.0%float;
     profit_usd_per_ha := 1240.0%float;
     risk_score := 28;
     risk_label := "Low";
     sustainability_score := 74;
     soil_type := "Sandy Loam";
     dominant_vegetation := "Sparse Grass / Barren";
     recommended_crop := "Wheat / Sorghum";
     veo_prompt :=
       "Cinematic aerial timelapse of a 12-hectare sandy-loam field in Yolo County, "
       +:+ "California. Time begins in early spring with bare rows of dark soil. "
       +:+ "Over the sequence wheat seedlings emerge, grow into tall golden stalks, "
       +:+ "irrigation channels glisten in the sunlight, and the field transforms into "
       +:+ "a lush, productive farmland. Drone shot slowly orbiting the field.";
     is_mock := true;
     notes := "Mock analytics — add GEMINI_API_KEY to .env for real analysis." |}.

Definition MOCK_VIDEO_URL : string :=
  "https://videos.pexels.com/video-files/852395/852395-hd_1280_720_25fps.mp4".

(** ** The google-genai objects the service looks at *)

Record Image := { image_bytes : list Byte.byte; mime_type : string }.

(** [Video] is the file handle [generated[0].video]. *)
Record Video := { uri : string }.

Record GeneratedVideo := { video : Video }.

(** [generated_videos] is only tested for truth and indexed at 0: [None] and
    the empty list are both [[]]. *)
Record GenerateVideosResponse := { generated_videos : list GeneratedVideo }.

(** [done] is only tested for truth ([None] is [false]); [response] is
    [None] or an object. *)
Record Operation := {
  name : string;
  done : bool;
  response : option GenerateVideosResponse
}.

Record GenaiClient := { api_key : string }.

(** ** The environment of the service

    [remote] is the state of everything behind the google-genai client; each
    call may change it and either returns or raises. *)
Class Env := {
  remote : Type;
  (** [settings.gemini_api_key]; the module [config] is not part of the
      sources, its setting is a parameter *)
  gemini_api_key : option string;
  (** [os.environ.get("TEMP")] *)
  TEMP : option string;
  (** [from google import genai; genai.Client(api_key=...)] in [_get_client] *)
  genai_Client : string -> remote -> outcome GenaiClient * remote;
  (** the imports at the head of [_run_veo_sync] *)
  genai_import : remote -> outcome unit * remote;
  (** [client.models.generate_videos(model=, prompt=, image=, config=)] *)
  generate_videos : string -> string -> Image -> remote -> outcome Operation * remote;
  (** [client.operations.get(operation)] *)
  operations_get : Operation -> remote -> outcome Operation * remote;
  (** [client.files.download(file=video_file)] *)
  files_download : Video -> remote -> outcome unit * remote;
  (** [video_file.save(out_path)]; the file exists afterwards when it returns *)
  video_save : Video -> string -> remote -> outcome unit * remote
}.

(** ** Events, tasks and the state of the process *)

Inductive event :=
| EvStart (model : string)          (* client.models.generate_videos(model=...) is called *)
| EvSleep (seconds : Z)             (* time.sleep(seconds) *)
| EvPoll (op : Operation)           (* client.operations.get(op) is called *)
| EvDownload (v : Video)            (* client.files.download(file=v) is called *)
| EvSave (v : Video) (path : string) (* v.save(path) is called *)
| EvStatus (l : nat) (v : Status)   (* job.status = v on the object at l *)
| EvCreateTask (l : nat).           (* asyncio.create_task(self._run_veo_job(job, ...)) *)

(** The arguments of a scheduled [_run_veo_job] coroutine. *)
Record Task := {
  t_job : nat;
  t_client : GenaiClient;
  t_image_bytes : list Byte.byte;
  t_mime_type : string;
  t_analytics : FieldAnalytics
}.

Definition veo_models : list string :=
  [ "veo-3.1-generate-preview"; "veo-3.0-generate-001"; "veo-2.0-generate-001" ].

Definition max_polls : nat := 42.

Definition default_prompt : string :=
  "Cinematic aerial timelapse of a barren agricultural field transforming "
  +:+ "into a lush, thriving farmland over one growing season. Drone orbiting shot.".

Definition billing_note : string :=
  "Note: Real video generation requires GCP billing. Showing sample video.".

(** [x or ""] on an optional string *)
Definition or_empty (x : option string) : string :=
  match x with Some s => s | None => "" end.

(** [f"{x}"] on an optional string *)
Definition fmt_opt (x : option string) : string :=
  match x with Some s => s | None => "None" end.

(** truth value of an optional string *)
Definition truthy (x : option string) : bool :=
  match x with Some (String _ _) => true | _ => false end.

Section Service.
Context `{E : Env}.

Definition VIDEO_DIR : string :=
  path_join (match TEMP with Some d => d | None => "/tmp" end) "agribot_videos".

(** [os.path.join(self.VIDEO_DIR, f"{job_id}.mp4")] *)
Definition video_file_path (jid : string) : string :=
  path_join VIDEO_DIR (jid +:+ ".mp4").

Record State := {
  heap : list VeoJob;            (* the VeoJob objects, by identity *)
  _jobs : gmap string nat;       (* self._jobs: job id to object *)
  _client : option GenaiClient;  (* self._client *)
  tasks : list Task;             (* scheduled background tasks that have not run *)
  files : gset string;           (* paths that exist in the file system *)
  backend : remote;
  trace : list event
}.

Definition with_heap (v : list VeoJob) (s : State) : State :=
  {| heap := v; _jobs := _jobs s; _client := _client s; tasks := tasks s;
     files := files s; backend := backend s; trace := trace s |}.
Definition with_jobs (v : gmap string nat) (s : State) : State :=
  {| heap := heap s; _jobs := v; _client := _client s; tasks := tasks s;
     files := files s; backend := backend s; trace := trace s |}.
Definition with_client (v : option GenaiClient) (s : State) : State :=
  {| heap := heap s; _jobs := _jobs s; _client := v; tasks := tasks s;
     files := files s; backend := backend s; trace := trace s |}.
Definition with_tasks (v : list Task) (s : State) : State :=
  {| heap := heap s; _jobs := _jobs s; _client := _client s; tasks := v;
     files := files s; backend := backend s; trace := trace s |}.
Definition with_files (v : gset string) (s : State) : State :=
  {| heap := heap s; _jobs := _jobs s; _client := _client s; tasks := tasks s;
     files := v; backend := backend s; trace := trace s |}.
Definition with_backend (v : remote) (s : State) : State :=
  {| heap := heap s; _jobs := _jobs s; _client := _client s; tasks := tasks s;
     files := files s; backend := v; trace := trace s |}.
Definition with_trace (v : list event) (s : State) : State :=
  {| heap := heap s; _jobs := _jobs s; _client := _client s; tasks := tasks s;
     files := files s; backend := backend s; trace := v |}.

(** ** The monad of stateful computations that may raise *)

Definition M (A : Type) : Type := State -> outcome A * State.

Definition ret {A} (a : A) : M A := fun s => (Ok a, s).

Definition raise {A} (msg : string) : M A := fun s => (Raise msg, s).

Definition bind {A B} (m : M A) (k : A -> M B) : M B :=
  fun s => match m s with
           | (Ok a, s') => k a s'
           | (Raise e, s') => (Raise e, s')
           end.

(** [try: m  except Exception as exc: h (str(exc))] *)
Definition try_except {A} (m : M A) (h : string -> M A) : M A :=
  fun s => match m s with
           | (Ok a, s') => (Ok a, s')
           | (Raise e, s') => h e s'
           end.

Notation "x <- m ;; k" := (bind m (fun x => k))
  (at level 100, m at next level, right associativity).
Notation "m ;;; k" := (bind m (fun _ => k))
  (at level 100, right associativity).

(** A call into the google-genai library. *)
Definition call {A} (f : remote -> outcome A * remote) : M A :=
  fun s => let (r, b) := f (backend s) in (r, with_backend b s).

Definition log (e : event) : M unit :=
  fun s => (Ok tt, with_trace (trace s ++ [e]) s).

(** Reading a [VeoJob] through a reference.  A Python reference always
    points to an object; the failure branch exists only to make the model
    total. *)
Definition deref (l : nat) : M VeoJob :=
  fun s => match heap s !! l with
           | Some j => (Ok j, s)
           | None => (Raise "invalid reference", s)
           end.

(** [VeoJob(...)]: a new object *)
Definition alloc (j : VeoJob) : M nat :=
  fun s => (Ok (length (heap s)), with_heap (heap s ++ [j]) s).

(** assignment to an attribute of the object at [l] *)
Definition update_job (l : nat) (f : VeoJob -> VeoJob) : M unit :=
  fun s => (Ok tt, with_heap (alter f l (heap s)) s).

(** [job.status = v] *)
Definition set_status (l : nat) (v : Status) : M unit :=
  update_job l (with_status v) ;;; log (EvStatus l v).

(** [time.sleep(n)] *)
Definition sleep (n : Z) : M unit := log (EvSleep n).

(** [os.path.exists(p)] *)
Definition os_path_exists (p : string) : M bool :=
  fun s => (Ok (bool_decide (p ∈ files s)), s).

(** [os.remove(p)]: removes an existing file, raises [FileNotFoundError] (an
    [OSError]) when there is none. *)
Definition os_remove (p : string) : M unit :=
  fun s => if decide (p ∈ files s)
           then (Ok tt, with_files (files s ∖ {[p]}) s)
           else (Raise "[Errno 2] No such file or directory", s).

(** [video_file.save(out_path)] *)
Definition save (v : Video) (p : string) : M unit :=
  log (EvSave v p) ;;;
  call (video_save v p) ;;;
  fun s => (Ok tt, with_files ({[p]} ∪ files s) s).

(** ** Initialisation *)

Definition _get_client : M (option GenaiClient) :=
  fun s =>
    match _client s with
    | Some c => (Ok (Some c), s)
    | None =>
      if truthy gemini_api_key then
        try_except
          (c <- call (genai_Client (or_empty gemini_api_key)) ;;
           (fun s' => (Ok tt, with_client (Some c) s')) ;;;
           ret (Some c))
          (fun _ => ret None) s
      else (Ok None, s)
    end.

(** ** Veo video generation *)

(** The [for model_name in veo_models] loop of [_run_veo_sync].
    [operation] is [None] while the variable is unbound, [Some None] when it
    holds [None] and [Some (Some op)] when it holds a handle. *)
Fixpoint start_first (models : list string) (prompt : string) (image : Image)
    (last_error : option string) (operation : option (option Operation))
    : M (option string * option (option Operation)) :=
  match models with
  | [] => ret (last_error, operation)
  | model_name :: rest =>
    r <- try_except
           (log (EvStart model_name) ;;;
            op <- call (generate_videos model_name prompt image) ;;
            ret (inl op))
           (fun exc => ret (inr exc)) ;;
    match r with
    | inl op => ret (last_error, Some (Some op))
    | inr exc => start_first rest prompt image (Some exc) (Some None)
    end
  end.

(** The [for _ in range(max_polls)] loop. *)
Fixpoint poll (n : nat) (operation : Operation) : M Operation :=
  match n with
  | O => ret operation
  | S n' =>
    if done operation then ret operation
    else
      sleep 10 ;;;
      log (EvPoll operation) ;;;
      op <- call (operations_get operation) ;;
      poll n' op
  end.

Definition _run_veo_sync (job : nat) (client : GenaiClient)
    (image_bytes : list Byte.byte) (mime_type : string)
    (analytics : FieldAnalytics) : M unit :=
  call genai_import ;;;
  let prompt :=
    match veo_prompt analytics with
    | EmptyString => default_prompt
    | p => p
    end in
  let image_part := {| image_bytes := image_bytes; mime_type := mime_type |} in
  r <- start_first veo_models prompt image_part None None ;;
  let (last_error, operation) := r in
  match operation with
  | None =>
    raise "cannot access local variable 'operation' where it is not associated with a value"
  | Some None =>
    if contains "billing enabled" (lower (or_empty last_error)) then
      update_job job (with_video_url (Some MOCK_VIDEO_URL)) ;;;
      set_status job ready ;;;
      update_job job (with_notes (Some billing_note)) ;;;
      ret tt
    else
      raise ("No Veo model available or all failed. Last error: " +:+ fmt_opt last_error)
  | Some (Some operation) =>
    operation <- poll max_polls operation ;;
    match done operation, response operation with
    | true, Some resp =>
      match generated_videos resp with
      | [] => raise "Veo returned no videos"
      | g :: _ =>
        let video_file := video g in
        log (EvDownload video_file) ;;;
        call (files_download video_file) ;;;
        j <- deref job ;;
        let out_path := video_file_path (job_id j) in
        save video_file out_path ;;;
        update_job job (with_video_path (Some out_path)) ;;;
        update_job job (with_video_url (Some ("/api/field-vision/video/" +:+ job_id j))) ;;;
        set_status job ready
      end
    | _, _ => raise "Veo operation timed out"
    end
  end.

(** The background task. *)
Definition _run_veo_job (t : Task) : M unit :=
  try_except
    (_run_veo_sync (t_job t) (t_client t) (t_image_bytes t) (t_mime_type t) (t_analytics t))
    (fun exc =>
       set_status (t_job t) error ;;;
       update_job (t_job t) (with_error (Some exc)) ;;;
       update_job (t_job t) (with_video_url (Some MOCK_VIDEO_URL))).

(** [asyncio.create_task(self._run_veo_job(job, client, ...))] *)
Definition create_task (t : Task) : M unit :=
  log (EvCreateTask (t_job t)) ;;;
  fun s => (Ok tt, with_tasks (tasks s ++ [t]) s).

(** [job_id] is the value of [str(uuid.uuid4())] and [now] the value of
    [time.time()] in the constructor of [VeoJob]. *)
Definition generate_video (job_id : string) (now : Z)
    (image_bytes : list Byte.byte) (mime_type : string)
    (analytics : FieldAnalytics) : M (string * option string) :=
  job <- alloc (new_VeoJob job_id analytics now) ;;
  (fun s => (Ok tt, with_jobs (<[job_id := job]> (_jobs s)) s)) ;;;
  client <- _get_client ;;
  match client with
  | None =>
    set_status job ready ;;;
    update_job job (with_video_url (Some MOCK_VIDEO_URL)) ;;;
    ret (job_id, Some MOCK_VIDEO_URL)
  | Some c =>
    create_task {| t_job := job; t_client := c; t_image_bytes := image_bytes;
                   t_mime_type := mime_type; t_analytics := analytics |} ;;;
    ret (job_id, None)
  end.

(** ** Job polling *)

Definition get_job (job_id : string) (s : State) : option nat :=
  _jobs s !! job_id.

(** The record a caller of [get_job] reads. *)
Definition read_job (job_id : string) (s : State) : option VeoJob :=
  match get_job job_id s with
  | Some l => heap s !! l
  | None => None
  end.

Definition get_video_path (job_id : string) (s : State) : option string :=
  match read_job job_id s with
  | Some job =>
    if (truthy (video_path job) && bool_decide (or_empty (video_path job) ∈ files s))%bool
    then video_path job
    else None
  | None => None
  end.

(** ** Cleanup *)

(** The comprehension [[jid for jid, job in self._jobs.items() if ...]]. *)
Fixpoint expired_ids (items : list (string * nat)) (now max_age_seconds : Z)
    : M (list string) :=
  match items with
  | [] => ret []
  | (jid, l) :: rest =>
    job <- deref l ;;
    ids <- expired_ids rest now max_age_seconds ;;
    ret (if decide (now - created_at job > max_age_seconds) then jid :: ids else ids)
  end.

(** [self._jobs.pop(jid)] *)
Definition jobs_pop (jid : string) : M nat :=
  fun s => match _jobs s !! jid with
           | Some l => (Ok l, with_jobs (delete jid (_jobs s)) s)
           | None => (Raise "KeyError", s)
           end.

Fixpoint remove_expired (expired : list string) : M unit :=
  match expired with
  | [] => ret tt
  | jid :: rest =>
    l <- jobs_pop jid ;;
    job <- deref l ;;
    (if truthy (video_path job) then
       ex <- os_path_exists (or_empty (video_path job)) ;;
       if ex then
         try_except (os_remove (or_empty (video_path job))) (fun _ => ret tt)
       else ret tt
     else ret tt) ;;;
    remove_expired rest
  end.

(** [now] is the value of [time.time()]. *)
Definition cleanup_old_jobs (now max_age_seconds : Z) : M unit :=
  fun s =>
    (expired <- expired_ids (map_to_list (_jobs s)) now max_age_seconds ;;
     remove_expired expired) s.

End Service.

Arguments State E : clear implicits.
Arguments M E A : clear implicits.

(** ** Scripted environments

    A stateless environment built from the answers of the collaborators; used
    to run the service on concrete inputs. *)
Definition scripted_env (key : option string)
    (start : string -> outcome Operation)
    (refresh : Operation -> outcome Operation) : Env :=
  {| remote := unit;
     gemini_api_key := key;
     TEMP := None;
     genai_Client := fun k b => (Ok {| api_key := k |}, b);
     genai_import := fun b => (Ok tt, b);
     generate_videos := fun m _ _ b => (start m, b);
     operations_get := fun op b => (refresh op, b);
     files_download := fun _ b => (Ok tt, b);
     video_save := fun _ _ b => (Ok tt, b) |}.

(** The state of a freshly constructed [VeoService]. *)
Definition fresh_state `{E : Env} (b : remote) (fs : gset string) : State E :=
  {| heap := []; _jobs := ∅; _client := None; tasks := []; files := fs;
     backend := b; trace := [] |}.

(** ** Vision analysis: [FieldAnalytics] from the parsed response *)

(** The values [json.loads] produces. *)
Inductive pyval :=
| VNone
| VBool (b : bool)
| VInt (z : Z)
| VFloat (f : float)
| VStr (s : string)
| VList (l : list pyval)
| VDict (d : gmap string pyval).

Definition type_name (v : pyval) : string :=
  match v with
  | VNone => "NoneType"
  | VBool _ => "bool"
  | VInt _ => "int"
  | VFloat _ => "float"
  | VStr _ => "str"
  | VList _ => "list"
  | VDict _ => "dict"
  end.

Definition with_analytics_notes (v : string) (a : FieldAnalytics) : FieldAnalytics :=
  {| land_area_ha := land_area_ha a;
     water_need_l_per_day := water_need_l_per_day a;
     profit_usd_per_ha := profit_usd_per_ha a;
     risk_score := risk_score a;
     risk_label := risk_label a;
     sustainability_score := sustainability_score a;
     soil_type := soil_type a;
     dominant_vegetation := dominant_vegetation a;
     recommended_crop := recommended_crop a;
     veo_prompt := veo_prompt a;
     is_mock := is_mock a;
     notes := v |}.

Definition obind {A B} (m : outcome A) (k : A -> outcome B) : outcome B :=
  match m with
  | Ok a => k a
  | Raise e => Raise e
  end.

Section Analysis.

(** The conversions of Python that no property below depends on are taken
    as they come: [float(v)] for a [v] that is not a float, [int(v)] for a
    [v] that is neither an int nor a bool, [str(v)] for a [v] that is not a
    string. *)
Variable float_conv : pyval -> outcome float.
Variable int_conv : pyval -> outcome Z.
Variable str_conv : pyval -> string.

Definition py_float (v : pyval) : outcome float :=
  match v with
  | VFloat f => Ok f
  | _ => float_conv v
  end.

Definition py_int (v : pyval) : outcome Z :=
  match v with
  | VInt z => Ok z
  | VBool b => Ok (if b then 1 else 0)
  | _ => int_conv v
  end.

Definition py_str (v : pyval) : string :=
  match v with
  | VStr s => s
  | _ => str_conv v
  end.

(** [data.get(key, default)] *)
Definition data_get (data : pyval) (key : string) (default : pyval) : outcome pyval :=
  match data with
  | VDict d => Ok (match d !! key with Some v => v | None => default end)
  | _ => Raise ("'" +:+ type_name data +:+ "' object has no attribute 'get'")
  end.

Notation "x <- m ;; k" := (obind m (fun x => k))
  (at level 100, m at next level, right associativity).

(** The call [FieldAnalytics(land_area_ha=float(data.get(...)), ...)]; the
    arguments are evaluated in the order they are written. *)
Definition analytics_of_data (data : pyval) : outcome FieldAnalytics :=
  v <- data_get data "land_area_ha" (VFloat 10.0) ;;
  land <- py_float v ;;
  v <- data_get data "water_need_l_per_day" (VFloat 3500.0) ;;
  water <- py_float v ;;
  v <- data_get data "profit_usd_per_ha" (VFloat 1000.0) ;;
  profit <- py_float v ;;
  v <- data_get data "risk_score" (VInt 30) ;;
  risk <- py_int v ;;
  label <- data_get data "risk_label" (VStr "Moderate") ;;
  v <- data_get data "sustainability_score" (VInt 65) ;;
  sust <- py_int v ;;
  soil <- data_get data "soil_type" (VStr "Unknown") ;;
  veg <- data_get data "dominant_vegetation" (VStr "Unknown") ;;
  crop <- data_get data "recommended_crop" (VStr "N/A") ;;
  prompt <- data_get data "veo_prompt" (VStr "") ;;
  nts <- data_get data "notes" (VStr "") ;;
  Ok {| land_area_ha := land;
        water_need_l_per_day := water;
        profit_usd_per_ha := profit;
        risk_score := risk;
        risk_label := py_str label;
        sustainability_score := sust;
        soil_type := py_str soil;
        dominant_vegetation := py_str veg;
        recommended_crop := py_str crop;
        veo_prompt := py_str prompt;
        is_mock := false;
        notes := py_str nts |}.

(** [client] is the result of [self._get_client()].  [parsed] is the outcome
    of the first part of the [try] block (the imports, the fallback over the
    analysis models, the clean-up of the text and [json.loads]): the parsed
    value, or the exception raised on the way.  [mock] is the current value
    of the shared object [MOCK_ANALYTICS]; the result is the returned
    analytics and the value of [MOCK_ANALYTICS] afterwards. *)
Definition _analyze_image_sync (client : option GenaiClient)
    (parsed : outcome pyval) (mock : FieldAnalytics)
    : FieldAnalytics * FieldAnalytics :=
  match client with
  | None => (mock, mock)
  | Some _ =>
    match obind parsed analytics_of_data with
    | Ok a => (a, mock)
    | Raise exc =>
      let mock' :=
        with_analytics_notes ("Using mock data due to analysis error: " +:+ exc) mock in
      (mock', mock')
    end
  end.

End Analysis.

(** ** Vision analysis, the remote part *)

(** The response of [generate_content]: only [text] is read. *)
Record ContentResponse := { text : option string }.

Definition analysis_models : list string :=
  [ "gemini-2.0-flash-lite"; "gemini-2.5-flash"; "gemini-flash-latest" ].

(** The double quote and the line break, for the text of the prompt. *)
Definition dq : string := String (ascii_of_nat 34) EmptyString.
Definition nl : string := String (ascii_of_nat 10) EmptyString.

Fixpoint join_lines (ls : list string) : string :=
  match ls with
  | [] => EmptyString
  | [l] => l
  | l :: rest => l +:+ nl +:+ join_lines rest
  end.

(** [f" The farmer intends to grow {crop_hint}." if crop_hint else ""] *)
Definition crop_context (crop_hint : string) : string :=
  match crop_hint with
  | EmptyString => EmptyString
  | _ => " The farmer intends to grow " +:+ crop_hint +:+ "."
  end.

Definition key_line (key descr : string) : string :=
  "  " +:+ dq +:+ key +:+ dq +:+ ": " +:+ descr.

Definition analysis_prompt (crop_hint : string) : string :=
  join_lines
    [ "You are an expert agricultural AI. Analyze this aerial photograph of a field or land parcel."
        +:+ crop_context crop_hint;
      "";
      "Return ONLY a valid JSON object (no markdown, no explanation) with these exact keys:";
      "{";
      key_line "land_area_ha" "<float, estimated hectares visible>,";
      key_line "water_need_l_per_day"
        "<float, litres per day per hectare for optimal irrigation>,";
      key_line "profit_usd_per_ha" "<float, estimated profit USD per hectare per season>,";
      key_line "risk_score" "<integer 0-100, where 100 is extreme risk>,";
      key_line "risk_label"
        ("<string: " +:+ dq +:+ "Low" +:+ dq +:+ " | " +:+ dq +:+ "Moderate" +:+ dq
         +:+ " | " +:+ dq +:+ "High" +:+ dq +:+ " | " +:+ dq +:+ "Critical" +:+ dq +:+ ">,");
      key_line "sustainability_score" "<integer 0-100, where 100 is most sustainable>,";
      key_line "soil_type" ("<string, e.g. " +:+ dq +:+ "Clay Loam" +:+ dq +:+ ">,");
      key_line "dominant_vegetation" "<string, describe current vegetation>,";
      key_line "recommended_crop" "<string, best crop for this land>,";
      key_line "veo_prompt"
        "<string, a vivid 2-sentence Veo video prompt showing this land flourishing>,";
      key_line "notes" "<string, 1 key observation for the farmer>";
      "}" ].

(** [s[n:]] *)
Fixpoint drop_chars (n : nat) (s : string) : string :=
  match n, s with
  | O, _ => s
  | S n', String _ s' => drop_chars n' s'
  | S _, EmptyString => EmptyString
  end.

(** The text of [s] before the first occurrence of [pat], all of [s] when
    there is none: [s.split(pat)[0]]. *)
Fixpoint before (pat s : string) : string :=
  if String.prefix pat s then EmptyString
  else match s with
       | EmptyString => EmptyString
       | String c s' => String c (before pat s')
       end.

Definition fence : string := "```".

(** The clean-up of the stripped text: a text that starts with a fence is
    replaced by [raw.split(fence)[1]], without a leading [json]. *)
Definition strip_fences (raw : string) : string :=
  if String.prefix fence raw then
    let raw := before fence (drop_chars 3 raw) in
    if String.prefix "json" raw then drop_chars 4 raw else raw
  else raw.

(** What the analysis needs beside the service's environment: the model
    call, and the functions of Python that are taken as they come. *)
Class Vision (E : Env) := {
  (** [client.models.generate_content(model=, contents=[Part.from_bytes(data=,
      mime_type=), prompt])]; [None] stands for a result that is not true *)
  generate_content :
    string -> list Byte.byte -> string -> string ->
    remote -> outcome (option ContentResponse) * remote;
  (** [json.loads] *)
  json_loads : string -> outcome pyval;
  (** [str.strip()] *)
  str_strip : string -> string;
  (** [float(v)], [int(v)] and [str(v)] where [py_float], [py_int] and
      [py_str] do not decide *)
  vision_float_conv : pyval -> outcome float;
  vision_int_conv : pyval -> outcome Z;
  vision_str_conv : pyval -> string
}.

Section VisionService.
Context `{E : Env} `{V : !Vision E}.

Notation "x <- m ;; k" := (bind m (fun x => k))
  (at level 100, m at next level, right associativity).
Notation "m ;;; k" := (bind m (fun _ => k))
  (at level 100, right associativity).

(** The [for model_name in analysis_models] loop. *)
Fixpoint ask_first (models : list string) (image_bytes : list Byte.byte)
    (mime_type prompt : string)
    (response : option ContentResponse) (last_analysis_error : option string)
    : M E (option ContentResponse * option string) :=
  match models with
  | [] => ret (response, last_analysis_error)
  | model_name :: rest =>
    r <- try_except
           (resp <- call (generate_content model_name image_bytes mime_type prompt) ;;
            ret (inl resp))
           (fun e => ret (inr e)) ;;
    match r with
    | inl (Some resp) => ret (Some resp, last_analysis_error)
    | inl None => ask_first rest image_bytes mime_type prompt None last_analysis_error
    | inr e => ask_first rest image_bytes mime_type prompt response (Some e)
    end
  end.

(** The [try] block of [_analyze_image_sync] up to [json.loads]. *)
Definition analysis_data (image_bytes : list Byte.byte) (mime_type crop_hint : string)
    : M E pyval :=
  call genai_import ;;;
  r <- ask_first analysis_models image_bytes mime_type (analysis_prompt crop_hint)
         None None ;;
  let (response, last_analysis_error) := r in
  match response with
  | None =>
    raise (match last_analysis_error with
           | Some e => e
           | None => "All analysis models failed"
           end)
  | Some resp =>
    match text resp with
    | None => raise "'NoneType' object has no attribute 'strip'"
    | Some t =>
      match json_loads (strip_fences (str_strip t)) with
      | Ok data => ret data
      | Raise e => raise e
      end
    end
  end.

(** [analyze_image], that is [_analyze_image_sync] as a whole.  [mock] is
    the current value of the shared object [MOCK_ANALYTICS]; the result is
    the returned analytics and the value of [MOCK_ANALYTICS] afterwards. *)
Definition analyze_image (image_bytes : list Byte.byte) (mime_type crop_hint : string)
    (mock : FieldAnalytics) : M E (FieldAnalytics * FieldAnalytics) :=
  client <- _get_client ;;
  match client with
  | None => ret (mock, mock)
  | Some c =>
    fun s =>
      let (parsed, s') := analysis_data image_bytes mime_type crop_hint s in
      (Ok (_analyze_image_sync vision_float_conv vision_int_conv vision_str_conv
             (Some c) parsed mock), s')
  end.

End VisionService.

(** * Vocabulary of the properties *)

(** ** What a trace records *)

Definition status_writes (l : nat) (tr : list event) : list Status :=
  omap (fun e => match e with
                 | EvStatus l' v => if decide (l' = l) then Some v else None
                 | _ => None
                 end) tr.

Definition started (tr : list event) : list string :=
  omap (fun e => match e with EvStart m => Some m | _ => None end) tr.

Definition polled (tr : list event) : list Operation :=
  omap (fun e => match e with EvPoll op => Some op | _ => None end) tr.

Definition slept (tr : list event) : list Z :=
  omap (fun e => match e with EvSleep n => Some n | _ => None end) tr.

Definition spawned (tr : list event) : list nat :=
  omap (fun e => match e with EvCreateTask l => Some l | _ => None end) tr.

(** Events that neither write a status nor schedule a task. *)
Definition quiet_event (e : event) : Prop :=
  match e with
  | EvStatus _ _ | EvCreateTask _ => False
  | _ => True
  end.

(** The events of the rounds of the poll loop that refreshed [ops]. *)
Definition wait_events (ops : list Operation) : list event :=
  ops ≫= (fun op => [EvSleep 10; EvPoll op]).

Section Vocabulary.
Context `{E : Env}.

(** The part of [video_file_path] that does not depend on the job id. *)
Definition video_dir_prefix : string :=
  if (String.eqb VIDEO_DIR "" || ends_with_sep VIDEO_DIR)%bool then VIDEO_DIR
  else VIDEO_DIR +:+ "/".

(** The state after calls into the library that moved the backend to [b]
    and recorded [evs]. *)
Definition ext (s : State E) (b : remote) (evs : list event) : State E :=
  with_trace (trace s ++ evs) (with_backend b s).

(** Every candidate of [ms], started in turn from the backend state [b],
    raises: [es] are the messages in order and [b'] is the final backend
    state. *)
Inductive all_raise (prompt : string) (image : Image)
  : list string -> remote -> list string -> remote -> Prop :=
| all_raise_nil b : all_raise prompt image [] b [] b
| all_raise_cons m ms b e b1 es b' :
    generate_videos m prompt image b = (Raise e, b1) ->
    all_raise prompt image ms b1 es b' ->
    all_raise prompt image (m :: ms) b (e :: es) b'.

(** [last_error] after a run of failures. *)
Definition last_of (es : list string) (le : option string) : option string :=
  match last es with Some e => Some e | None => le end.

(** [wp m s Q]: the outcome and the final state of [m] run from [s]
    satisfy [Q]. *)
Definition wp {A} (m : M E A) (s : State E) (Q : outcome A -> State E -> Prop) : Prop :=
  Q (fst (m s)) (snd (m s)).

(** What a run leaves alone, and the bounds on what it records. *)
Record run_frame (s s' : State E) (evs : list event) : Prop := {
  fr_jobs : _jobs s' = _jobs s;
  fr_client : _client s' = _client s;
  fr_tasks : tasks s' = tasks s;
  fr_trace : trace s' = trace s ++ evs;
  fr_spawned : spawned evs = [];
  fr_polled : (length (polled evs) <= max_polls)%nat;
  fr_slept : slept evs = replicate (length (polled evs)) 10;
  fr_started : started evs `prefix_of` veo_models
}.

(** The record after the billing fallback, after a real video was saved, and
    after the handler of [_run_veo_job]. *)
Definition billing_job (j : VeoJob) : VeoJob :=
  with_notes (Some billing_note) (with_status ready (with_video_url (Some MOCK_VIDEO_URL) j)).

Definition saved_job (j : VeoJob) : VeoJob :=
  with_status ready
    (with_video_url (Some ("/api/field-vision/video/" +:+ job_id j))
       (with_video_path (Some (video_file_path (job_id j))) j)).

Definition failed_job (exc : string) (j : VeoJob) : VeoJob :=
  with_video_url (Some MOCK_VIDEO_URL) (with_error (Some exc) (with_status error j)).

(** What [_run_veo_sync] has done to the job at [l] when it returns, when it
    raises, and in both cases. *)
Definition sync_ok (l : nat) (j : VeoJob) (s s' : State E) (evs : list event) : Prop :=
  status_writes l evs = [ready] /\
  ((heap s' = <[l := billing_job j]> (heap s) /\ files s' = files s) \/
   (heap s' = <[l := saved_job j]> (heap s) /\
    files s' = {[video_file_path (job_id j)]} ∪ files s)).

Definition sync_raise (l : nat) (s s' : State E) (evs : list event) : Prop :=
  heap s' = heap s /\ files s' = files s /\ status_writes l evs = [].

Definition sync_post (l : nat) (j : VeoJob) (s : State E)
    (r : outcome unit) (s' : State E) : Prop :=
  exists evs,
    run_frame s s' evs /\
    (forall l', l' <> l -> status_writes l' evs = []) /\
    match r with
    | Ok _ => sync_ok l j s s' evs
    | Raise _ => sync_raise l s s' evs
    end.

(** The record a finished run leaves, and the file it may have created. *)
Inductive finished (j : VeoJob) (F : gset string) : VeoJob -> gset string -> Prop :=
| finished_billing : finished j F (billing_job j) F
| finished_saved : finished j F (saved_job j) ({[video_file_path (job_id j)]} ∪ F)
| finished_failed exc : finished j F (failed_job exc j) F.

(** What [_run_veo_job] has done to the job at [l]. *)
Definition job_post (l : nat) (j : VeoJob) (s : State E)
    (r : outcome unit) (s' : State E) : Prop :=
  r = Ok tt /\
  exists evs j',
    run_frame s s' evs /\
    heap s' = <[l := j']> (heap s) /\
    finished j (files s) j' (files s') /\
    status_writes l evs = [status j'] /\
    (forall l', l' <> l -> status_writes l' evs = []).

(** The capability client is absent: none is cached, and there is no key or
    the construction of the client fails. *)
Definition client_absent (s : State E) : Prop :=
  _client s = None /\
  (truthy gemini_api_key = false \/
   exists e b, genai_Client (or_empty gemini_api_key) (backend s) = (Raise e, b)).

(** What [generate_video] has done: the degraded path, or a task scheduled. *)
Definition submit_post (jid : string) (now : Z) (img : list Byte.byte)
    (mime : string) (a : FieldAnalytics) (s : State E)
    (r : outcome (string * option string)) (s' : State E) : Prop :=
  let l := length (heap s) in
  _jobs s' = <[jid := l]> (_jobs s) /\ files s' = files s /\
  ((client_absent s /\ r = Ok (jid, Some MOCK_VIDEO_URL) /\
    heap s' = heap s ++ [with_video_url (Some MOCK_VIDEO_URL)
                           (with_status ready (new_VeoJob jid a now))] /\
    tasks s' = tasks s /\ trace s' = trace s ++ [EvStatus l ready]) \/
   (~ client_absent s /\ r = Ok (jid, None) /\
    heap s' = heap s ++ [new_VeoJob jid a now] /\
    (exists c, tasks s' = tasks s ++ [{| t_job := l; t_client := c;
                                         t_image_bytes := img; t_mime_type := mime;
                                         t_analytics := a |}]) /\
    trace s' = trace s ++ [EvCreateTask l])).

(** Every reference held by the store points to an object. *)
Definition store_closed (s : State E) : Prop :=
  forall jid l, _jobs s !! jid = Some l -> is_Some (heap s !! l).

(** The record stored under [jid] is older than [max_age] at time [now]. *)
Definition is_expired (now max_age : Z) (s : State E) (jid : string) : Prop :=
  exists j, read_job jid s = Some j /\ now - created_at j > max_age.

(** The backing artifact of the record stored under [jid], if it has one. *)
Definition artifact (s : State E) (jid : string) : option string :=
  match read_job jid s with
  | Some j => if truthy (video_path j) then video_path j else None
  | None => None
  end.

(** What [cleanup_old_jobs] has done. *)
Definition sweep_post (now max_age : Z) (s : State E)
    (r : outcome unit) (s' : State E) : Prop :=
  r = Ok tt /\
  heap s' = heap s /\ _client s' = _client s /\ tasks s' = tasks s /\
  backend s' = backend s /\ trace s' = trace s /\
  (forall jid, (is_expired now max_age s jid -> _jobs s' !! jid = None) /\
               (~ is_expired now max_age s jid -> _jobs s' !! jid = _jobs s !! jid)) /\
  (forall p, p ∈ files s' <->
             p ∈ files s /\
             forall jid, is_expired now max_age s jid -> artifact s jid <> Some p).

(** The state after [VeoService()]; the file system and the backend are
    arbitrary. *)
Definition initial (s : State E) : Prop :=
  heap s = [] /\ _jobs s = ∅ /\ _client s = None /\ tasks s = [] /\ trace s = [].

(** One atomic operation: a request handler calls [generate_video] (with
    the id [uuid4] produced and the time the clock showed), the event loop
    runs a scheduled task, the scheduler calls [cleanup_old_jobs], or
    another process changes the file system. *)
Inductive step : State E -> State E -> Prop :=
| step_submit s jid now img mime a :
    is_uuid4_str jid = true ->
    step s (snd (generate_video jid now img mime a s))
| step_task s i t :
    tasks s !! i = Some t ->
    step s (snd (_run_veo_job t (with_tasks (delete i (tasks s)) s)))
| step_sweep s now max_age :
    step s (snd (cleanup_old_jobs now max_age s))
| step_files s F :
    step s (with_files F s).

(** The states the process can be in between two operations. *)
Inductive reachable : State E -> Prop :=
| reachable_init s : initial s -> reachable s
| reachable_step s s' : reachable s -> step s s' -> reachable s'.

(** The objects that scheduled tasks will write to. *)
Definition pending (s : State E) : list nat := t_job <$> tasks s.

(** The shape of the job object at [l], by status. *)
Definition job_ok (s : State E) (l : nat) (j : VeoJob) : Prop :=
  is_uuid4_str (job_id j) = true /\
  match status j with
  | generating =>
    video_url j = None /\ video_path j = None /\
    status_writes l (trace s) = [] /\ l ∈ pending s
  | ready =>
    truthy (video_url j) = true /\
    (video_path j = None \/ video_path j = Some (video_file_path (job_id j))) /\
    status_writes l (trace s) = [ready] /\ l ∉ pending s
  | error =>
    video_url j = Some MOCK_VIDEO_URL /\ video_path j = None /\
    is_Some (job_error j) /\
    status_writes l (trace s) = [error] /\ l ∉ pending s
  end.

(** The invariant of the service: the store refers to objects with the
    right id, scheduled tasks refer to distinct generating jobs, every job
    object has the shape of its status, and objects not yet created have had
    no status write. *)
Record Inv (s : State E) : Prop := {
  inv_store : forall jid l, _jobs s !! jid = Some l ->
                exists j, heap s !! l = Some j /\ job_id j = jid;
  inv_pending : forall t, t ∈ tasks s ->
                  exists j, heap s !! t_job t = Some j /\ status j = generating;
  inv_nodup : NoDup (pending s);
  inv_job : forall l j, heap s !! l = Some j -> job_ok s l j;
  inv_fresh : forall l, (length (heap s) <= l)%nat -> status_writes l (trace s) = []
}.

(** The operation [op] is refreshed [n] times from the backend state [b],
    each refresh returns, and neither [op] nor any refreshed handle reports
    done. *)
Inductive stays_pending : nat -> Operation -> remote -> Prop :=
| stays_pending_O op b : done op = false -> stays_pending O op b
| stays_pending_S n op b op' b' :
    done op = false ->
    operations_get op b = (Ok op', b') ->
    stays_pending n op' b' ->
    stays_pending (S n) op b.

(** The prompt and the image that [_run_veo_sync] passes to the backend. *)
Definition prompt_of (a : FieldAnalytics) : string :=
  match veo_prompt a with
  | EmptyString => default_prompt
  | p => p
  end.

Definition image_of (t : Task) : Image :=
  {| image_bytes := t_image_bytes t; mime_type := t_mime_type t |}.

End Vocabulary.

(** * The background run, operation by operation

    [_run_veo_job] hands [_run_veo_sync] to a worker thread
    ([asyncio.to_thread]).  The library calls and the attribute writes of
    the thread interleave with what the event loop does: a caller can read a
    job record between any two of them.  The code of a coroutine between two
    [await]s, on the other hand, is not interrupted by another coroutine:
    [generate_video], the handler of [_run_veo_job], [cleanup_old_jobs] and
    the readers [get_job] and [get_video_path] each run in one piece. *)

(** The places of [_run_veo_sync] between two operations. *)
Inductive point :=
| AtImport                        (* before the imports *)
| AtStart (model_name : string) (rest : list string) (last_error : option string)
                                  (* in the loop over the models, before generate_videos *)
| AtBillingUrl                    (* before job.video_url = MOCK_VIDEO_URL *)
| AtBillingStatus                 (* before job.status = "ready" *)
| AtBillingNotes                  (* before job.notes = ... *)
| AtSleep (n : nat) (operation : Operation)
                                  (* in the poll loop, n rounds left after this one, before time.sleep *)
| AtRefresh (n : nat) (operation : Operation)
                                  (* before client.operations.get *)
| AtDownload (video_file : Video) (* before client.files.download *)
| AtSave (video_file : Video)     (* before video_file.save *)
| AtPath (job_id : string)        (* before job.video_path = out_path *)
| AtUrl (job_id : string)         (* before job.video_url = ... *)
| AtStatus                        (* before job.status = "ready" *)
| Returned                        (* the function has returned *)
| Raised (exc : string).          (* the function has raised *)

Section Threads.
Context `{E : Env}.

Notation "x <- m ;; k" := (bind m (fun x => k))
  (at level 100, m at next level, right associativity).
Notation "m ;;; k" := (bind m (fun _ => k))
  (at level 100, right associativity).

(** Where the thread is after the poll loop, with the handle the loop
    ended with. *)
Definition after_poll (operation : Operation) : point :=
  match done operation, response operation with
  | true, Some resp =>
    match generated_videos resp with
    | [] => Raised "Veo returned no videos"
    | g :: _ => AtDownload (video g)
    end
  | _, _ => Raised "Veo operation timed out"
  end.

(** Where the thread is at the head of the poll loop with [n] rounds left. *)
Definition at_poll (n : nat) (operation : Operation) : point :=
  match n with
  | O => after_poll operation
  | S n' => if done operation then after_poll operation else AtSleep n' operation
  end.

(** Where the thread is after the loop over the models. *)
Definition after_start (last_error : option string)
    (operation : option (option Operation)) : point :=
  match operation with
  | None =>
    Raised "cannot access local variable 'operation' where it is not associated with a value"
  | Some None =>
    if contains "billing enabled" (lower (or_empty last_error)) then AtBillingUrl
    else Raised ("No Veo model available or all failed. Last error: " +:+ fmt_opt last_error)
  | Some (Some operation) => at_poll max_polls operation
  end.

(** Where the thread is at the head of the loop over the models. *)
Definition at_start (models : list string) (last_error : option string)
    (operation : option (option Operation)) : point :=
  match models with
  | [] => after_start last_error operation
  | model_name :: rest => AtStart model_name rest last_error
  end.

(** Runs one operation and moves on, to [Raised] if it raises. *)
Definition goto {A} (m : M E A) (k : A -> point) : State E -> point * State E :=
  fun s => match m s with
           | (Ok a, s') => (k a, s')
           | (Raise e, s') => (Raised e, s')
           end.

(** One operation of the thread that runs [_run_veo_sync] for the task
    [t]. *)
Definition thread_step (t : Task) (p : point) : State E -> point * State E :=
  let job := t_job t in
  match p with
  | AtImport =>
    goto (call genai_import) (fun _ => at_start veo_models None None)
  | AtStart model_name rest last_error =>
    goto (try_except
            (log (EvStart model_name) ;;;
             op <- call (generate_videos model_name (prompt_of (t_analytics t))
                           (image_of t)) ;;
             ret (inl op))
            (fun exc => ret (inr exc)))
         (fun r => match r with
                   | inl op => after_start last_error (Some (Some op))
                   | inr exc => at_start rest (Some exc) (Some None)
                   end)
  | AtBillingUrl =>
    goto (update_job job (with_video_url (Some MOCK_VIDEO_URL)))
         (fun _ => AtBillingStatus)
  | AtBillingStatus =>
    goto (set_status job ready) (fun _ => AtBillingNotes)
  | AtBillingNotes =>
    goto (update_job job (with_notes (Some billing_note))) (fun _ => Returned)
  | AtSleep n operation =>
    goto (sleep 10) (fun _ => AtRefresh n operation)
  | AtRefresh n operation =>
    goto (log (EvPoll operation) ;;; call (operations_get operation)) (at_poll n)
  | AtDownload video_file =>
    goto (log (EvDownload video_file) ;;; call (files_download video_file))
         (fun _ => AtSave video_file)
  | AtSave video_file =>
    goto (j <- deref job ;;
          save video_file (video_file_path (job_id j)) ;;;
          ret (job_id j))
         AtPath
  | AtPath jid =>
    goto (update_job job (with_video_path (Some (video_file_path jid))))
         (fun _ => AtUrl jid)
  | AtUrl jid =>
    goto (update_job job (with_video_url (Some ("/api/field-vision/video/" +:+ jid))))
         (fun _ => AtStatus)
  | AtStatus =>
    goto (set_status job ready) (fun _ => Returned)
  | Returned => fun s => (Returned, s)
  | Raised exc => fun s => (Raised exc, s)
  end.

(** [n] operations of the thread in a row. *)
Fixpoint thread_steps (n : nat) (t : Task) (p : point) (s : State E)
    : point * State E :=
  match n with
  | O => (p, s)
  | S n' => let (p', s') := thread_step t p s in thread_steps n' t p' s'
  end.

(** The handler of [_run_veo_job], which the event loop runs when the
    thread has raised. *)
Definition on_error (t : Task) (exc : string) : M E unit :=
  set_status (t_job t) error ;;;
  update_job (t_job t) (with_error (Some exc)) ;;;
  update_job (t_job t) (with_video_url (Some MOCK_VIDEO_URL)).

(** The states of the process with its worker threads: [interleaved s thr]
    when the service can be in state [s] while the threads [thr] are each at
    their point.  The event loop runs [generate_video], starts the thread of
    a scheduled task, takes the result of a thread that has returned, runs the
    handler for a thread that has raised, or runs [cleanup_old_jobs]; a
    thread does its next operation; another process changes the files. *)
Inductive interleaved : State E -> list (Task * point) -> Prop :=
| il_init s : initial s -> interleaved s []
| il_submit s thr jid now img mime a :
    interleaved s thr -> is_uuid4_str jid = true ->
    interleaved (snd (generate_video jid now img mime a s)) thr
| il_begin s thr i t :
    interleaved s thr -> tasks s !! i = Some t ->
    interleaved (with_tasks (delete i (tasks s)) s) (thr ++ [(t, AtImport)])
| il_thread s thr i t p :
    interleaved s thr -> thr !! i = Some (t, p) ->
    interleaved (snd (thread_step t p s)) (<[i := (t, fst (thread_step t p s))]> thr)
| il_return s thr i t :
    interleaved s thr -> thr !! i = Some (t, Returned) ->
    interleaved s (delete i thr)
| il_error s thr i t exc :
    interleaved s thr -> thr !! i = Some (t, Raised exc) ->
    interleaved (snd (on_error t exc s)) (delete i thr)
| il_sweep s thr now max_age :
    interleaved s thr ->
    interleaved (snd (cleanup_old_jobs now max_age s)) thr
| il_files s thr F :
    interleaved s thr -> interleaved (with_files F s) thr.

(** The objects that running threads write to. *)
Definition running (thr : list (Task * point)) : list nat := (t_job ∘ fst) <$> thr.

(** A record that no run has written to. *)
Definition untouched (j : VeoJob) : Prop :=
  status j = generating /\ video_url j = None /\ video_path j = None /\
  job_error j = None /\ job_notes j = None.

(** The record of a job whose thread is at [p]. *)
Definition shape_at (p : point) (j : VeoJob) : Prop :=
  match p with
  | AtBillingStatus =>
    status j = generating /\ video_url j = Some MOCK_VIDEO_URL /\
    video_path j = None /\ job_error j = None /\ job_notes j = None
  | AtBillingNotes =>
    status j = ready /\ video_url j = Some MOCK_VIDEO_URL /\
    video_path j = None /\ job_error j = None /\ job_notes j = None
  | AtPath jid => jid = job_id j /\ untouched j
  | AtUrl jid =>
    jid = job_id j /\
    status j = generating /\ video_url j = None /\
    video_path j = Some (video_file_path (job_id j)) /\
    job_error j = None /\ job_notes j = None
  | AtStatus =>
    status j = generating /\
    video_url j = Some ("/api/field-vision/video/" +:+ job_id j) /\
    video_path j = Some (video_file_path (job_id j)) /\
    job_error j = None /\ job_notes j = None
  | Returned =>
    status j = ready /\ job_error j = None /\
    (video_url j = Some MOCK_VIDEO_URL /\ video_path j = None \/
     video_url j = Some ("/api/field-vision/video/" +:+ job_id j) /\
     video_path j = Some (video_file_path (job_id j)) /\ job_notes j = None)
  | _ => untouched j
  end.

(** The record of a job that no task and no thread refers to. *)
Definition settled_shape (j : VeoJob) : Prop :=
  match status j with
  | generating => False
  | ready =>
    job_error j = None /\
    (video_url j = Some MOCK_VIDEO_URL /\ video_path j = None \/
     video_url j = Some ("/api/field-vision/video/" +:+ job_id j) /\
     video_path j = Some (video_file_path (job_id j)) /\ job_notes j = None)
  | error =>
    video_url j = Some MOCK_VIDEO_URL /\ video_path j = None /\
    is_Some (job_error j) /\ job_notes j = None
  end.

(** The invariant of the process with its threads. *)
Record TInv (s : State E) (thr : list (Task * point)) : Prop := {
  tinv_store : forall jid l, _jobs s !! jid = Some l ->
                 exists j, heap s !! l = Some j /\ job_id j = jid;
  tinv_nodup : NoDup (pending s ++ running thr);
  tinv_task : forall t, t ∈ tasks s ->
                exists j, heap s !! t_job t = Some j /\ untouched j;
  tinv_thread : forall t p, (t, p) ∈ thr ->
                  exists j, heap s !! t_job t = Some j /\ shape_at p j;
  tinv_job : forall l j, heap s !! l = Some j ->
               is_uuid4_str (job_id j) = true /\
               (l ∉ pending s ++ running thr -> settled_shape j)
}.

(** The thread of [t] gets from [p] in state [s] to [p'] in state [s'] by
    operations of its own. *)
Definition runs_to (t : Task) (p : point) (s : State E) (p' : point) (s' : State E)
    : Prop :=
  exists n, thread_steps n t p s = (p', s').

(** What one operation of a thread does to the state. *)
Definition thread_step_post (t : Task) (j : VeoJob) (s : State E)
    (r : point * State E) : Prop :=
  exists j', heap (snd r) = <[t_job t := j']> (heap s) /\
    shape_at (fst r) j' /\ job_id j' = job_id j /\
    _jobs (snd r) = _jobs s /\ tasks (snd r) = tasks s.

(** The fields of a job record, by status, at any point of a run. *)
Definition record_shape (j : VeoJob) : Prop :=
  match status j with
  | generating =>
    job_error j = None /\ job_notes j = None /\
    (video_url j = None /\ video_path j = None \/
     video_url j = Some MOCK_VIDEO_URL /\ video_path j = None \/
     video_path j = Some (video_file_path (job_id j)) /\
     (video_url j = None \/
      video_url j = Some ("/api/field-vision/video/" +:+ job_id j)))
  | ready =>
    job_error j = None /\
    (video_url j = Some MOCK_VIDEO_URL /\ video_path j = None \/
     video_url j = Some ("/api/field-vision/video/" +:+ job_id j) /\
     video_path j = Some (video_file_path (job_id j)) /\ job_notes j = None)
  | error =>
    video_url j = Some MOCK_VIDEO_URL /\ video_path j = None /\
    is_Some (job_error j) /\ job_notes j = None
  end.

End Threads.

(** * Scenarios *)

Definition jid1 : string := "123e4567-e89b-42d3-a456-426614174000".

Definition jid2 : string := "0f8fad5b-d9cb-469f-a165-70867728950e".

Definition op_pending : Operation :=
  {| name := "operations/1"; done := false; response := None |}.

Definition op_finished : Operation :=
  {| name := "operations/1"; done := true;
     response := Some {| generated_videos := [ {| video := {| uri := "files/1" |} |} ] |} |}.

(** No API key. *)
Definition env_no_key : Env :=
  scripted_env None (fun _ => Raise "no backend") (fun op => Ok op).

(** Every model is out of quota. *)
Definition env_quota : Env :=
  scripted_env (Some "key") (fun _ => Raise "429 quota exceeded") (fun op => Ok op).

(** Every model asks for billing. *)
Definition env_billing : Env :=
  scripted_env (Some "key")
    (fun _ => Raise "FAILED_PRECONDITION: Veo requires Billing Enabled on the project")
    (fun op => Ok op).

(** The first model starts an operation that never completes. *)
Definition env_stuck : Env :=
  scripted_env (Some "key") (fun _ => Ok op_pending) (fun _ => Ok op_pending).

(** Only the last model is available; the first refresh reports done. *)
Definition env_last : Env :=
  scripted_env (Some "key")
    (fun m => if String.eqb m "veo-2.0-generate-001" then Ok op_pending
              else Raise ("404 model not found: " +:+ m))
    (fun _ => Ok op_finished).

(** Candidates A and B raise, C returns a handle. *)
Definition env_abc : Env :=
  scripted_env (Some "key")
    (fun m => if String.eqb m "C" then Ok op_pending else Raise (m +:+ " failed"))
    (fun op => Ok op).

Definition an_image : Image := {| image_bytes := []; mime_type := "image/png" |}.

(** A fresh service that received one request at time 100. *)
Definition submitted (E : Env) (b : remote) : State E :=
  snd (generate_video jid1 100 [] "image/png" MOCK_ANALYTICS (fresh_state b ∅)).

(** ... and whose event loop then ran the scheduled task, if any. *)
Definition settled (E : Env) (b : remote) : State E :=
  match tasks (submitted E b) with
  | t :: _ => snd (_run_veo_job t (with_tasks (delete 0%nat (tasks (submitted E b)))
                                     (submitted E b)))
  | [] => submitted E b
  end.

(** The task that [submitted] schedules when a client is available. *)
Definition task1 : Task :=
  {| t_job := 0%nat; t_client := {| api_key := "key" |}; t_image_bytes := [];
     t_mime_type := "image/png"; t_analytics := MOCK_ANALYTICS |}.

(** Runs the first scheduled task, if any. *)
Definition run_first `{E : Env} (s : State E) : State E :=
  match tasks s with
  | t :: _ => snd (_run_veo_job t (with_tasks (delete 0%nat (tasks s)) s))
  | [] => s
  end.

(** Two requests, at times 100 and 500, both served with a real video. *)
Definition two_jobs : State env_last :=
  run_first (snd (generate_video jid2 500 [] "image/png" MOCK_ANALYTICS
                    (settled env_last tt))).

(** The request of [submitted] after the event loop has started its thread. *)
Definition begun (E : Env) (b : remote) : State E :=
  with_tasks (delete 0%nat (tasks (submitted E b))) (submitted E b).

(** The scenario of [env_last] when the thread has saved the video and
    written its path, and has not yet written the locator and the status:
    nine operations after its start (the imports, three models, a sleep and
    a refresh, the download, the save and the write of the path). *)
Definition path_written : State env_last :=
  snd (thread_steps 9 task1 AtImport (begun env_last tt)).

(** * Vocabulary of the further properties *)

Section FurtherVocabulary.
Context `{E : Env}.

(** The operation [op] reports done after exactly [k] refreshes from the
    backend state [b]: [op'] is the handle then and [b'] the backend state. *)
Inductive completes : nat -> Operation -> remote -> Operation -> remote -> Prop :=
| completes_O op b : done op = true -> completes O op b op b
| completes_S k op b op1 b1 op' b' :
    done op = false ->
    operations_get op b = (Ok op1, b1) ->
    completes k op1 b1 op' b' ->
    completes (S k) op b op' b'.

(** The state [s'] differs from [s] in the job at [l], the files, the
    backend and the events [evs] added to the trace. *)
Definition run_result (s s' : State E) (l : nat) (j' : VeoJob)
    (F' : gset string) (evs : list event) : Prop :=
  heap s' = <[l := j']> (heap s) /\ files s' = F' /\
  trace s' = trace s ++ evs /\ _jobs s' = _jobs s /\ tasks s' = tasks s.

End FurtherVocabulary.

Section VisionVocabulary.
Context `{E : Env} `{V : !Vision E}.

(** Every model of [ms], asked in turn from the backend state [b], raises or
    answers nothing: [es] are the messages of those that raised, in order,
    and [b'] is the final backend state. *)
Inductive no_answer (img : list Byte.byte) (mime prompt : string)
  : list string -> remote -> list string -> remote -> Prop :=
| no_answer_nil b : no_answer img mime prompt [] b [] b
| no_answer_raise m ms b e b1 es b' :
    generate_content m img mime prompt b = (Raise e, b1) ->
    no_answer img mime prompt ms b1 es b' ->
    no_answer img mime prompt (m :: ms) b (e :: es) b'
| no_answer_none m ms b b1 es b' :
    generate_content m img mime prompt b = (Ok None, b1) ->
    no_answer img mime prompt ms b1 es b' ->
    no_answer img mime prompt (m :: ms) b es b'.

End VisionVocabulary.

(** How a field of the analytics follows from the parsed object [d]: the
    default when the key is missing, the value when it has the type of the
    field, for a score also 1 or 0 for a boolean. *)
Definition float_field (d : gmap string pyval) (key : string) (default x : float) : Prop :=
  (d !! key = None -> x = default) /\
  (forall f, d !! key = Some (VFloat f) -> x = f).

Definition int_field (d : gmap string pyval) (key : string) (default x : Z) : Prop :=
  (d !! key = None -> x = default) /\
  (forall z, d !! key = Some (VInt z) -> x = z) /\
  (forall b : bool, d !! key = Some (VBool b) -> x = if b then 1 else 0).

Definition str_field (d : gmap string pyval) (key : string) (default x : string) : Prop :=
  (d !! key = None -> x = default) /\
  (forall t, d !! key = Some (VStr t) -> x = t).

(** The message recorded when no model answered. *)
Definition analysis_failure (es : list string) : string :=
  match last es with
  | Some e => e
  | None => "All analysis models failed"
  end.

(** The shared mock after a failed analysis. *)
Definition fallback_analytics (exc : string) (mock : FieldAnalytics) : FieldAnalytics :=
  with_analytics_notes ("Using mock data due to analysis error: " +:+ exc) mock.

(** [s] contains no backtick. *)
Fixpoint no_backtick (s : string) : bool :=
  match s with
  | EmptyString => true
  | String c s' => negb (Ascii.eqb c "`") && no_backtick s'
  end.

(** ** Further scenarios *)

(** A vision environment built from the answers of the models and of
    [json.loads]; [strip] does nothing and the open conversions raise. *)
Definition scripted_vision (E : Env)
    (answer : string -> outcome (option ContentResponse))
    (loads : string -> outcome pyval) : Vision E :=
  {| generate_content := fun m _ _ _ b => (answer m, b);
     json_loads := loads;
     str_strip := fun t => t;
     vision_float_conv := fun _ => Raise "could not convert to float";
     vision_int_conv := fun _ => Raise "invalid literal for int()";
     vision_str_conv := fun v => type_name v |}.

(** The first model is overloaded, the second answers nothing, the third
    answers with fenced JSON, which parses to a dictionary with a risk
    score. *)
Definition vision_third : Vision env_quota :=
  scripted_vision env_quota
    (fun m => if String.eqb m "gemini-2.0-flash-lite" then Raise "503 overloaded"
              else if String.eqb m "gemini-2.5-flash" then Ok None
              else Ok (Some {| text := Some ("```json" +:+ nl +:+ "{...}" +:+ nl +:+ "```") |}))
    (fun raw => if String.eqb raw (nl +:+ "{...}" +:+ nl)
                then Ok (VDict (<["risk_score" := VInt 40]> ∅))
                else Raise "Expecting value").

(** No model answers: two are overloaded, one answers nothing. *)
Definition vision_down : Vision env_quota :=
  scripted_vision env_quota
    (fun m => if String.eqb m "gemini-2.5-flash" then Ok None
              else Raise ("503 overloaded: " +:+ m))
    (fun _ => Raise "Expecting value").

(** The object [{"risk_score": 40}] and the analytics built from it. *)
Definition parsed_risk40 : pyval := VDict (<["risk_score" := VInt 40]> ∅).

Definition risk40 : FieldAnalytics :=
  {| land_area_ha := 10.0;
     water_need_l_per_day := 3500.0;
     profit_usd_per_ha := 1000.0;
     risk_score := 40;
     risk_label := "Moderate";
     sustainability_score := 65;
     soil_type := "Unknown";
     dominant_vegetation := "Unknown";
     recommended_crop := "N/A";
     veo_prompt := "";
     is_mock := false;
     notes := "" |}.

(** An object with a float, an integer, a boolean and a string, and the
    analytics built from it. *)
Definition parsed_fields : pyval :=
  VDict (<["water_need_l_per_day" := VFloat 4200.5]>
           (<["risk_score" := VInt 40]>
              (<["sustainability_score" := VBool true]>
                 (<["soil_type" := VStr "Clay Loam"]> ∅)))).

Definition analytics_of_fields : FieldAnalytics :=
  {| land_area_ha := 10.0;
     water_need_l_per_day := 4200.5;
     profit_usd_per_ha := 1000.0;
     risk_score := 40;
     risk_label := "Moderate";
     sustainability_score := 1;
     soil_type := "Clay Loam";
     dominant_vegetation := "Unknown";
     recommended_crop := "N/A";
     veo_prompt := "";
     is_mock := false;
     notes := "" |}.

(** The conversions of [scripted_vision]. *)
Definition no_float : pyval -> outcome float := fun _ => Raise "could not convert to float".
Definition no_int : pyval -> outcome Z := fun _ => Raise "invalid literal for int()".

(** A request whose job was swept before its task ran. *)
Definition swept_pending : State env_last :=
  snd (cleanup_old_jobs 1000 0 (submitted env_last tt)).

(** Further scenario environments for the failures of a run. *)
Definition op_empty : Operation :=
  {| name := "operations/1"; done := true;
     response := Some {| generated_videos := [] |} |}.

Definition env_no_videos : Env :=
  scripted_env (Some "key") (fun _ => Ok op_pending) (fun _ => Ok op_empty).

Definition env_no_download : Env :=
  {| remote := unit;
     gemini_api_key := Some "key";
     TEMP := None;
     genai_Client := fun k b => (Ok {| api_key := k |}, b);
     genai_import := fun b => (Ok tt, b);
     generate_videos := fun _ _ _ b => (Ok op_finished, b);
     operations_get := fun op b => (Ok op, b);
     files_download := fun _ b => (Raise "403 file not accessible", b);
     video_save := fun _ _ b => (Ok tt, b) |}.

Definition env_no_import : Env :=
  {| remote := unit;
     gemini_api_key := Some "key";
     TEMP := None;
     genai_Client := fun k b => (Ok {| api_key := k |}, b);
     genai_import := fun b => (Raise "cannot import name 'types'", b);
     generate_videos := fun _ _ _ b => (Ok op_finished, b);
     operations_get := fun op b => (Ok op, b);
     files_download := fun _ b => (Ok tt, b);
     video_save := fun _ _ b => (Ok tt, b) |}.

(** * Properties *)

(** ** Strings and paths *)

Lemma append_nil_l (y : string) : "" +:+ y = y.
Proof. reflexivity. Qed.

Lemma append_cons (c : ascii) (x y : string) :
  String c x +:+ y = String c (x +:+ y).
Proof. reflexivity. Qed.

Lemma append_inj_l (p x y : string) : p +:+ x = p +:+ y -> x = y.
Proof.
  induction p as [|c p IH]; rewrite ?append_nil_l, ?append_cons; intros H;
    [exact H|].
  injection H as H. auto.
Qed.

Lemma append_length (x y : string) :
  String.length (x +:+ y) = (String.length x + String.length y)%nat.
Proof.
  induction x as [|c x IH]; rewrite ?append_nil_l, ?append_cons; simpl;
    [reflexivity|].
  now rewrite IH.
Qed.

Lemma append_inj_r (x y t : string) : x +:+ t = y +:+ t -> x = y.
Proof.
  revert y. induction x as [|c x IH]; intros [|d y] H.
  - reflexivity.
  - apply (f_equal String.length) in H.
    rewrite !append_length in H. simpl in H. lia.
  - apply (f_equal String.length) in H.
    rewrite !append_length in H. simpl in H. lia.
  - rewrite !append_cons in H. injection H as -> H. f_equal. auto.
Qed.

Lemma append_assoc (x y z : string) : (x +:+ y) +:+ z = x +:+ (y +:+ z).
Proof.
  induction x as [|c x IH]; rewrite ?append_nil_l, ?append_cons;
    [reflexivity|].
  now rewrite IH.
Qed.

Lemma prefix_sep_false (c : ascii) (r : string) :
  c <> "/"%char -> String.prefix "/" (String c r) = false.
Proof.
  intros Hc. unfold String.prefix.
  destruct (ascii_dec "/" c) as [Heq|_]; [congruence|reflexivity].
Qed.

Lemma is_hex_not_sep (c : ascii) : is_hex c = true -> c <> "/"%char.
Proof. intros H ->. vm_compute in H. discriminate. Qed.

Lemma uuid_first (jid : string) :
  is_uuid4_str jid = true ->
  exists c rest, jid = String c rest /\ c <> "/"%char.
Proof.
  destruct jid as [|c rest]; intros H.
  - vm_compute in H. discriminate.
  - exists c, rest. split; [reflexivity|].
    unfold is_uuid4_str in H. simpl in H.
    apply andb_prop in H as [H _]. now apply is_hex_not_sep.
Qed.

Section Paths.
Context `{E : Env}.

Lemma video_file_path_uuid (jid : string) :
  is_uuid4_str jid = true ->
  video_file_path jid = video_dir_prefix +:+ jid +:+ ".mp4".
Proof.
  intros H. destruct (uuid_first jid H) as (c & rest & -> & Hc).
  unfold video_file_path, path_join, video_dir_prefix.
  rewrite append_cons, prefix_sep_false by assumption.
  destruct (String.eqb VIDEO_DIR "" || ends_with_sep VIDEO_DIR)%bool;
    [reflexivity|].
  now rewrite append_assoc.
Qed.

Lemma video_file_path_inj (a b : string) :
  is_uuid4_str a = true -> is_uuid4_str b = true ->
  video_file_path a = video_file_path b -> a = b.
Proof.
  intros Ha Hb. rewrite !video_file_path_uuid by assumption.
  intros H. apply append_inj_l in H. now apply append_inj_r in H.
Qed.

Lemma video_file_path_truthy (jid : string) :
  is_uuid4_str jid = true -> truthy (Some (video_file_path jid)) = true.
Proof.
  intros H. rewrite video_file_path_uuid by assumption.
  destruct (uuid_first jid H) as (c & rest & -> & _).
  destruct video_dir_prefix; reflexivity.
Qed.

End Paths.

(** ** Measures of traces *)

Lemma quiet_status_writes (l : nat) (tr : list event) :
  Forall quiet_event tr -> status_writes l tr = [].
Proof.
  induction 1 as [|e tr He _ IH]; [reflexivity|].
  unfold status_writes in *. destruct e; simpl in *; try assumption; contradiction.
Qed.

Lemma quiet_spawned (tr : list event) :
  Forall quiet_event tr -> spawned tr = [].
Proof.
  induction 1 as [|e tr He _ IH]; [reflexivity|].
  unfold spawned in *. destruct e; simpl in *; try assumption; contradiction.
Qed.

Lemma status_writes_app (l : nat) (a b : list event) :
  status_writes l (a ++ b) = status_writes l a ++ status_writes l b.
Proof. apply omap_app. Qed.

Lemma spawned_app (a b : list event) : spawned (a ++ b) = spawned a ++ spawned b.
Proof. apply omap_app. Qed.

Lemma polled_app (a b : list event) : polled (a ++ b) = polled a ++ polled b.
Proof. apply omap_app. Qed.

Lemma slept_app (a b : list event) : slept (a ++ b) = slept a ++ slept b.
Proof. apply omap_app. Qed.

Lemma started_app (a b : list event) : started (a ++ b) = started a ++ started b.
Proof. apply omap_app. Qed.

Lemma started_EvStart (ms : list string) : started (EvStart <$> ms) = ms.
Proof. induction ms as [|m ms IH]; [reflexivity|]. simpl. f_equal. exact IH. Qed.

Lemma quiet_EvStart (ms : list string) : Forall quiet_event (EvStart <$> ms).
Proof. induction ms; constructor; simpl; auto. Qed.

Lemma polled_EvStart (ms : list string) : polled (EvStart <$> ms) = [].
Proof. induction ms as [|m ms IH]; [reflexivity|]. exact IH. Qed.

Lemma quiet_wait_events (ops : list Operation) : Forall quiet_event (wait_events ops).
Proof. induction ops; simpl; repeat constructor; auto. Qed.

Lemma polled_wait_events (ops : list Operation) : polled (wait_events ops) = ops.
Proof. induction ops as [|op ops IH]; [reflexivity|]. simpl. f_equal. exact IH. Qed.

Lemma slept_wait_events (ops : list Operation) :
  slept (wait_events ops) = replicate (length ops) 10.
Proof. induction ops as [|op ops IH]; [reflexivity|]. simpl. f_equal. exact IH. Qed.

Lemma started_wait_events (ops : list Operation) : started (wait_events ops) = [].
Proof. induction ops as [|op ops IH]; [reflexivity|]. exact IH. Qed.

(** ** The two loops *)

Section Loops.
Context `{E : Env}.

Lemma ext_ext (s : State E) b1 e1 b2 e2 :
  ext (ext s b1 e1) b2 e2 = ext s b2 (e1 ++ e2).
Proof. unfold ext, with_trace, with_backend. simpl. now rewrite app_assoc. Qed.

Lemma ext_id (s : State E) : ext s (backend s) [] = s.
Proof. destruct s. unfold ext, with_trace, with_backend. simpl. now rewrite app_nil_r. Qed.

Lemma last_of_cons e es le : last_of (e :: es) le = last_of es (Some e).
Proof. unfold last_of. destruct es as [|e' es]; [reflexivity|]. simpl.
  destruct (last (e' :: es)) eqn:Hl; [reflexivity|].
  apply last_None in Hl. discriminate. Qed.

Lemma all_raise_length prompt image ms b es b' :
  all_raise prompt image ms b es b' -> length es = length ms.
Proof. induction 1; simpl; congruence. Qed.

Lemma start_first_exhausted prompt image ms es b' :
  forall s le opn,
  all_raise prompt image ms (backend s) es b' ->
  start_first ms prompt image le opn s
  = (Ok (last_of es le, match ms with [] => opn | _ => Some None end),
     ext s b' (EvStart <$> ms)).
Proof.
  revert es. induction ms as [|m ms IH]; intros es s le opn H;
    inversion H as [|? ? ? e b1' es' ? Hgv Hrest]; subst.
  - simpl. unfold ret. now rewrite ext_id.
  - simpl. unfold bind, try_except, log, call, ret. simpl. rewrite Hgv. simpl.
    match goal with |- start_first _ _ _ _ _ ?s1 = _ => specialize (IH _ s1 (Some e) (Some None) Hrest) end.
    rewrite IH, last_of_cons. f_equal.
    + f_equal. f_equal. now destruct ms.
    + unfold ext, with_trace, with_backend. simpl. now rewrite <- app_assoc.
Qed.

Lemma start_first_found prompt image pre m post es b1 op b2 :
  forall s le opn,
  all_raise prompt image pre (backend s) es b1 ->
  generate_videos m prompt image b1 = (Ok op, b2) ->
  start_first (pre ++ m :: post) prompt image le opn s
  = (Ok (last_of es le, Some (Some op)), ext s b2 (EvStart <$> (pre ++ [m]))).
Proof.
  revert es. induction pre as [|p pre IH]; intros es s le opn H Hm;
    inversion H as [|? ? ? e b1' es' ? Hgv Hrest]; subst.
  - simpl. unfold bind, try_except, log, call, ret. simpl. rewrite Hm. reflexivity.
  - simpl. unfold bind, try_except, log, call, ret. simpl. rewrite Hgv. simpl.
    match goal with |- start_first _ _ _ _ _ ?s1 = _ => specialize (IH _ s1 (Some e) (Some None) Hrest Hm) end.
    rewrite IH, last_of_cons. f_equal.
    unfold ext, with_trace, with_backend. simpl. now rewrite <- app_assoc.
Qed.

(** Either every candidate raises, or there is a first one that returns. *)
Lemma first_success_or_all_raise prompt image ms b :
  (exists es b', all_raise prompt image ms b es b') \/
  (exists pre m post es b1 op b2,
     ms = pre ++ m :: post /\ all_raise prompt image pre b es b1 /\
     generate_videos m prompt image b1 = (Ok op, b2)).
Proof.
  revert b. induction ms as [|m ms IH]; intros b.
  - left. exists [], b. constructor.
  - destruct (generate_videos m prompt image b) as [[op|e] b1] eqn:Hm.
    + right. exists [], m, ms, [], b, op, b1. repeat split; [constructor|assumption].
    + destruct (IH b1) as [(es & b' & H)|(pre & m' & post & es & b2 & op & b3 & -> & H & Hm')].
      * left. exists (e :: es), b'. econstructor; eassumption.
      * right. exists (m :: pre), m', post, (e :: es), b2, op, b3.
        repeat split; [econstructor; eassumption|assumption].
Qed.

(** What the rest of [_run_veo_sync] relies on. *)
Lemma start_first_frame prompt image ms s :
  ms <> [] ->
  exists le opn b' tried,
    start_first ms prompt image None None s
    = (Ok (le, Some opn), ext s b' (EvStart <$> tried)) /\
    tried `prefix_of` ms.
Proof.
  intros Hne.
  destruct (first_success_or_all_raise prompt image ms (backend s))
    as [(es & b' & H)|(pre & m & post & es & b1 & op & b2 & -> & H & Hm)].
  - rewrite (start_first_exhausted _ _ _ _ _ _ _ _ H).
    destruct ms; [congruence|]. eauto 10.
  - rewrite (start_first_found _ _ _ _ _ _ _ _ _ _ _ _ H Hm).
    do 4 eexists. split; [reflexivity|]. exists post. now rewrite <- app_assoc.
Qed.

(** The poll loop refreshes at most [n] times, sleeping 10 before each
    refresh, and touches nothing but the backend. *)
Lemma poll_frame n : forall op s,
  exists r b' ops,
    poll n op s = (r, ext s b' (wait_events ops)) /\ (length ops <= n)%nat /\
    (forall op', r = Ok op' -> done op' = false -> length ops = n).
Proof.
  induction n as [|n IH]; intros op s.
  - exists (Ok op), (backend s), []. simpl. unfold ret. rewrite ext_id.
    repeat split; auto.
  - simpl. destruct (done op) eqn:Hd.
    + exists (Ok op), (backend s), []. unfold ret. rewrite ext_id.
      repeat split; [simpl; lia|]. intros op' [= <-]. congruence.
    + unfold bind, sleep, log, call. simpl.
      destruct (operations_get op (backend s)) as [[op1|e] b1] eqn:Hg; simpl.
      * match goal with |- context [poll n op1 ?s1] => destruct (IH op1 s1) as (r & b' & ops & Hp & Hlen & Hnd) end.
        exists r, b', (op :: ops). rewrite Hp. split; [|split].
        -- f_equal. unfold ext, with_trace, with_backend. simpl.
           now rewrite <- !app_assoc.
        -- simpl. lia.
        -- intros op' Hr Hd'. simpl. f_equal. eauto.
      * exists (Raise e), b1, [op]. split; [|split].
        -- f_equal. unfold ext, with_trace, with_backend. simpl.
           now rewrite <- !app_assoc.
        -- simpl. lia.
        -- intros op' [=].
Qed.

End Loops.

(** ** Rewriting the measures of a composite trace *)

Lemma status_writes_EvStart l ms : status_writes l (EvStart <$> ms) = [].
Proof. apply quiet_status_writes, quiet_EvStart. Qed.

Lemma spawned_EvStart ms : spawned (EvStart <$> ms) = [].
Proof. apply quiet_spawned, quiet_EvStart. Qed.

Lemma slept_EvStart ms : slept (EvStart <$> ms) = [].
Proof. induction ms as [|m ms IH]; [reflexivity|]. exact IH. Qed.

Lemma status_writes_wait l ops : status_writes l (wait_events ops) = [].
Proof. apply quiet_status_writes, quiet_wait_events. Qed.

Lemma spawned_wait ops : spawned (wait_events ops) = [].
Proof. apply quiet_spawned, quiet_wait_events. Qed.

Lemma status_writes_one_eq l v : status_writes l [EvStatus l v] = [v].
Proof. unfold status_writes. simpl. now rewrite decide_True. Qed.

Lemma status_writes_one_ne l l' v : l' <> l -> status_writes l' [EvStatus l v] = [].
Proof. intros H. unfold status_writes. simpl. rewrite decide_False; auto. Qed.

Create Rewrite HintDb trace_db.
#[global] Hint Rewrite status_writes_app spawned_app polled_app slept_app started_app
  status_writes_EvStart spawned_EvStart slept_EvStart polled_EvStart started_EvStart
  status_writes_wait spawned_wait polled_wait_events slept_wait_events
  started_wait_events status_writes_one_eq
  @app_nil_r @app_nil_l : trace_db.

Lemma alter_at {A} (f : A -> A) (h : list A) (l : nat) (x : A) :
  h !! l = Some x -> alter f l h = <[l := f x]> h.
Proof.
  revert l. induction h as [|y h IH]; intros [|l] H; try discriminate.
  - injection H as ->. reflexivity.
  - cbn. f_equal. apply IH. exact H.
Qed.

(** ** A weakest-precondition calculus for the monad *)

Section Wp.
Context `{E : Env}.

Lemma wp_ret {A} (a : A) s Q : Q (Ok a) s -> wp (ret a) s Q.
Proof. exact id. Qed.

Lemma wp_raise {A} msg s (Q : outcome A -> State E -> Prop) :
  Q (Raise msg) s -> wp (raise msg) s Q.
Proof. exact id. Qed.

Lemma wp_bind {A B} (m : M E A) (k : A -> M E B) s Q :
  wp m s (fun r s' => match r with
                      | Ok a => wp (k a) s' Q
                      | Raise e => Q (Raise e) s'
                      end) ->
  wp (bind m k) s Q.
Proof. unfold wp, bind. destruct (m s) as [[a|e] s']; exact id. Qed.

Lemma wp_try_except {A} (m : M E A) (h : string -> M E A) s Q :
  wp m s (fun r s' => match r with
                      | Ok a => Q (Ok a) s'
                      | Raise e => wp (h e) s' Q
                      end) ->
  wp (try_except m h) s Q.
Proof. unfold wp, try_except. destruct (m s) as [[a|e] s']; exact id. Qed.

Lemma wp_call {A} (f : remote -> outcome A * remote) s Q :
  (forall r b, f (backend s) = (r, b) -> Q r (with_backend b s)) ->
  wp (call f) s Q.
Proof. unfold wp, call. destruct (f (backend s)) as [r b]. intros H. now apply H. Qed.

Lemma wp_log e s (Q : outcome unit -> State E -> Prop) :
  Q (Ok tt) (with_trace (trace s ++ [e]) s) -> wp (log e) s Q.
Proof. exact id. Qed.

Lemma wp_update_job l f s (Q : outcome unit -> State E -> Prop) :
  Q (Ok tt) (with_heap (alter f l (heap s)) s) -> wp (update_job l f) s Q.
Proof. exact id. Qed.

Lemma wp_set_status l v s (Q : outcome unit -> State E -> Prop) :
  Q (Ok tt) (with_trace (trace s ++ [EvStatus l v])
               (with_heap (alter (with_status v) l (heap s)) s)) ->
  wp (set_status l v) s Q.
Proof. exact id. Qed.

Lemma wp_deref l j s (Q : outcome VeoJob -> State E -> Prop) :
  heap s !! l = Some j -> Q (Ok j) s -> wp (deref l) s Q.
Proof. unfold wp, deref. intros ->. exact id. Qed.

Lemma wp_save v p s (Q : outcome unit -> State E -> Prop) :
  (forall r b, video_save v p (backend s) = (r, b) ->
     match r with
     | Ok _ => Q (Ok tt) (with_files ({[p]} ∪ files s)
                            (with_backend b (with_trace (trace s ++ [EvSave v p]) s)))
     | Raise e => Q (Raise e) (with_backend b (with_trace (trace s ++ [EvSave v p]) s))
     end) ->
  wp (save v p) s Q.
Proof.
  intros H. unfold save. apply wp_bind, wp_log, wp_bind, wp_call.
  intros [[]|e] b Hb; specialize (H _ _ Hb); exact H.
Qed.

Lemma wp_start_first ms prompt image s Q :
  ms <> [] ->
  (forall le opn b tried, tried `prefix_of` ms ->
     Q (Ok (le, Some opn)) (ext s b (EvStart <$> tried))) ->
  wp (start_first ms prompt image None None) s Q.
Proof.
  intros Hne H. unfold wp.
  destruct (start_first_frame prompt image ms s Hne) as (le & opn & b & tried & -> & Hp).
  now apply H.
Qed.

Lemma wp_poll n op s Q :
  (forall r b ops, (length ops <= n)%nat -> Q r (ext s b (wait_events ops))) ->
  wp (poll n op) s Q.
Proof.
  intros H. unfold wp.
  destruct (poll_frame n op s) as (r & b & ops & -> & Hlen & _). now apply H.
Qed.

Lemma wp_mono {A} (m : M E A) s (Q Q' : outcome A -> State E -> Prop) :
  (forall r s', Q r s' -> Q' r s') -> wp m s Q -> wp m s Q'.
Proof. unfold wp. auto. Qed.

End Wp.

Ltac wp_step :=
  lazymatch goal with
  | |- wp (bind _ _) _ _ => apply wp_bind
  | |- wp (ret _) _ _ => apply wp_ret
  | |- wp (raise _) _ _ => apply wp_raise
  | |- wp (log _) _ _ => apply wp_log
  | |- wp (set_status _ _) _ _ => apply wp_set_status
  | |- wp (update_job _ _) _ _ => apply wp_update_job
  end; cbv beta iota.

(** ** One run of the background work *)

Section Jobs.
Context `{E : Env}.

Ltac trace_facts :=
  unfold max_polls in *; autorewrite with trace_db; simpl;
  rewrite ?app_nil_r; rewrite ?decide_True by reflexivity;
  try reflexivity; try lia; auto.

Ltac frame_facts :=
  constructor; simpl; rewrite <- ?app_assoc; try reflexivity; trace_facts.

Ltac raise_case :=
  eexists; split; [frame_facts|];
  split; [intros; trace_facts|]; repeat split; trace_facts.

Lemma run_veo_sync_spec l c img mime a (s : State E) j :
  heap s !! l = Some j ->
  wp (_run_veo_sync l c img mime a) s (sync_post l j s).
Proof.
  intros Hj. unfold _run_veo_sync.
  apply wp_bind, wp_call. intros [[]|e] b0 Hi.
  2: { exists []. split; [frame_facts; apply prefix_nil|].
       split; [reflexivity|]. repeat split. }
  apply wp_bind, wp_start_first; [discriminate|]. intros le opn b1 tried Hpre.
  destruct opn as [op|].
  - apply wp_bind, wp_poll. intros r b2 ops Hlen. rewrite ext_ext.
    destruct r as [op'|e]; [|raise_case].
    destruct (done op'); [|apply wp_raise; raise_case].
    destruct (response op') as [resp|]; [|apply wp_raise; raise_case].
    destruct (generated_videos resp) as [|g gs]; [apply wp_raise; raise_case|].
    wp_step. wp_step. wp_step. apply wp_call. intros [[]|e] b3 Hd; [|raise_case].
    apply wp_bind, (wp_deref _ j); [exact Hj|].
    apply wp_bind, wp_save. intros [[]|e] b4 Hs; [|raise_case].
    do 4 wp_step. apply wp_set_status.
    eexists. split; [frame_facts|]. split.
    { intros l' Hl'. trace_facts. now apply status_writes_one_ne. }
    split; [trace_facts|]. right. split; [|reflexivity].
    simpl. rewrite !list_alter_alter_eq, (alter_at _ _ _ _ Hj). reflexivity.
  - destruct (contains "billing enabled" (lower (or_empty le))).
    + do 2 wp_step. apply wp_bind, wp_set_status. do 2 wp_step. apply wp_ret.
      eexists. split; [frame_facts|]. split.
      { intros l' Hl'. trace_facts. now apply status_writes_one_ne. }
      split; [trace_facts|]. left. split; [|reflexivity].
      simpl. rewrite !list_alter_alter_eq, (alter_at _ _ _ _ Hj). reflexivity.
    + apply wp_raise. raise_case.
Qed.

Lemma run_veo_job_spec t (s : State E) j :
  heap s !! t_job t = Some j ->
  wp (_run_veo_job t) s (job_post (t_job t) j s).
Proof.
  intros Hj. unfold _run_veo_job.
  apply wp_try_except.
  eapply wp_mono; [|apply (run_veo_sync_spec _ _ _ _ _ _ _ Hj)].
  intros [[]|e] s' (evs & Hfr & Hother & Hres).
  - destruct Hres as (Hw & [(Hh & Hf)|(Hh & Hf)]).
    + split; [reflexivity|]. exists evs, (billing_job j).
      rewrite Hf. split; [exact Hfr|]. split; [exact Hh|].
      split; [constructor|]. split; [exact Hw|exact Hother].
    + split; [reflexivity|]. exists evs, (saved_job j).
      rewrite Hf. split; [exact Hfr|]. split; [exact Hh|].
      split; [constructor|]. split; [exact Hw|exact Hother].
  - destruct Hres as (Hh & Hf & Hw). destruct Hfr.
    apply wp_bind, wp_set_status. do 2 wp_step. apply wp_update_job.
    split; [reflexivity|]. exists (evs ++ [EvStatus (t_job t) error]), (failed_job e j).
    split; [|split; [|split; [|split]]].
    + constructor; simpl; auto; try (rewrite fr_trace0; now rewrite app_assoc);
        autorewrite with trace_db; simpl; rewrite ?app_nil_r; auto.
    + simpl. rewrite !list_alter_alter_eq, Hh, (alter_at _ _ _ _ Hj). reflexivity.
    + simpl. rewrite Hf. constructor.
    + autorewrite with trace_db. now rewrite Hw.
    + intros l' Hl'. autorewrite with trace_db. rewrite (Hother _ Hl').
      now apply status_writes_one_ne.
Qed.

End Jobs.

(** ** Submitting a job *)

Lemma alter_last {A} (f : A -> A) (h : list A) (x : A) :
  alter f (length h) (h ++ [x]) = h ++ [f x].
Proof. induction h as [|y h IH]; [reflexivity|]. cbn. f_equal. exact IH. Qed.

Section Submit.
Context `{E : Env}.

Lemma wp_get_client s (Q : outcome (option GenaiClient) -> State E -> Prop) :
  (forall oc b,
     (oc = None <-> client_absent s) ->
     Q (Ok oc) (with_client (match oc with Some c => Some c | None => None end)
                  (with_backend b s))) ->
  wp _get_client s Q.
Proof.
  intros H. unfold wp, _get_client, client_absent.
  destruct (_client s) as [c|] eqn:Hc.
  - assert (Hs : with_client (Some c) (with_backend (backend s) s) = s)
      by (destruct s; simpl in *; rewrite Hc; reflexivity).
    specialize (H (Some c) (backend s)). simpl in H. rewrite Hs in H.
    apply H. split; [discriminate|]. intros [? _]. congruence.
  - destruct (truthy gemini_api_key) eqn:Hk.
    + unfold try_except, bind, call, ret.
      destruct (genai_Client (or_empty gemini_api_key) (backend s)) as [[c|e] b] eqn:Hg; simpl.
      * apply (H (Some c) b). split; [discriminate|].
        intros [_ [?|(e' & b' & ?)]]; congruence.
      * assert (Hs : with_client None (with_backend b s) = with_backend b s)
          by (destruct s; simpl in *; rewrite Hc; reflexivity).
        specialize (H None b). simpl in H. rewrite Hs in H.
        apply H. split; [|reflexivity]. intros _.
        split; [exact Hc|]. right. eauto.
    + assert (Hs : with_client None (with_backend (backend s) s) = s)
        by (destruct s; simpl in *; rewrite Hc; reflexivity).
      specialize (H None (backend s)). simpl in H. rewrite Hs in H.
      apply H. split; [|reflexivity]. intros _. split; [exact Hc|]. now left.
Qed.

Lemma generate_video_spec jid now img mime a (s : State E) :
  wp (generate_video jid now img mime a) s (submit_post jid now img mime a s).
Proof.
  unfold generate_video.
  apply wp_bind. unfold wp at 1, alloc. cbv beta iota. simpl fst. simpl snd.
  apply wp_bind. unfold wp at 1. cbv beta iota. simpl fst. simpl snd.
  apply wp_bind, wp_get_client. intros oc b Habs.
  change (client_absent _) with (client_absent s) in Habs.
  destruct oc as [c|].
  - apply wp_bind. unfold create_task. apply wp_bind, wp_log.
    unfold wp at 1. cbv beta iota. simpl fst. simpl snd. apply wp_ret.
    split; [reflexivity|]. split; [reflexivity|]. right.
    split; [intros Hc; apply Habs in Hc; discriminate|].
    split; [reflexivity|]. split; [reflexivity|]. split; [|reflexivity].
    exists c. reflexivity.
  - apply wp_bind, wp_set_status. apply wp_bind, wp_update_job. apply wp_ret.
    split; [reflexivity|]. split; [reflexivity|]. left.
    split; [now apply Habs|]. split; [reflexivity|].
    split; [|split; reflexivity].
    simpl. now rewrite list_alter_alter_eq, alter_last.
Qed.

End Submit.

(** ** The janitor *)

Section Cleanup.
Context `{E : Env}.

Lemma wp_os_path_exists p (s : State E) (Q : outcome bool -> State E -> Prop) :
  Q (Ok (bool_decide (p ∈ files s))) s -> wp (os_path_exists p) s Q.
Proof. exact id. Qed.

Lemma wp_os_remove p (s : State E) (Q : outcome unit -> State E -> Prop) :
  (p ∈ files s -> Q (Ok tt) (with_files (files s ∖ {[p]}) s)) ->
  (p ∉ files s -> Q (Raise "[Errno 2] No such file or directory") s) ->
  wp (os_remove p) s Q.
Proof. unfold wp, os_remove. destruct (decide (p ∈ files s)); auto. Qed.

Lemma wp_jobs_pop jid l (s : State E) (Q : outcome nat -> State E -> Prop) :
  _jobs s !! jid = Some l ->
  Q (Ok l) (with_jobs (delete jid (_jobs s)) s) -> wp (jobs_pop jid) s Q.
Proof. unfold wp, jobs_pop. intros ->. exact id. Qed.

Lemma expired_ids_spec now max_age (s : State E) (items : list (string * nat)) :
  (forall jid l, (jid, l) ∈ items -> is_Some (heap s !! l)) ->
  exists ids,
    expired_ids items now max_age s = (Ok ids, s) /\
    (forall jid, jid ∈ ids <->
       exists l j, (jid, l) ∈ items /\ heap s !! l = Some j /\
                   now - created_at j > max_age) /\
    (NoDup items.*1 -> NoDup ids).
Proof.
  induction items as [|[jid l] items IH]; intros Hcl.
  - exists []. split; [reflexivity|]. split; [|constructor].
    intros jid. split; [intros H; inversion H|].
    intros (l & j & H & _). inversion H.
  - destruct IH as (ids & Hrun & Hmem & Hnd).
    { intros jid' l' H. apply (Hcl jid' l'). now right. }
    destruct (Hcl jid l) as [j Hj]; [now left|].
    simpl. unfold bind, deref. rewrite Hj, Hrun. unfold ret.
    eexists. split; [reflexivity|]. split.
    + intros jid'. destruct (decide (now - created_at j > max_age)) as [Hold|Hnew].
      * rewrite elem_of_cons, Hmem. split.
        -- intros [->|(l' & j' & Hin & Hj' & Hage)].
           ++ exists l, j. split; [now left|auto].
           ++ exists l', j'. split; [now right|auto].
        -- intros (l' & j' & Hin & Hj' & Hage).
           apply elem_of_cons in Hin as [[= -> ->]|Hin]; [now left|].
           right. eauto.
      * rewrite Hmem. split.
        -- intros (l' & j' & Hin & Hj' & Hage). exists l', j'.
           split; [now right|auto].
        -- intros (l' & j' & Hin & Hj' & Hage).
           apply elem_of_cons in Hin as [[= -> ->]|Hin]; [|eauto].
           rewrite Hj in Hj'. injection Hj' as <-. contradiction.
    + intros Hnd'. simpl in Hnd'. apply NoDup_cons in Hnd' as [Hnotin Hnd'].
      specialize (Hnd Hnd').
      destruct (decide (now - created_at j > max_age)); [|assumption].
      apply NoDup_cons. split; [|assumption].
      intros Hin. apply Hmem in Hin as (l' & j' & Hin & _).
      apply Hnotin. apply list_elem_of_fmap. exists (jid, l'). auto.
Qed.

Lemma wp_remove_expired (ids : list string) :
  forall (s : State E) (Q : outcome unit -> State E -> Prop),
  NoDup ids ->
  (forall jid, jid ∈ ids -> exists l, _jobs s !! jid = Some l /\ is_Some (heap s !! l)) ->
  (forall s',
     heap s' = heap s -> _client s' = _client s -> tasks s' = tasks s ->
     backend s' = backend s -> trace s' = trace s ->
     (forall jid, _jobs s' !! jid = if decide (jid ∈ ids) then None else _jobs s !! jid) ->
     (forall p, p ∈ files s' <->
                p ∈ files s /\ forall jid, jid ∈ ids -> artifact s jid <> Some p) ->
     Q (Ok tt) s') ->
  wp (remove_expired ids) s Q.
Proof.
  induction ids as [|jid ids IH]; intros s Q Hnd Hin HQ.
  - apply wp_ret. apply HQ; auto.
    intros p. split; [intros H; split; [exact H|]|intros [H _]; exact H].
    intros jid H'. inversion H'.
  - apply NoDup_cons in Hnd as [Hnotin Hnd].
    destruct (Hin jid) as (l & Hl & [j Hj]); [now left|].
    simpl. apply wp_bind, (wp_jobs_pop _ l); [exact Hl|].
    apply wp_bind, (wp_deref _ j); [exact Hj|].
    assert (Hart : artifact s jid = if truthy (video_path j) then video_path j else None).
    { unfold artifact, read_job, get_job. now rewrite Hl, Hj. }
    (* the state after the conditional removal of the artifact *)
    set (s1 := with_jobs (delete jid (_jobs s)) s).
    assert (Hstep : forall Q' : outcome unit -> State E -> Prop,
      (forall F, (forall p, p ∈ F <-> p ∈ files s /\ artifact s jid <> Some p) ->
                 Q' (Ok tt) (with_files F s1)) ->
      wp (if truthy (video_path j)
          then bind (os_path_exists (or_empty (video_path j)))
                 (fun ex => if ex
                            then try_except (os_remove (or_empty (video_path j)))
                                   (fun _ => ret tt)
                            else ret tt)
          else ret tt) s1 Q').
    { intros Q' HQ'.
      assert (Heta : with_files (files s) s1 = s1) by (destruct s; reflexivity).
      destruct (truthy (video_path j)) eqn:Ht.
      - destruct (video_path j) as [p|] eqn:Hp; [|discriminate]. simpl or_empty.
        apply wp_bind, wp_os_path_exists.
        destruct (bool_decide (p ∈ files s1)) eqn:Hex.
        + apply bool_decide_eq_true in Hex.
          apply wp_try_except, wp_os_remove; [|contradiction]. intros _.
          apply HQ'. intros p'. rewrite Hart. simpl. set_solver.
        + apply bool_decide_eq_false in Hex. apply wp_ret. rewrite <- Heta.
          apply HQ'. intros p'. rewrite Hart. simpl in *. set_solver.
      - apply wp_ret. rewrite <- Heta. apply HQ'. intros p'. rewrite Hart.
        split; [intros H; split; [exact H|discriminate]|intros [H _]; exact H]. }
    apply wp_bind, Hstep. intros F HF.
    apply IH; [exact Hnd| |].
    + intros jid' Hjid'. destruct (Hin jid') as (l' & Hl' & Hsome); [now right|].
      exists l'. split; [|exact Hsome]. simpl.
      rewrite lookup_delete_ne; [exact Hl'|]. intros ->. contradiction.
    + intros s' Hh Hc Ht Hb Htr Hjobs Hfiles. apply HQ; auto.
      * intros jid'. rewrite Hjobs. simpl.
        destruct (decide (jid' = jid)) as [->|Hne].
        -- rewrite lookup_delete_eq, (decide_True (P := jid ∈ jid :: ids)) by (now left).
           now destruct (decide (jid ∈ ids)).
        -- rewrite lookup_delete_ne by auto.
           destruct (decide (jid' ∈ ids)) as [Hi|Hi].
           ++ rewrite decide_True; [reflexivity|now right].
           ++ rewrite decide_False; [reflexivity|].
              intros H. apply elem_of_cons in H as [?|?]; contradiction.
      * intros p. rewrite Hfiles. simpl. rewrite HF.
        assert (Hsame : forall jid', jid' ∈ ids ->
                  artifact (with_files F s1) jid' = artifact s jid').
        { intros jid' Hi. unfold artifact, read_job, get_job. simpl.
          rewrite lookup_delete_ne; [reflexivity|]. intros ->. contradiction. }
        split.
        -- intros [[Hp Hj'] Hrest]. split; [exact Hp|].
           intros jid' Hi. apply elem_of_cons in Hi as [->|Hi]; [exact Hj'|].
           rewrite <- Hsame by exact Hi. now apply Hrest.
        -- intros [Hp Hall]. split; [split; [exact Hp|apply Hall; now left]|].
           intros jid' Hi. rewrite Hsame by exact Hi. apply Hall. now right.
Qed.

Lemma cleanup_old_jobs_spec now max_age (s : State E) :
  store_closed s ->
  wp (cleanup_old_jobs now max_age) s (sweep_post now max_age s).
Proof.
  intros Hcl.
  destruct (expired_ids_spec now max_age s (map_to_list (_jobs s)))
    as (ids & Hrun & Hmem & Hnd).
  { intros jid l H. apply elem_of_map_to_list in H. eauto. }
  assert (Hexp : forall jid, jid ∈ ids <-> is_expired now max_age s jid).
  { intros jid. rewrite Hmem. unfold is_expired, read_job, get_job. split.
    - intros (l & j & Hin & Hj & Hage). apply elem_of_map_to_list in Hin.
      exists j. now rewrite Hin.
    - intros (j & Hr & Hage). destruct (_jobs s !! jid) as [l|] eqn:Hl; [|discriminate].
      exists l, j. split; [now apply elem_of_map_to_list|auto]. }
  change (wp (bind (expired_ids (map_to_list (_jobs s)) now max_age) remove_expired)
            s (sweep_post now max_age s)).
  apply wp_bind. unfold wp at 1. rewrite Hrun. simpl fst. simpl snd. cbv beta iota.
  apply wp_remove_expired.
  - apply Hnd, NoDup_fst_map_to_list.
  - intros jid Hin. apply Hexp in Hin as (j & Hr & _).
    unfold read_job, get_job in Hr.
    destruct (_jobs s !! jid) as [l|] eqn:Hl; [|discriminate]. eauto.
  - intros s' Hh Hc Ht Hb Htr Hjobs Hfiles.
    split; [reflexivity|]. do 5 (split; [assumption|]). split.
    + intros jid. rewrite Hjobs. split; intros H.
      * rewrite decide_True; [reflexivity|now apply Hexp].
      * rewrite decide_False; [reflexivity|]. now rewrite Hexp.
    + intros p. rewrite Hfiles. split; intros [Hp Hall]; (split; [exact Hp|]);
        intros jid Hj; apply Hall; now apply Hexp.
Qed.

End Cleanup.

(** ** The service as a transition system *)

Lemma nodup_middle (A B : list nat) (x : nat) :
  NoDup (A ++ x :: B) ->
  NoDup (A ++ B) /\ (x ∉ A ++ B) /\
  (forall l, l <> x -> (l ∈ A ++ B <-> l ∈ A ++ x :: B)).
Proof.
  intros Hnd.
  apply NoDup_app in Hnd as (HA & HAB & HB).
  apply NoDup_cons in HB as (HtB & HB).
  split; [|split].
  - apply NoDup_app. split; [exact HA|]. split; [|exact HB].
    intros y Hy Hy'. apply (HAB y Hy). now right.
  - rewrite elem_of_app. intros [H|H]; [|contradiction].
    apply (HAB _ H). now left.
  - intros l Hl. rewrite !elem_of_app, elem_of_cons. tauto.
Qed.

Lemma pending_delete (xs : list Task) (i : nat) (t : Task) :
  NoDup (t_job <$> xs) -> xs !! i = Some t ->
  NoDup (t_job <$> delete i xs) /\
  (t_job t ∉ (t_job <$> delete i xs)) /\
  (forall l, l <> t_job t ->
     (l ∈ (t_job <$> delete i xs) <-> l ∈ (t_job <$> xs))).
Proof.
  intros Hnd Hi. rewrite delete_take_drop, fmap_app.
  assert (Hxs : t_job <$> xs
                = (t_job <$> take i xs) ++ t_job t :: (t_job <$> drop (S i) xs)).
  { rewrite <- fmap_cons, <- fmap_app. now rewrite take_drop_middle. }
  rewrite Hxs in *. now apply nodup_middle.
Qed.

Section Invariant.
Context `{E : Env}.

Lemma job_ok_frame (s s' : State E) l j :
  status_writes l (trace s') = status_writes l (trace s) ->
  (l ∈ pending s' <-> l ∈ pending s) ->
  job_ok s l j -> job_ok s' l j.
Proof.
  intros Hw Hp [Hu H]. split; [exact Hu|].
  destruct (status j); rewrite Hw, Hp; exact H.
Qed.

Lemma Inv_initial (s : State E) : initial s -> Inv s.
Proof.
  intros (Hh & Hj & _ & Ht & Htr). constructor.
  - intros jid l. rewrite Hj, lookup_empty. discriminate.
  - intros t. rewrite Ht. intros H. inversion H.
  - unfold pending. rewrite Ht. constructor.
  - intros l j. rewrite Hh. discriminate.
  - intros l _. now rewrite Htr.
Qed.

Lemma Inv_store_closed (s : State E) : Inv s -> store_closed s.
Proof.
  intros HI jid l H. destruct (inv_store s HI jid l H) as (j & Hj & _). eauto.
Qed.

Lemma Inv_pending_lt (s : State E) l :
  Inv s -> l ∈ pending s -> (l < length (heap s))%nat.
Proof.
  intros HI Hl. apply list_elem_of_fmap in Hl as (t & -> & Ht).
  destruct (inv_pending s HI t Ht) as (j & Hj & _).
  eapply lookup_lt_Some, Hj.
Qed.

Lemma Inv_files (s : State E) F : Inv s -> Inv (with_files F s).
Proof.
  intros [H1 H2 H3 H4 H5]. constructor; auto.
Qed.

Lemma Inv_sweep (s : State E) now max_age :
  Inv s -> Inv (snd (cleanup_old_jobs now max_age s)).
Proof.
  intros HI.
  destruct (cleanup_old_jobs_spec now max_age s (Inv_store_closed s HI))
    as (_ & Hh & _ & Ht & _ & Htr & Hjobs & _).
  set (s' := snd (cleanup_old_jobs now max_age s)) in *.
  destruct HI as [H1 H2 H3 H4 H5].
  assert (Hsub : forall jid l, _jobs s' !! jid = Some l -> _jobs s !! jid = Some l).
  { intros jid l Hl. destruct (Hjobs jid) as [Hexp Hkeep].
    destruct (_jobs s !! jid) as [l0|] eqn:Hl0.
    - destruct (heap s !! l0) as [j0|] eqn:Hj0.
      + destruct (decide (now - created_at j0 > max_age)) as [Hold|Hnew].
        * rewrite Hexp in Hl; [discriminate|].
          exists j0. unfold read_job, get_job. rewrite Hl0, Hj0. auto.
        * rewrite Hkeep in Hl; [exact Hl|].
          intros (j1 & Hr & Hage). unfold read_job, get_job in Hr.
          rewrite Hl0, Hj0 in Hr. injection Hr as <-. contradiction.
      + rewrite Hkeep in Hl; [exact Hl|].
        intros (j1 & Hr & _). unfold read_job, get_job in Hr.
        rewrite Hl0, Hj0 in Hr. discriminate.
    - rewrite Hkeep in Hl; [exact Hl|].
      intros (j1 & Hr & _). unfold read_job, get_job in Hr.
      rewrite Hl0 in Hr. discriminate. }
  constructor.
  - intros jid l Hl. rewrite Hh. apply H1, Hsub, Hl.
  - intros t. rewrite Ht, Hh. apply H2.
  - unfold pending. rewrite Ht. exact H3.
  - intros l j. rewrite Hh. intros Hj.
    apply (job_ok_frame s); [now rewrite Htr|unfold pending; now rewrite Ht|auto].
  - intros l. rewrite Hh, Htr. apply H5.
Qed.

End Invariant.

Section Preservation.
Context `{E : Env}.

Lemma Inv_submit (s : State E) jid now img mime a :
  is_uuid4_str jid = true -> Inv s ->
  Inv (snd (generate_video jid now img mime a s)).
Proof.
  intros Hu HI.
  destruct (generate_video_spec jid now img mime a s) as (Hjobs & _ & Hcase).
  set (s' := snd (generate_video jid now img mime a s)) in *.
  set (l := length (heap s)) in *.
  assert (Hstore : forall jn, heap s' = heap s ++ [jn] -> job_id jn = jid ->
            forall jid' l0, _jobs s' !! jid' = Some l0 ->
              exists j, heap s' !! l0 = Some j /\ job_id j = jid').
  { intros jn Hh Hid jid' l0. rewrite Hjobs, Hh.
    destruct (decide (jid = jid')) as [<-|Hne].
    - rewrite lookup_insert_eq. intros [= <-]. exists jn.
      split; [now apply list_lookup_middle|exact Hid].
    - rewrite lookup_insert_ne by exact Hne. intros Hl0.
      destruct (inv_store s HI _ _ Hl0) as (j & Hj & Hjid).
      exists j. split; [now apply lookup_app_l_Some|exact Hjid]. }
  assert (Hfresh : forall e, trace s' = trace s ++ [e] ->
            (forall l0, l0 <> l -> status_writes l0 [e] = []) ->
            forall jn, heap s' = heap s ++ [jn] ->
            forall l0, (length (heap s') <= l0)%nat -> status_writes l0 (trace s') = []).
  { intros e Htr He jn Hh l0. rewrite Hh, length_app. simpl. intros Hge.
    rewrite Htr, status_writes_app, (inv_fresh s HI) by lia.
    apply He. unfold l. lia. }
  destruct Hcase as [(_ & _ & Hh & Ht & Htr)|(_ & _ & Hh & (c & Ht) & Htr)].
  - constructor.
    + now apply (Hstore _ Hh).
    + intros t. rewrite Ht. intros Hin.
      destruct (inv_pending s HI t Hin) as (j & Hj & Hs).
      exists j. rewrite Hh. split; [now apply lookup_app_l_Some|exact Hs].
    + unfold pending. rewrite Ht. apply (inv_nodup s HI).
    + intros l0 j0. rewrite Hh. intros Hl0.
      apply lookup_snoc_Some in Hl0 as [[Hlt Hl0]|[-> <-]].
      * apply (job_ok_frame s).
        -- rewrite Htr, status_writes_app, status_writes_one_ne, app_nil_r; [reflexivity|].
           unfold l. lia.
        -- unfold pending. now rewrite Ht.
        -- now apply (inv_job s HI).
      * split; [exact Hu|]. simpl. split; [reflexivity|]. split; [now left|]. split.
        -- fold l. rewrite Htr, status_writes_app, (inv_fresh s HI) by (unfold l; lia).
           now rewrite status_writes_one_eq.
        -- unfold pending. rewrite Ht. intros Hin.
           apply (Inv_pending_lt s _ HI) in Hin. lia.
    + refine (Hfresh _ Htr _ _ Hh).
      intros l0 Hl0. now apply status_writes_one_ne.
  - constructor.
    + now apply (Hstore _ Hh).
    + intros t. rewrite Ht. intros Hin. apply elem_of_app in Hin as [Hin|Hin].
      * destruct (inv_pending s HI t Hin) as (j & Hj & Hs).
        exists j. rewrite Hh. split; [now apply lookup_app_l_Some|exact Hs].
      * apply list_elem_of_singleton in Hin as ->. simpl.
        exists (new_VeoJob jid a now). rewrite Hh.
        split; [now apply list_lookup_middle|reflexivity].
    + unfold pending. rewrite Ht, fmap_app. simpl. apply NoDup_app.
      split; [apply (inv_nodup s HI)|]. split; [|apply NoDup_singleton].
      intros x Hx Hx'. apply list_elem_of_singleton in Hx' as ->.
      apply (Inv_pending_lt s _ HI) in Hx. unfold l in Hx. lia.
    + intros l0 j0. rewrite Hh. intros Hl0.
      apply lookup_snoc_Some in Hl0 as [[Hlt Hl0]|[-> <-]].
      * apply (job_ok_frame s).
        -- rewrite Htr, status_writes_app. simpl. now rewrite app_nil_r.
        -- unfold pending. rewrite Ht, fmap_app, elem_of_app. simpl.
           rewrite list_elem_of_singleton. unfold l. split; [|tauto].
           intros [H|H]; [exact H|lia].
        -- now apply (inv_job s HI).
      * split; [exact Hu|]. simpl. split; [reflexivity|]. split; [reflexivity|]. split.
        -- fold l. rewrite Htr, status_writes_app, (inv_fresh s HI) by (unfold l; lia).
           reflexivity.
        -- unfold pending. rewrite Ht, fmap_app, elem_of_app. right. simpl.
           apply list_elem_of_singleton. reflexivity.
    + refine (Hfresh _ Htr _ _ Hh). reflexivity.
Qed.

Lemma Inv_task (s : State E) i t :
  tasks s !! i = Some t -> Inv s ->
  Inv (snd (_run_veo_job t (with_tasks (delete i (tasks s)) s))).
Proof.
  intros Hi HI.
  assert (Hin : t ∈ tasks s) by (apply list_elem_of_lookup; eauto).
  destruct (inv_pending s HI t Hin) as (j & Hj & Hgen).
  destruct (inv_job s HI _ _ Hj) as (Hu & Hok). rewrite Hgen in Hok.
  destruct Hok as (Hurl & Hpath & Hw & _).
  destruct (pending_delete _ _ _ (inv_nodup s HI) Hi) as (Hnd & Hnot & Hmem).
  destruct (run_veo_job_spec t (with_tasks (delete i (tasks s)) s) j Hj)
    as (_ & evs & j' & Hfr & Hh & Hfin & Hwl & Hwo).
  set (s' := snd (_run_veo_job t (with_tasks (delete i (tasks s)) s))) in *.
  destruct Hfr as [Hjobs _ Ht Htr _ _ _ _]. simpl in Hjobs, Ht, Htr, Hh, Hfin.
  set (l := t_job t) in *.
  assert (Hlt : (l < length (heap s))%nat) by (eapply lookup_lt_Some, Hj).
  assert (Hid : job_id j' = job_id j) by (destruct Hfin; reflexivity).
  assert (Hl : heap s' !! l = Some j').
  { rewrite Hh. now apply list_lookup_insert_eq. }
  assert (Hother : forall l0, l0 <> l -> heap s' !! l0 = heap s !! l0).
  { intros l0 Hne. rewrite Hh. now apply list_lookup_insert_ne. }
  assert (Hterm : status j' <> generating) by (destruct Hfin; discriminate).
  constructor.
  - intros jid l0. rewrite Hjobs. intros Hl0.
    destruct (inv_store s HI _ _ Hl0) as (j0 & Hj0 & Hjid).
    destruct (decide (l0 = l)) as [->|Hne].
    + exists j'. split; [exact Hl|]. rewrite Hid. congruence.
    + exists j0. now rewrite Hother.
  - intros t'. rewrite Ht. intros Hin'.
    assert (Hne : t_job t' <> l).
    { intros Heq. apply Hnot. rewrite <- Heq. apply list_elem_of_fmap. eauto. }
    rewrite Hother by exact Hne. apply (inv_pending s HI).
    eapply elem_of_sublist; [exact Hin'|apply sublist_delete].
  - unfold pending. rewrite Ht. exact Hnd.
  - intros l0 j0 Hl0. destruct (decide (l0 = l)) as [->|Hne].
    + rewrite Hl in Hl0. injection Hl0 as <-.
      assert (Hw' : status_writes l (trace s') = [status j']).
      { now rewrite Htr, status_writes_app, Hw, Hwl. }
      assert (Hnp : l ∉ pending s') by (unfold pending; now rewrite Ht).
      split; [now rewrite Hid|].
      destruct Hfin; simpl in *; rewrite ?Hpath; auto 10.
    + rewrite Hother in Hl0 by exact Hne. apply (job_ok_frame s).
      * now rewrite Htr, status_writes_app, (Hwo _ Hne), app_nil_r.
      * unfold pending. rewrite Ht. now apply Hmem.
      * now apply (inv_job s HI).
  - intros l0. rewrite Hh, length_insert. intros Hge.
    rewrite Htr, status_writes_app, (inv_fresh s HI) by exact Hge.
    apply Hwo. lia.
Qed.

Lemma Inv_step (s s' : State E) : Inv s -> step s s' -> Inv s'.
Proof.
  intros HI Hstep. destruct Hstep.
  - now apply Inv_submit.
  - now apply Inv_task.
  - now apply Inv_sweep.
  - now apply Inv_files.
Qed.

Lemma reachable_Inv (s : State E) : reachable s -> Inv s.
Proof.
  induction 1 as [s Hinit|s s' _ IH Hstep].
  - now apply Inv_initial.
  - now apply (Inv_step s).
Qed.

End Preservation.

(** ** Runs with a known course *)

Section Courses.
Context `{E : Env}.

Lemma poll_stays_pending n : forall op (s : State E),
  stays_pending n op (backend s) ->
  exists op' b' ops,
    poll n op s = (Ok op', ext s b' (wait_events ops)) /\
    length ops = n /\ done op' = false.
Proof.
  induction n as [|n IH]; intros op s H;
    inversion H as [? ? Hd|? ? ? op1 b1 Hd Hget Hrest]; subst.
  - exists op, (backend s), []. simpl. unfold ret. now rewrite ext_id.
  - simpl. rewrite Hd. unfold bind, sleep, log, call. simpl. rewrite Hget.
    match goal with |- context [poll n op1 ?s1] =>
      destruct (IH op1 s1 Hrest) as (op' & b' & ops & Hp & Hlen & Hd') end.
    exists op', b', (op :: ops). rewrite Hp. split; [|split].
    + f_equal. unfold ext, with_trace, with_backend. simpl.
      now rewrite <- !app_assoc.
    + simpl. now rewrite Hlen.
    + exact Hd'.
Qed.

Lemma last_of_None (es : list string) : last_of es None = last es.
Proof. unfold last_of. now destruct (last es). Qed.

(** All candidates raise and the last message mentions billing. *)
Lemma run_billing (t : Task) (s : State E) j b0 es b1 :
  heap s !! t_job t = Some j ->
  genai_import (backend s) = (Ok tt, b0) ->
  all_raise (prompt_of (t_analytics t)) (image_of t) veo_models b0 es b1 ->
  contains "billing enabled" (lower (or_empty (last es))) = true ->
  _run_veo_job t s
  = (Ok tt,
     with_heap (<[t_job t := billing_job j]> (heap s))
       (ext s b1 ((EvStart <$> veo_models) ++ [EvStatus (t_job t) ready]))).
Proof.
  intros Hj Hi Hall Hbill.
  unfold _run_veo_job, try_except, _run_veo_sync.
  unfold bind at 1. unfold call at 1. rewrite Hi.
  unfold bind at 1.
  change (match veo_prompt (t_analytics t) with
          | "" => default_prompt | String a0 s0 => String a0 s0 end)
    with (prompt_of (t_analytics t)).
  change {| image_bytes := t_image_bytes t; mime_type := t_mime_type t |}
    with (image_of t).
  rewrite (start_first_exhausted _ _ _ _ _ (with_backend b0 s) None None Hall).
  rewrite last_of_None, Hbill.
  unfold veo_models at 1. cbv beta iota.
  unfold bind, update_job, set_status, log, ret, bind. simpl.
  rewrite !list_alter_alter_eq, (alter_at _ _ _ _ Hj).
  f_equal. unfold ext, with_heap, with_trace, with_backend. simpl.
  now rewrite <- app_assoc.
Qed.

Lemma state_eq (s1 s2 : State E) :
  heap s1 = heap s2 -> _jobs s1 = _jobs s2 -> _client s1 = _client s2 ->
  tasks s1 = tasks s2 -> files s1 = files s2 -> backend s1 = backend s2 ->
  trace s1 = trace s2 -> s1 = s2.
Proof. destruct s1, s2. simpl. now intros -> -> -> -> -> -> ->. Qed.

Lemma wp_start_first_found prompt image models pre m post es b1 op b2
    (s : State E) Q :
  models = pre ++ m :: post ->
  all_raise prompt image pre (backend s) es b1 ->
  generate_videos m prompt image b1 = (Ok op, b2) ->
  Q (Ok (last es, Some (Some op))) (ext s b2 (EvStart <$> pre ++ [m])) ->
  wp (start_first models prompt image None None) s Q.
Proof.
  intros -> Hall Hm HQ. unfold wp.
  rewrite (start_first_found _ _ _ _ _ _ _ _ _ s None None Hall Hm), last_of_None.
  exact HQ.
Qed.

Lemma wp_poll_pending n op (s : State E) Q :
  stays_pending n op (backend s) ->
  (forall op' b' ops, length ops = n -> done op' = false ->
     Q (Ok op') (ext s b' (wait_events ops))) ->
  wp (poll n op) s Q.
Proof.
  intros Hpend HQ. unfold wp.
  destruct (poll_stays_pending n op s Hpend) as (op' & b' & ops & -> & Hlen & Hd).
  now apply HQ.
Qed.

Lemma wp_run (A : Type) (m : M E A) (s : State E) (a : A) (P : State E -> Prop) :
  wp m s (fun r s' => r = Ok a /\ P s') ->
  exists s', m s = (Ok a, s') /\ P s'.
Proof.
  unfold wp. destruct (m s) as [r s']. simpl. intros [-> HP]. eauto.
Qed.

(** A candidate returns a handle that never reports done. *)
Lemma run_timeout (t : Task) (s : State E) j b0 pre m post es b1 op b2 :
  heap s !! t_job t = Some j ->
  genai_import (backend s) = (Ok tt, b0) ->
  veo_models = pre ++ m :: post ->
  all_raise (prompt_of (t_analytics t)) (image_of t) pre b0 es b1 ->
  generate_videos m (prompt_of (t_analytics t)) (image_of t) b1 = (Ok op, b2) ->
  stays_pending max_polls op b2 ->
  exists b3 ops,
    length ops = max_polls /\
    _run_veo_job t s
    = (Ok tt,
       with_heap (<[t_job t := failed_job "Veo operation timed out" j]> (heap s))
         (ext s b3 ((EvStart <$> pre ++ [m]) ++ wait_events ops
                    ++ [EvStatus (t_job t) error]))).
Proof.
  intros Hj Hi Hms Hall Hm Hpend.
  cut (exists s', _run_veo_job t s = (Ok tt, s') /\
         exists b3 ops, length ops = max_polls /\
           s' = with_heap (<[t_job t := failed_job "Veo operation timed out" j]> (heap s))
                  (ext s b3 ((EvStart <$> pre ++ [m]) ++ wait_events ops
                             ++ [EvStatus (t_job t) error]))).
  { intros (s' & Hrun & b3 & ops & Hlen & ->). eauto. }
  apply wp_run. unfold _run_veo_job. apply wp_try_except.
  unfold _run_veo_sync. apply wp_bind, wp_call. intros r b Hr.
  rewrite Hi in Hr. injection Hr as <- <-.
  apply wp_bind.
  apply (wp_start_first_found (prompt_of (t_analytics t)) (image_of t)
           veo_models pre m post es b1 op b2 (with_backend b0 s) _ Hms Hall Hm).
  apply wp_bind, wp_poll_pending; [exact Hpend|].
  intros op' b3 ops Hlen Hd. rewrite Hd. apply wp_raise.
  apply wp_bind, wp_set_status. do 2 wp_step. apply wp_update_job.
  split; [reflexivity|]. exists b3, ops. split; [exact Hlen|].
  apply state_eq; simpl; try reflexivity.
  - now rewrite !list_alter_alter_eq, (alter_at _ _ _ _ Hj).
  - now rewrite <- !app_assoc.
Qed.

End Courses.

Section Exhausted.
Context `{E : Env}.

(** All candidates raise and the last message does not mention billing. *)
Lemma run_exhausted (t : Task) (s : State E) j b0 es b1 :
  heap s !! t_job t = Some j ->
  genai_import (backend s) = (Ok tt, b0) ->
  all_raise (prompt_of (t_analytics t)) (image_of t) veo_models b0 es b1 ->
  contains "billing enabled" (lower (or_empty (last es))) = false ->
  _run_veo_job t s
  = (Ok tt,
     with_heap (<[t_job t :=
                  failed_job ("No Veo model available or all failed. Last error: "
                              +:+ fmt_opt (last es)) j]> (heap s))
       (ext s b1 ((EvStart <$> veo_models) ++ [EvStatus (t_job t) error]))).
Proof.
  intros Hj Hi Hall Hbill.
  unfold _run_veo_job, try_except, _run_veo_sync.
  unfold bind at 1. unfold call at 1. rewrite Hi.
  unfold bind at 1.
  change (match veo_prompt (t_analytics t) with
          | "" => default_prompt | String a0 s0 => String a0 s0 end)
    with (prompt_of (t_analytics t)).
  change {| image_bytes := t_image_bytes t; mime_type := t_mime_type t |}
    with (image_of t).
  rewrite (start_first_exhausted _ _ _ _ _ (with_backend b0 s) None None Hall).
  rewrite last_of_None, Hbill.
  unfold veo_models at 1. cbv beta iota.
  unfold raise, bind, update_job, set_status, log, ret, bind. simpl.
  rewrite !list_alter_alter_eq, (alter_at _ _ _ _ Hj).
  f_equal. unfold ext, with_heap, with_trace, with_backend. simpl.
  now rewrite <- app_assoc.
Qed.

End Exhausted.

(** ** Scenario states and stored records *)

Lemma reachable_submitted (E : Env) (b : remote) : reachable (submitted E b).
Proof.
  apply (reachable_step (fresh_state b ∅)).
  - apply reachable_init. repeat split.
  - apply step_submit. reflexivity.
Qed.

Lemma reachable_settled (E : Env) (b : remote) : reachable (settled E b).
Proof.
  unfold settled. destruct (tasks (submitted E b)) as [|t ts] eqn:Ht.
  - apply reachable_submitted.
  - apply (reachable_step (submitted E b)); [apply reachable_submitted|].
    rewrite <- Ht. apply (step_task _ 0%nat t). now rewrite Ht.
Qed.

Lemma Inv_path `{E : Env} (s : State E) (l : nat) (j : VeoJob) (p : string) :
  Inv s -> heap s !! l = Some j -> video_path j = Some p ->
  status j = ready /\ p = video_file_path (job_id j) /\
  is_uuid4_str (job_id j) = true.
Proof.
  intros HI Hj Hp. destruct (inv_job s HI l j Hj) as (Hu & Hok).
  destruct (status j).
  - destruct Hok as (_ & Hnone & _). congruence.
  - destruct Hok as (_ & [Hnone|Hsome] & _); [congruence|].
    rewrite Hsome in Hp. injection Hp as <-. auto.
  - destruct Hok as (_ & Hnone & _). congruence.
Qed.

Lemma read_job_Some `{E : Env} (s : State E) (jid : string) (j : VeoJob) :
  read_job jid s = Some j <->
  exists l, _jobs s !! jid = Some l /\ heap s !! l = Some j.
Proof.
  unfold read_job, get_job. destruct (_jobs s !! jid) as [l|].
  - split; [eauto|]. now intros (l' & [= <-] & H).
  - split; [discriminate|]. now intros (l' & [=] & _).
Qed.

(** ** The process with its threads *)

Section ThreadProperties.
Context `{E : Env}.

Lemma untouched_after_poll (op : Operation) (j : VeoJob) :
  untouched j -> shape_at (after_poll op) j.
Proof. intros H. unfold after_poll. repeat case_match; exact H. Qed.

Lemma untouched_at_poll (n : nat) (op : Operation) (j : VeoJob) :
  untouched j -> shape_at (at_poll n op) j.
Proof.
  intros H. unfold at_poll. repeat case_match; try exact H;
    now apply untouched_after_poll.
Qed.

Lemma untouched_after_start (le : option string) (op : option (option Operation))
    (j : VeoJob) :
  untouched j -> shape_at (after_start le op) j.
Proof.
  intros H. unfold after_start. repeat case_match; try exact H.
  now apply untouched_at_poll.
Qed.

Lemma untouched_at_start (ms : list string) (le : option string)
    (op : option (option Operation)) (j : VeoJob) :
  untouched j -> shape_at (at_start ms le op) j.
Proof.
  intros H. destruct ms; [now apply untouched_after_start|exact H].
Qed.

Lemma thread_step_keep (t : Task) (j : VeoJob) (s s' : State E) (p' : point) :
  heap s !! t_job t = Some j ->
  heap s' = heap s -> _jobs s' = _jobs s -> tasks s' = tasks s ->
  shape_at p' j ->
  thread_step_post t j s (p', s').
Proof.
  intros Hj Hh Hjobs Ht Hs. exists j. simpl.
  rewrite Hh, list_insert_id by exact Hj. auto.
Qed.

Lemma thread_step_write (t : Task) (j : VeoJob) (s s' : State E) (p' : point)
    (f : VeoJob -> VeoJob) :
  heap s !! t_job t = Some j ->
  heap s' = alter f (t_job t) (heap s) -> _jobs s' = _jobs s -> tasks s' = tasks s ->
  shape_at p' (f j) -> job_id (f j) = job_id j ->
  thread_step_post t j s (p', s').
Proof.
  intros Hj Hh Hjobs Ht Hs Hid. exists (f j). simpl.
  rewrite Hh, (alter_at _ _ _ _ Hj). auto.
Qed.

Lemma thread_step_spec (t : Task) (p : point) (s : State E) (j : VeoJob) :
  heap s !! t_job t = Some j -> shape_at p j ->
  thread_step_post t j s (thread_step t p s).
Proof.
  intros Hj Hs.
  destruct p as [|m rest le| | | |n op|n op|v|v|jid|jid| | |exc];
    unfold thread_step, goto.
  - unfold call. destruct (genai_import (backend s)) as [[[]|e] b];
      apply (thread_step_keep t j s); auto using untouched_at_start.
  - unfold try_except, bind, log, call, ret. cbn [backend with_trace].
    destruct (generate_videos m _ _ (backend s)) as [[op|e] b];
      apply (thread_step_keep t j s); auto using untouched_after_start, untouched_at_start.
  - apply (thread_step_write t j s _ _ (with_video_url (Some MOCK_VIDEO_URL))); auto.
    destruct Hs as (? & ? & ? & ? & ?). repeat split; auto.
  - unfold set_status, bind, update_job, log.
    apply (thread_step_write t j s _ _ (with_status ready)); auto.
    destruct Hs as (? & ? & ? & ? & ?). repeat split; auto.
  - apply (thread_step_write t j s _ _ (with_notes (Some billing_note))); auto.
    destruct Hs as (? & ? & ? & ? & ?). repeat split; auto.
  - apply (thread_step_keep t j s); auto.
  - unfold bind, log, call. cbn [backend with_trace].
    destruct (operations_get op (backend s)) as [[op'|e] b];
      apply (thread_step_keep t j s); auto using untouched_at_poll.
  - unfold bind, log, call. cbn [backend with_trace].
    destruct (files_download v (backend s)) as [[[]|e] b];
      apply (thread_step_keep t j s); auto.
  - unfold bind at 1. unfold deref. rewrite Hj.
    unfold save, bind, log, call, ret. cbn [backend with_trace].
    destruct (video_save v _ (backend s)) as [[[]|e] b];
      apply (thread_step_keep t j s); auto.
    split; [reflexivity|exact Hs].
  - destruct Hs as (-> & Hs).
    apply (thread_step_write t j s _ _
             (with_video_path (Some (video_file_path (job_id j))))); auto.
    destruct Hs as (? & ? & ? & ? & ?). repeat split; auto.
  - destruct Hs as (-> & Hs).
    apply (thread_step_write t j s _ _
             (with_video_url (Some ("/api/field-vision/video/" +:+ job_id j)))); auto.
    destruct Hs as (? & ? & ? & ? & ?). repeat split; auto.
  - unfold set_status, bind, update_job, log.
    apply (thread_step_write t j s _ _ (with_status ready)); auto.
    destruct Hs as (? & ? & ? & ? & ?). split; [reflexivity|]. split; [assumption|].
    right. auto.
  - apply (thread_step_keep t j s); auto.
  - apply (thread_step_keep t j s); auto.
Qed.

End ThreadProperties.

Section ThreadInvariant.
Context `{E : Env}.

Lemma running_insert (thr : list (Task * point)) (i : nat) (t : Task) (p p' : point) :
  thr !! i = Some (t, p) -> running (<[i := (t, p')]> thr) = running thr.
Proof.
  intros Hi. unfold running. rewrite list_fmap_insert. apply list_insert_id.
  rewrite list_lookup_fmap, Hi. reflexivity.
Qed.

Lemma running_delete (thr : list (Task * point)) (i : nat) (t : Task) (p : point) :
  thr !! i = Some (t, p) -> running thr ≡ₚ t_job t :: running (delete i thr).
Proof.
  intros Hi. unfold running.
  rewrite (delete_Permutation thr i (t, p) Hi) at 1. reflexivity.
Qed.

Lemma pending_delete_perm (s : State E) (i : nat) (t : Task) :
  tasks s !! i = Some t ->
  pending s ≡ₚ t_job t :: pending (with_tasks (delete i (tasks s)) s).
Proof.
  intros Hi. unfold pending. simpl.
  rewrite (delete_Permutation (tasks s) i t Hi) at 1. reflexivity.
Qed.

Lemma elem_of_running (thr : list (Task * point)) (t : Task) (p : point) :
  (t, p) ∈ thr -> t_job t ∈ running thr.
Proof.
  intros H. unfold running. apply list_elem_of_fmap. exists (t, p). auto.
Qed.

Lemma elem_of_pending (s : State E) (t : Task) : t ∈ tasks s -> t_job t ∈ pending s.
Proof. intros H. unfold pending. apply list_elem_of_fmap. eauto. Qed.

Lemma on_error_spec (t : Task) (exc : string) (s : State E) (j : VeoJob) :
  heap s !! t_job t = Some j ->
  heap (snd (on_error t exc s)) = <[t_job t := failed_job exc j]> (heap s) /\
  _jobs (snd (on_error t exc s)) = _jobs s /\
  tasks (snd (on_error t exc s)) = tasks s /\
  files (snd (on_error t exc s)) = files s.
Proof.
  intros Hj. unfold on_error, set_status, bind, update_job, log. simpl.
  repeat split.
  rewrite !list_alter_alter_eq, (alter_at _ _ _ _ Hj). reflexivity.
Qed.

Lemma TInv_init (s : State E) : initial s -> TInv s [].
Proof.
  intros (Hh & Hj & _ & Ht & _). split.
  - intros jid l H. rewrite Hj in H. discriminate.
  - unfold pending. rewrite Ht. constructor.
  - intros t H. rewrite Ht in H. inversion H.
  - intros t p H. inversion H.
  - intros l j H. rewrite Hh in H. discriminate.
Qed.

Lemma TInv_owner_lt (s : State E) (thr : list (Task * point)) (l : nat) :
  TInv s thr -> l ∈ pending s ++ running thr -> (l < length (heap s))%nat.
Proof.
  intros HI Hin. apply elem_of_app in Hin as [Hin|Hin].
  - apply list_elem_of_fmap in Hin as (t & -> & Ht).
    destruct (tinv_task s thr HI t Ht) as (j & Hj & _). eapply lookup_lt_Some, Hj.
  - apply list_elem_of_fmap in Hin as ([t p] & -> & Ht).
    destruct (tinv_thread s thr HI t p Ht) as (j & Hj & _). eapply lookup_lt_Some, Hj.
Qed.

Lemma TInv_files (s : State E) (thr : list (Task * point)) (F : gset string) :
  TInv s thr -> TInv (with_files F s) thr.
Proof. intros [H1 H2 H3 H4 H5]. split; assumption. Qed.

Lemma TInv_submit (s : State E) (thr : list (Task * point)) jid now img mime a :
  TInv s thr -> is_uuid4_str jid = true ->
  TInv (snd (generate_video jid now img mime a s)) thr.
Proof.
  intros HI Hu.
  pose proof (generate_video_spec jid now img mime a s) as Hspec.
  unfold wp, submit_post in Hspec. cbv zeta in Hspec.
  set (s' := snd (generate_video jid now img mime a s)) in *.
  destruct Hspec as (Hjobs & _ & Hcase).
  assert (Hfresh : length (heap s) ∉ pending s ++ running thr).
  { intros Hin. apply (TInv_owner_lt s thr _ HI) in Hin. lia. }
  assert (Hshape : exists jn, heap s' = heap s ++ [jn] /\ job_id jn = jid /\
            (tasks s' = tasks s /\ settled_shape jn \/
             untouched jn /\ exists t, tasks s' = tasks s ++ [t] /\
                                       t_job t = length (heap s))).
  { destruct Hcase as [(_ & _ & Hh & Ht & _)|(_ & _ & Hh & (c & Ht) & _)].
    - eexists. split; [exact Hh|]. split; [reflexivity|]. left.
      split; [exact Ht|]. unfold settled_shape. simpl. auto.
    - eexists. split; [exact Hh|]. split; [reflexivity|]. right.
      split; [repeat split|]. eexists. split; [exact Ht|reflexivity]. }
  destruct Hshape as (jn & Hh & Hid & Htasks).
  assert (Hold : forall l j, heap s !! l = Some j -> heap s' !! l = Some j).
  { intros l j Hl. rewrite Hh. now apply lookup_app_l_Some. }
  assert (Hnew : heap s' !! length (heap s) = Some jn).
  { rewrite Hh. apply list_lookup_middle. reflexivity. }
  assert (Hpend : forall l, l ∈ pending s -> l ∈ pending s').
  { intros l. unfold pending.
    destruct Htasks as [(-> & _)|(_ & t & -> & _)]; [auto|].
    rewrite fmap_app. set_solver. }
  split.
  - intros jid' l. rewrite Hjobs. intros Hl.
    apply lookup_insert_Some in Hl as [(<- & <-)|(_ & Hl)].
    + eauto.
    + destruct (tinv_store s thr HI jid' l Hl) as (j & Hj & Hjid). eauto.
  - destruct Htasks as [(Ht & _)|(_ & t & Ht & Hl)]; unfold pending; rewrite Ht.
    + apply (tinv_nodup s thr HI).
    + rewrite fmap_app. simpl. rewrite Hl.
      rewrite <- app_assoc. simpl.
      apply NoDup_app. pose proof (tinv_nodup s thr HI) as Hnd.
      apply NoDup_app in Hnd as (Hn1 & Hn2 & Hn3).
      split; [exact Hn1|]. split.
      * intros x Hx Hx'. apply elem_of_cons in Hx' as [->|Hx'].
        -- apply Hfresh. set_solver.
        -- now apply (Hn2 x).
      * constructor; [|exact Hn3]. intros Hx. apply Hfresh. set_solver.
  - intros t Ht. destruct Htasks as [(Heq & _)|(Hun & t0 & Heq & Hl)]; rewrite Heq in Ht.
    + destruct (tinv_task s thr HI t Ht) as (j & Hj & Hs). eauto.
    + apply elem_of_app in Ht as [Ht|Ht].
      * destruct (tinv_task s thr HI t Ht) as (j & Hj & Hs). eauto.
      * apply list_elem_of_singleton in Ht as ->. rewrite Hl. eauto.
  - intros t p Ht. destruct (tinv_thread s thr HI t p Ht) as (j & Hj & Hs). eauto.
  - intros l j Hl. rewrite Hh in Hl. apply lookup_snoc_Some in Hl as [[_ Hl]|[-> <-]].
    + destruct (tinv_job s thr HI l j Hl) as (Huu & Hset). split; [exact Huu|].
      intros Hno. apply Hset. intros Hin. apply Hno.
      apply elem_of_app in Hin as [Hin|Hin]; apply elem_of_app; auto.
    + rewrite Hid. split; [exact Hu|]. intros Hno.
      destruct Htasks as [(_ & Hs)|(_ & t & Ht & Hl)]; [exact Hs|].
      exfalso. apply Hno. apply elem_of_app. left. unfold pending. rewrite Ht, fmap_app.
      simpl. rewrite Hl. set_solver.
Qed.

Lemma TInv_begin (s : State E) (thr : list (Task * point)) (i : nat) (t : Task) :
  TInv s thr -> tasks s !! i = Some t ->
  TInv (with_tasks (delete i (tasks s)) s) (thr ++ [(t, AtImport)]).
Proof.
  intros HI Hi.
  assert (Hperm : pending s ++ running thr ≡ₚ
            pending (with_tasks (delete i (tasks s)) s) ++ running (thr ++ [(t, AtImport)])).
  { rewrite (pending_delete_perm s i t Hi). unfold running. rewrite fmap_app. simpl.
    rewrite (Permutation_app_comm _ [t_job t]). simpl.
    apply Permutation_middle. }
  assert (Hin : t ∈ tasks s) by (apply list_elem_of_lookup; eauto).
  split.
  - apply (tinv_store s thr HI).
  - rewrite <- Hperm. apply (tinv_nodup s thr HI).
  - intros t' Ht'. simpl in Ht'. apply (tinv_task s thr HI).
    eapply list_elem_of_delete_inv, Ht'.
  - intros t' p Ht'. apply elem_of_app in Ht' as [Ht'|Ht'].
    + apply (tinv_thread s thr HI t' p Ht').
    + apply list_elem_of_singleton in Ht'. injection Ht' as -> ->.
      apply (tinv_task s thr HI t Hin).
  - intros l j Hl. destruct (tinv_job s thr HI l j Hl) as (Hu & Hs).
    split; [exact Hu|]. intros Hno. apply Hs. now rewrite Hperm.
Qed.

Lemma TInv_thread (s : State E) (thr : list (Task * point)) (i : nat) (t : Task)
    (p : point) :
  TInv s thr -> thr !! i = Some (t, p) ->
  TInv (snd (thread_step t p s)) (<[i := (t, fst (thread_step t p s))]> thr).
Proof.
  intros HI Hi.
  assert (Hin : (t, p) ∈ thr) by (apply list_elem_of_lookup; eauto).
  destruct (tinv_thread s thr HI t p Hin) as (j & Hj & Hs).
  destruct (thread_step_spec t p s j Hj Hs) as (j' & Hh & Hs' & Hid & Hjobs & Ht).
  set (s' := snd (thread_step t p s)) in *. set (p' := fst (thread_step t p s)) in *.
  assert (Hlt : (t_job t < length (heap s))%nat) by (eapply lookup_lt_Some, Hj).
  assert (Hrun : running (<[i := (t, p')]> thr) = running thr)
    by (eapply running_insert, Hi).
  assert (Hpend : pending s' = pending s) by (unfold pending; now rewrite Ht).
  pose proof (tinv_nodup s thr HI) as Hnd.
  assert (Hown : t_job t ∈ running thr) by (eapply elem_of_running, Hin).
  split.
  - intros jid l Hl. rewrite Hjobs in Hl.
    destruct (tinv_store s thr HI jid l Hl) as (j0 & Hj0 & Hjid).
    rewrite Hh. destruct (decide (l = t_job t)) as [->|Hne].
    + exists j'. rewrite list_lookup_insert_eq by exact Hlt.
      split; [reflexivity|]. congruence.
    + exists j0. now rewrite list_lookup_insert_ne by auto.
  - now rewrite Hrun, Hpend.
  - intros t' Ht'. rewrite Ht in Ht'.
    destruct (tinv_task s thr HI t' Ht') as (j0 & Hj0 & Hs0).
    exists j0. split; [|exact Hs0]. rewrite Hh, list_lookup_insert_ne; [exact Hj0|].
    intros Heq. apply NoDup_app in Hnd as (_ & Hdis & _).
    apply (Hdis (t_job t')); [now apply elem_of_pending|]. now rewrite <- Heq.
  - intros t' p0 Ht'. apply list_elem_of_lookup in Ht' as (k & Hk).
    apply list_lookup_insert_Some in Hk as [(-> & [= <- <-] & _)|(Hne & Hk)].
    + exists j'. split; [|exact Hs']. rewrite Hh. now apply list_lookup_insert_eq.
    + assert (Hin' : (t', p0) ∈ thr) by (apply list_elem_of_lookup; eauto).
      destruct (tinv_thread s thr HI t' p0 Hin') as (j0 & Hj0 & Hs0).
      exists j0. split; [|exact Hs0]. rewrite Hh, list_lookup_insert_ne; [exact Hj0|].
      intros Heq. apply NoDup_app in Hnd as (_ & _ & Hnd).
      apply Hne. apply (NoDup_lookup _ i k (t_job t) Hnd); unfold running;
        rewrite list_lookup_fmap.
      * now rewrite Hi.
      * rewrite Hk. simpl. now rewrite Heq.
  - intros l j0 Hl. rewrite Hh in Hl. rewrite Hrun, Hpend.
    apply list_lookup_insert_Some in Hl as [(<- & <- & _)|(Hne & Hl)].
    + destruct (tinv_job s thr HI (t_job t) j Hj) as (Hu & _).
      split; [congruence|]. intros Hno. exfalso. apply Hno. apply elem_of_app. auto.
    + apply (tinv_job s thr HI l j0 Hl).
Qed.

Lemma TInv_drop (s s' : State E) (thr : list (Task * point)) (i : nat) (t : Task)
    (p : point) (j j' : VeoJob) :
  TInv s thr -> thr !! i = Some (t, p) ->
  heap s !! t_job t = Some j ->
  heap s' = <[t_job t := j']> (heap s) -> _jobs s' = _jobs s -> tasks s' = tasks s ->
  job_id j' = job_id j -> settled_shape j' ->
  TInv s' (delete i thr).
Proof.
  intros HI Hi Hj Hh Hjobs Ht Hid Hset.
  assert (Hlt : (t_job t < length (heap s))%nat) by (eapply lookup_lt_Some, Hj).
  assert (Hpend : pending s' = pending s) by (unfold pending; now rewrite Ht).
  pose proof (tinv_nodup s thr HI) as Hnd.
  assert (Hnd' : NoDup (pending s ++ t_job t :: running (delete i thr))).
  { now rewrite <- (running_delete thr i t p Hi). }
  apply NoDup_app in Hnd' as (Hn1 & Hn2 & Hn3).
  apply NoDup_cons in Hn3 as (Hn3 & Hn4).
  assert (Hsub : forall x, x ∈ delete i thr -> x ∈ thr).
  { intros x Hx. eapply list_elem_of_delete_inv, Hx. }
  assert (Hnot : t_job t ∉ pending s ++ running (delete i thr)).
  { intros Hx. apply elem_of_app in Hx as [Hx|Hx]; [|contradiction].
    apply (Hn2 (t_job t)); [exact Hx|]. apply elem_of_cons. auto. }
  split.
  - intros jid l Hl. rewrite Hjobs in Hl.
    destruct (tinv_store s thr HI jid l Hl) as (j0 & Hj0 & Hjid).
    rewrite Hh. destruct (decide (l = t_job t)) as [->|Hne].
    + exists j'. rewrite list_lookup_insert_eq by exact Hlt.
      split; [reflexivity|]. congruence.
    + exists j0. now rewrite list_lookup_insert_ne by auto.
  - rewrite Hpend. apply NoDup_app. split; [exact Hn1|]. split; [|exact Hn4].
    intros x Hx Hx'. apply (Hn2 x Hx). apply elem_of_cons. auto.
  - intros t' Ht'. rewrite Ht in Ht'.
    destruct (tinv_task s thr HI t' Ht') as (j0 & Hj0 & Hs0).
    exists j0. split; [|exact Hs0]. rewrite Hh, list_lookup_insert_ne; [exact Hj0|].
    intros Heq. apply Hnot. apply elem_of_app. left. rewrite Heq.
    now apply elem_of_pending.
  - intros t' p0 Ht'.
    destruct (tinv_thread s thr HI t' p0 (Hsub _ Ht')) as (j0 & Hj0 & Hs0).
    exists j0. split; [|exact Hs0]. rewrite Hh, list_lookup_insert_ne; [exact Hj0|].
    intros Heq. apply Hnot. apply elem_of_app. right. rewrite Heq.
    eapply elem_of_running, Ht'.
  - intros l j0 Hl. rewrite Hh in Hl. rewrite Hpend.
    apply list_lookup_insert_Some in Hl as [(<- & <- & _)|(Hne & Hl)].
    + destruct (tinv_job s thr HI (t_job t) j Hj) as (Hu & _).
      split; [congruence|]. intros _. exact Hset.
    + destruct (tinv_job s thr HI l j0 Hl) as (Hu & Hs0). split; [exact Hu|].
      intros Hno. apply Hs0. intros Hx. apply Hno.
      apply elem_of_app in Hx as [Hx|Hx]; apply elem_of_app; [auto|right].
      rewrite (running_delete thr i t p Hi) in Hx.
      apply elem_of_cons in Hx as [->|Hx]; [contradiction|exact Hx].
Qed.

Lemma TInv_return (s : State E) (thr : list (Task * point)) (i : nat) (t : Task) :
  TInv s thr -> thr !! i = Some (t, Returned) -> TInv s (delete i thr).
Proof.
  intros HI Hi.
  assert (Hin : (t, Returned) ∈ thr) by (apply list_elem_of_lookup; eauto).
  destruct (tinv_thread s thr HI t Returned Hin) as (j & Hj & Hs).
  apply (TInv_drop s s thr i t Returned j j HI Hi Hj); auto.
  - now rewrite list_insert_id.
  - simpl in Hs. destruct Hs as (Hst & Herr & Hcase).
    unfold settled_shape. rewrite Hst. auto.
Qed.

Lemma TInv_error (s : State E) (thr : list (Task * point)) (i : nat) (t : Task)
    (exc : string) :
  TInv s thr -> thr !! i = Some (t, Raised exc) ->
  TInv (snd (on_error t exc s)) (delete i thr).
Proof.
  intros HI Hi.
  assert (Hin : (t, Raised exc) ∈ thr) by (apply list_elem_of_lookup; eauto).
  destruct (tinv_thread s thr HI t (Raised exc) Hin) as (j & Hj & Hs).
  destruct (on_error_spec t exc s j Hj) as (Hh & Hjobs & Ht & _).
  apply (TInv_drop s _ thr i t (Raised exc) j (failed_job exc j) HI Hi Hj); auto.
  destruct Hs as (_ & _ & Hp & _ & Hn).
  unfold settled_shape. simpl. repeat split; eauto.
Qed.

Lemma TInv_sweep (s : State E) (thr : list (Task * point)) (now max_age : Z) :
  TInv s thr -> TInv (snd (cleanup_old_jobs now max_age s)) thr.
Proof.
  intros HI.
  assert (Hcl : store_closed s).
  { intros jid l Hl. destruct (tinv_store s thr HI jid l Hl) as (j & Hj & _). eauto. }
  pose proof (cleanup_old_jobs_spec now max_age s Hcl) as Hspec.
  unfold wp, sweep_post in Hspec.
  set (s' := snd (cleanup_old_jobs now max_age s)) in *.
  destruct Hspec as (_ & Hh & _ & Ht & _ & _ & Hjobs & _).
  assert (Hpend : pending s' = pending s) by (unfold pending; now rewrite Ht).
  split.
  - intros jid l Hl. rewrite Hh. apply (tinv_store s thr HI).
    destruct (Hjobs jid) as (Hexp & Hkeep). rewrite <- Hkeep; [exact Hl|].
    intros Hx. apply Hexp in Hx. congruence.
  - rewrite Hpend. apply (tinv_nodup s thr HI).
  - intros t. rewrite Ht, Hh. apply (tinv_task s thr HI).
  - intros t p. rewrite Hh. apply (tinv_thread s thr HI).
  - intros l j. rewrite Hh, Hpend. apply (tinv_job s thr HI).
Qed.

Lemma interleaved_TInv (s : State E) (thr : list (Task * point)) :
  interleaved s thr -> TInv s thr.
Proof.
  induction 1.
  - now apply TInv_init.
  - now apply TInv_submit.
  - now apply TInv_begin.
  - now apply TInv_thread.
  - eapply TInv_return; eauto.
  - now apply TInv_error.
  - now apply TInv_sweep.
  - now apply TInv_files.
Qed.

(** The record at [l] in a state of the process: the record of a scheduled
    task, of a running thread, or of a job that is done. *)
Lemma TInv_cases (s : State E) (thr : list (Task * point)) (l : nat) (j : VeoJob) :
  TInv s thr -> heap s !! l = Some j ->
  is_uuid4_str (job_id j) = true /\
  (untouched j \/
   (exists t p, (t, p) ∈ thr /\ t_job t = l /\ shape_at p j) \/
   settled_shape j).
Proof.
  intros HI Hj. destruct (tinv_job s thr HI l j Hj) as (Hu & Hset).
  split; [exact Hu|].
  destruct (decide (l ∈ pending s ++ running thr)) as [Hin|Hno]; [|auto].
  apply elem_of_app in Hin as [Hin|Hin].
  - apply list_elem_of_fmap in Hin as (t & -> & Ht).
    destruct (tinv_task s thr HI t Ht) as (j0 & Hj0 & Hs). left. congruence.
  - apply list_elem_of_fmap in Hin as ([t p] & -> & Ht).
    destruct (tinv_thread s thr HI t p Ht) as (j0 & Hj0 & Hs).
    right. left. exists t, p. simpl in *. split; [exact Ht|]. split; [reflexivity|].
    congruence.
Qed.

Lemma interleaved_record_shape (s : State E) (thr : list (Task * point))
    (l : nat) (j : VeoJob) :
  interleaved s thr -> heap s !! l = Some j ->
  is_uuid4_str (job_id j) = true /\ record_shape j.
Proof.
  intros Hil Hj.
  destruct (TInv_cases s thr l j (interleaved_TInv s thr Hil) Hj) as (Hu & Hc).
  split; [exact Hu|]. unfold record_shape.
  destruct Hc as [Hun|[(t & p & _ & _ & Hs)|Hs]].
  - destruct Hun as (-> & ? & ? & ? & ?). auto.
  - destruct p; simpl in Hs; unfold untouched in Hs;
      repeat match goal with
             | H : _ /\ _ |- _ => destruct H
             end;
      match goal with H : status j = _ |- _ => rewrite H end; auto 10.
  - unfold settled_shape in Hs. destruct (status j); [contradiction|exact Hs|exact Hs].
Qed.

End ThreadInvariant.

Section ThreadRuns.
Context `{E : Env}.

Lemma runs_to_refl (t : Task) (p : point) (s : State E) : runs_to t p s p s.
Proof. now exists 0%nat. Qed.

Lemma runs_to_step (t : Task) (p : point) (s : State E) (p1 : point) (s1 : State E)
    (p' : point) (s' : State E) :
  thread_step t p s = (p1, s1) -> runs_to t p1 s1 p' s' -> runs_to t p s p' s'.
Proof. intros Hs (n & Hn). exists (S n). simpl. now rewrite Hs. Qed.

Lemma runs_to_trans (t : Task) (p : point) (s : State E) (p1 : point) (s1 : State E)
    (p' : point) (s' : State E) :
  runs_to t p s p1 s1 -> runs_to t p1 s1 p' s' -> runs_to t p s p' s'.
Proof.
  intros (n & Hn). revert p s Hn. induction n as [|n IH]; intros p s Hn H.
  - injection Hn as -> ->. exact H.
  - simpl in Hn. destruct (thread_step t p s) as [p2 s2] eqn:Hs.
    eapply runs_to_step; [exact Hs|]. now apply IH.
Qed.

(** The loop over the models, operation by operation. *)
Lemma start_first_runs (t : Task) (ms : list string) (le : option string)
    (op : option (option Operation)) (s : State E) :
  exists le' op' s1,
    start_first ms (prompt_of (t_analytics t)) (image_of t) le op s
      = (Ok (le', op'), s1) /\
    runs_to t (at_start ms le op) s (after_start le' op') s1.
Proof.
  revert le op s. induction ms as [|m ms IH]; intros le op s.
  - exists le, op, s. split; [reflexivity|apply runs_to_refl].
  - cbn [start_first at_start].
    unfold bind at 1. unfold try_except, bind, log, call, ret. cbn [backend with_trace].
    destruct (generate_videos m (prompt_of (t_analytics t)) (image_of t) (backend s))
      as [[o|e] b] eqn:Hg.
    + eexists _, _, _. split; [reflexivity|].
      eapply runs_to_step; [|apply runs_to_refl].
      unfold thread_step, goto, try_except, bind, log, call, ret.
      cbn [backend with_trace]. now rewrite Hg.
    + destruct (IH (Some e) (Some None)
                  (with_backend b (with_trace (trace s ++ [EvStart m]) s)))
        as (le' & op' & s1 & Hrun & Hto).
      exists le', op', s1. split; [exact Hrun|].
      eapply runs_to_step; [|exact Hto].
      unfold thread_step, goto, try_except, bind, log, call, ret.
      cbn [backend with_trace]. now rewrite Hg.
Qed.

(** The poll loop, operation by operation. *)
Lemma poll_runs (t : Task) (n : nat) (op : Operation) (s : State E)
    (r : outcome Operation) (s' : State E) :
  poll n op s = (r, s') ->
  runs_to t (at_poll n op) s
    (match r with Ok op' => after_poll op' | Raise e => Raised e end) s'.
Proof.
  revert op s. induction n as [|n IH]; intros op s Hp.
  - injection Hp as <- <-. apply runs_to_refl.
  - cbn [poll at_poll] in *. destruct (done op) eqn:Hd.
    { injection Hp as <- <-. apply runs_to_refl. }
    eapply runs_to_step; [reflexivity|].
    unfold sleep, bind, log, call in Hp. cbn [backend with_trace trace] in Hp.
    destruct (operations_get op (backend s)) as [[op'|e] b] eqn:Hg.
    + eapply runs_to_step; [|apply IH, Hp].
      unfold thread_step, goto, bind, log, call. cbn [backend with_trace trace].
      now rewrite Hg.
    + injection Hp as <- <-.
      eapply runs_to_step; [|apply runs_to_refl].
      unfold thread_step, goto, bind, log, call. cbn [backend with_trace trace].
      now rewrite Hg.
Qed.

(** [_run_veo_sync], operation by operation: the thread gets from the start
    to [Returned] or to [Raised] with the outcome and in the state of the
    function. *)
Lemma run_veo_sync_runs (t : Task) (s : State E) (r : outcome unit) (s' : State E) :
  _run_veo_sync (t_job t) (t_client t) (t_image_bytes t) (t_mime_type t)
    (t_analytics t) s = (r, s') ->
  runs_to t AtImport s (match r with Ok _ => Returned | Raise e => Raised e end) s'.
Proof.
  unfold _run_veo_sync. unfold bind at 1. unfold call at 1.
  destruct (genai_import (backend s)) as [[[]|e] b] eqn:Hi.
  2:{ intros [= <- <-]. eapply runs_to_step; [|apply runs_to_refl].
      unfold thread_step, goto, call. now rewrite Hi. }
  intros Hr. eapply runs_to_step.
  { unfold thread_step, goto, call. rewrite Hi. reflexivity. }
  unfold bind at 1 in Hr.
  change (match veo_prompt (t_analytics t) with
          | "" => default_prompt
          | String a s0 => String a s0
          end) with (prompt_of (t_analytics t)) in Hr.
  change {| image_bytes := t_image_bytes t; mime_type := t_mime_type t |}
    with (image_of t) in Hr.
  destruct (start_first_runs t veo_models None None (with_backend b s))
    as (le & op & s1 & Hsf & Hto).
  rewrite Hsf in Hr.
  eapply runs_to_trans; [exact Hto|]. clear Hto Hsf.
  destruct op as [[op|]|]; cbn [after_start].
  - unfold bind at 1 in Hr.
    destruct (poll max_polls op s1) as [[op'|e] s2] eqn:Hp.
    2:{ injection Hr as <- <-. apply (poll_runs t _ _ _ _ _ Hp). }
    eapply runs_to_trans; [apply (poll_runs t _ _ _ _ _ Hp)|]. clear Hp.
    cbv beta iota. unfold after_poll.
    destruct (done op'); [|injection Hr as <- <-; apply runs_to_refl].
    destruct (response op') as [resp|]; [|injection Hr as <- <-; apply runs_to_refl].
    destruct (generated_videos resp) as [|g gs];
      [injection Hr as <- <-; apply runs_to_refl|].
    unfold bind at 1 in Hr. unfold log at 1 in Hr.
    unfold bind at 1 in Hr. unfold call at 1 in Hr. cbn [backend with_trace] in Hr.
    destruct (files_download (video g) (backend s2)) as [[[]|e] b3] eqn:Hd.
    2:{ injection Hr as <- <-. eapply runs_to_step; [|apply runs_to_refl].
        unfold thread_step, goto, bind, log, call. cbn [backend with_trace].
        now rewrite Hd. }
    eapply runs_to_step.
    { unfold thread_step, goto, bind, log, call. cbn [backend with_trace].
      rewrite Hd. reflexivity. }
    set (s3 := with_backend b3 (with_trace (trace s2 ++ [EvDownload (video g)]) s2)) in *.
    unfold bind at 1 in Hr. unfold deref at 1 in Hr.
    destruct (heap s3 !! t_job t) as [j|] eqn:Hj.
    2:{ injection Hr as <- <-. eapply runs_to_step; [|apply runs_to_refl].
        unfold thread_step, goto. unfold bind at 1. unfold deref. now rewrite Hj. }
    unfold bind at 1 in Hr.
    destruct (save (video g) (video_file_path (job_id j)) s3) as [[[]|e] s4] eqn:Hs.
    2:{ injection Hr as <- <-. eapply runs_to_step; [|apply runs_to_refl].
        unfold thread_step, goto. unfold bind at 1. unfold deref. rewrite Hj.
        unfold bind. now rewrite Hs. }
    eapply runs_to_step.
    { unfold thread_step, goto. unfold bind at 1. unfold deref. rewrite Hj.
      unfold bind, ret. rewrite Hs. reflexivity. }
    eapply runs_to_step; [reflexivity|].
    eapply runs_to_step; [reflexivity|].
    eapply runs_to_step; [reflexivity|].
    injection Hr as <- <-. apply runs_to_refl.
  - destruct (contains "billing enabled" (lower (or_empty le))).
    + eapply runs_to_step; [reflexivity|].
      eapply runs_to_step; [reflexivity|].
      eapply runs_to_step; [reflexivity|].
      injection Hr as <- <-. apply runs_to_refl.
    + injection Hr as <- <-. apply runs_to_refl.
  - injection Hr as <- <-. apply runs_to_refl.
Qed.

(** [_run_veo_job] is the run of the thread to its end, followed by the
    handler if the thread has raised. *)
Lemma run_veo_job_runs (t : Task) (s : State E) :
  exists p' s',
    runs_to t AtImport s p' s' /\
    (p' = Returned /\ _run_veo_job t s = (Ok tt, s') \/
     exists exc, p' = Raised exc /\ _run_veo_job t s = (Ok tt, snd (on_error t exc s'))).
Proof.
  unfold _run_veo_job, try_except.
  destruct (_run_veo_sync (t_job t) (t_client t) (t_image_bytes t) (t_mime_type t)
              (t_analytics t) s) as [[[]|e] s1] eqn:Hr;
    apply run_veo_sync_runs in Hr.
  - exists Returned, s1. auto.
  - exists (Raised e), s1. split; [exact Hr|]. right. exists e. split; [reflexivity|].
    reflexivity.
Qed.

Lemma interleaved_runs (s : State E) (thr : list (Task * point)) (i : nat) (t : Task)
    (p p' : point) (s' : State E) :
  interleaved s thr -> thr !! i = Some (t, p) -> runs_to t p s p' s' ->
  interleaved s' (<[i := (t, p')]> thr).
Proof.
  intros Hil Hi (n & Hn). revert s thr p Hil Hi Hn.
  induction n as [|n IH]; intros s thr p Hil Hi Hn.
  - injection Hn as <- <-. now rewrite list_insert_id.
  - simpl in Hn. destruct (thread_step t p s) as [p1 s1] eqn:Hs.
    pose proof (il_thread s thr i t p Hil Hi) as Hil1. rewrite Hs in Hil1.
    cbn [fst snd] in Hil1.
    assert (Hlt : (i < length thr)%nat) by (eapply lookup_lt_Some, Hi).
    pose proof (IH s1 (<[i := (t, p1)]> thr) p1 Hil1
                  (list_lookup_insert_eq thr i (t, p1) Hlt) Hn) as H.
    now rewrite list_insert_insert_eq in H.
Qed.

(** A run of a task in one piece is one of the interleavings: every state
    that is reachable when tasks run in one piece is a state of the process
    in which no thread is running. *)
Lemma reachable_interleaved (s : State E) : reachable s -> interleaved s [].
Proof.
  induction 1 as [s Hinit|s s' _ IH Hstep].
  - now apply il_init.
  - destruct Hstep as [s jid now img mime a Hu|s i t Hi|s now max_age|s F].
    + now apply il_submit.
    + pose proof (il_begin s [] i t IH Hi) as Hb. simpl in Hb.
      destruct (run_veo_job_runs t (with_tasks (delete i (tasks s)) s))
        as (p' & s1 & Hto & Hcase).
      pose proof (interleaved_runs _ _ 0%nat t AtImport p' s1 Hb eq_refl Hto) as H1.
      simpl in H1.
      destruct Hcase as [(-> & ->)|(exc & -> & ->)].
      * apply (il_return s1 [(t, Returned)] 0%nat t H1 eq_refl).
      * apply (il_error s1 [(t, Raised exc)] 0%nat t exc H1 eq_refl).
    + now apply il_sweep.
    + now apply il_files.
Qed.

End ThreadRuns.

Lemma interleaved_path_written : interleaved path_written [(task1, AtUrl jid1)].
Proof.
  assert (Hb : interleaved (begun env_last tt) [(task1, AtImport)]).
  { apply (il_begin (E := env_last) (submitted env_last tt) [] 0%nat task1).
    - apply reachable_interleaved, reachable_submitted.
    - reflexivity. }
  apply (interleaved_runs (E := env_last) (begun env_last tt) [(task1, AtImport)]
           0%nat task1 AtImport (AtUrl jid1) path_written Hb eq_refl).
  exists 9%nat. unfold path_written.
  rewrite (surjective_pairing (thread_steps 9 task1 AtImport (begun env_last tt))) at 1.
  f_equal; vm_compute; reflexivity.
Qed.

(** * The claims *)

(** C3. Given the ordered candidate list, the fallback loop attempts the
    candidates once each in list order and stops at the first one whose start
    call returns a handle, which it holds on to; the candidates after it are
    not attempted.  If every candidate raises, the loop ends without a handle
    and with the message of the last failure, and [_run_veo_job] records this
    message in the job unless it mentions billing.  No run starts anything
    but a prefix of [veo_models]. *)
Theorem resolver_first_success `{E : Env} (prompt : string) (image : Image)
    (models : list string) (s : State E) :
  (forall pre m post es b1 op b2,
     models = pre ++ m :: post ->
     all_raise prompt image pre (backend s) es b1 ->
     generate_videos m prompt image b1 = (Ok op, b2) ->
     start_first models prompt image None None s
     = (Ok (last es, Some (Some op)), ext s b2 (EvStart <$> (pre ++ [m])))) /\
  (forall es b',
     models <> [] ->
     all_raise prompt image models (backend s) es b' ->
     is_Some (last es) /\
     start_first models prompt image None None s
     = (Ok (last es, Some None), ext s b' (EvStart <$> models))) /\
  (forall t j b0 es b1,
     heap s !! t_job t = Some j ->
     genai_import (backend s) = (Ok tt, b0) ->
     all_raise (prompt_of (t_analytics t)) (image_of t) veo_models b0 es b1 ->
     contains "billing enabled" (lower (or_empty (last es))) = false ->
     exists s',
       _run_veo_job t s = (Ok tt, s') /\
       started (drop (length (trace s)) (trace s')) = veo_models /\
       heap s' !! t_job t
       = Some (failed_job ("No Veo model available or all failed. Last error: "
                           +:+ fmt_opt (last es)) j)) /\
  (forall t j,
     heap s !! t_job t = Some j ->
     started (drop (length (trace s)) (trace (snd (_run_veo_job t s))))
       `prefix_of` veo_models).
Proof.
  split; [|split; [|split]].
  - intros pre m post es b1 op b2 -> Hall Hm.
    rewrite (start_first_found _ _ _ _ _ _ _ _ _ s None None Hall Hm).
    now rewrite last_of_None.
  - intros es b' Hne Hall. split.
    + apply all_raise_length in Hall. destruct es as [|e es].
      * destruct models; [congruence|discriminate].
      * destruct (last (e :: es)) eqn:Hl; [eauto|].
        apply last_None in Hl. discriminate.
    + rewrite (start_first_exhausted _ _ _ _ _ s None None Hall).
      rewrite last_of_None. now destruct models.
  - intros t j b0 es b1 Hj Hi Hall Hbill. eexists.
    split; [apply (run_exhausted t s j b0 es b1 Hj Hi Hall Hbill)|].
    simpl. split.
    + rewrite drop_app_length. now autorewrite with trace_db.
    + apply list_lookup_insert_eq. eapply lookup_lt_Some, Hj.
  - intros t j Hj.
    destruct (run_veo_job_spec t s j Hj) as (_ & evs & j' & Hfr & _).
    destruct Hfr as [_ _ _ Htr _ _ _ Hst].
    now rewrite Htr, drop_app_length.
Qed.

Lemma resolver_first_success_witness :
  start_first (E := env_abc) ["A"; "B"; "C"] "a prompt" an_image None None
    (fresh_state (E := env_abc) tt ∅)
  = (Ok (Some "B failed", Some (Some op_pending)),
     ext (fresh_state (E := env_abc) tt ∅) tt [EvStart "A"; EvStart "B"; EvStart "C"]).
Proof.
  apply (proj1 (resolver_first_success (E := env_abc) "a prompt" an_image
                  ["A"; "B"; "C"] (fresh_state (E := env_abc) tt ∅))
           ["A"; "B"] "C" [] ["A failed"; "B failed"] tt op_pending tt).
  - reflexivity.
  - apply (all_raise_cons (E := env_abc) _ _ "A" ["B"] tt "A failed" tt ["B failed"] tt eq_refl).
    apply (all_raise_cons (E := env_abc) _ _ "B" [] tt "B failed" tt [] tt eq_refl).
    apply all_raise_nil.
  - reflexivity.
Defined.

(** C4. If the capability client is absent, [generate_video] returns
    normally with the job id and the substitute locator, the stored record
    is already ready with the substitute locator, and no background task is
    scheduled. *)
Theorem submit_without_client `{E : Env} (s : State E) (jid : string) (now : Z)
    (img : list Byte.byte) (mime : string) (a : FieldAnalytics) :
  client_absent s ->
  let r := generate_video jid now img mime a s in
  fst r = Ok (jid, Some MOCK_VIDEO_URL) /\
  (exists j, read_job jid (snd r) = Some j /\ status j = ready /\
             video_url j = Some MOCK_VIDEO_URL /\ job_id j = jid) /\
  tasks (snd r) = tasks s /\
  spawned (drop (length (trace s)) (trace (snd r))) = [].
Proof.
  intros Habs r. subst r.
  destruct (generate_video_spec jid now img mime a s) as (Hjobs & _ & Hcase).
  destruct Hcase as [(_ & Hr & Hh & Ht & Htr)|(Hno & _)]; [|contradiction].
  split; [exact Hr|]. split; [|split; [exact Ht|]].
  - eexists. unfold read_job, get_job.
    rewrite Hjobs, lookup_insert_eq, Hh.
    split; [now apply list_lookup_middle|]. repeat split.
  - now rewrite Htr, drop_app_length.
Qed.

Lemma submit_without_client_witness :
  let r := generate_video (E := env_no_key) jid1 100 [] "image/png" MOCK_ANALYTICS
             (fresh_state (E := env_no_key) tt ∅) in
  fst r = Ok (jid1, Some MOCK_VIDEO_URL) /\
  (exists j, read_job jid1 (snd r) = Some j /\ status j = ready /\
             video_url j = Some MOCK_VIDEO_URL /\ job_id j = jid1) /\
  tasks (snd r) = [] /\
  spawned (drop 0 (trace (snd r))) = [].
Proof.
  apply (submit_without_client (E := env_no_key)
           (fresh_state (E := env_no_key) tt ∅)).
  split; [reflexivity|]. left. reflexivity.
Defined.

(** C5. If every candidate raises and the message of the last failure
    mentions billing, the run marks the job ready with the substitute locator
    and an explanatory note, and does not record an error. *)
Theorem billing_failure_is_ready `{E : Env} (t : Task) (s : State E)
    (j : VeoJob) (b0 : remote) (es : list string) (b1 : remote) :
  heap s !! t_job t = Some j ->
  genai_import (backend s) = (Ok tt, b0) ->
  all_raise (prompt_of (t_analytics t)) (image_of t) veo_models b0 es b1 ->
  contains "billing enabled" (lower (or_empty (last es))) = true ->
  exists s' j',
    _run_veo_job t s = (Ok tt, s') /\
    heap s' !! t_job t = Some j' /\
    status j' = ready /\
    video_url j' = Some MOCK_VIDEO_URL /\
    job_notes j' = Some billing_note /\
    job_error j' = job_error j /\
    status_writes (t_job t) (drop (length (trace s)) (trace s')) = [ready].
Proof.
  intros Hj Hi Hall Hbill. do 2 eexists.
  split; [apply (run_billing t s j b0 es b1 Hj Hi Hall Hbill)|].
  split; [apply list_lookup_insert_eq; eapply lookup_lt_Some, Hj|].
  simpl. repeat split.
  rewrite drop_app_length. unfold status_writes. simpl.
  now rewrite decide_True.
Qed.

Lemma billing_failure_is_ready_witness :
  exists s' j',
    _run_veo_job (E := env_billing) task1 (submitted env_billing tt) = (Ok tt, s') /\
    heap s' !! 0%nat = Some j' /\
    status j' = ready /\
    video_url j' = Some MOCK_VIDEO_URL /\
    job_notes j' = Some billing_note /\
    job_error j' = None /\
    status_writes 0 (drop 1 (trace s')) = [ready].
Proof.
  apply (billing_failure_is_ready (E := env_billing) task1 (submitted env_billing tt)
           (new_VeoJob jid1 MOCK_ANALYTICS 100) tt
           (replicate 3 "FAILED_PRECONDITION: Veo requires Billing Enabled on the project")
           tt).
  - reflexivity.
  - reflexivity.
  - repeat (eapply (all_raise_cons (E := env_billing)); [reflexivity|]).
    apply (all_raise_nil (E := env_billing)).
  - reflexivity.
Defined.

(** C6. Whatever the backend does, a run refreshes the operation at most
    42 times and sleeps 10 before each refresh.  If a candidate returned a
    handle that stays not done through 42 refreshes, the run refreshes
    exactly 42 times and then marks the job as failed with the message of the
    timeout and the substitute locator. *)
Theorem poll_ceiling_timeout `{E : Env} (s : State E) :
  (forall t j,
     heap s !! t_job t = Some j ->
     let evs := drop (length (trace s)) (trace (snd (_run_veo_job t s))) in
     (length (polled evs) <= 42)%nat /\
     slept evs = replicate (length (polled evs)) 10) /\
  (forall t j b0 pre m post es b1 op b2,
     heap s !! t_job t = Some j ->
     genai_import (backend s) = (Ok tt, b0) ->
     veo_models = pre ++ m :: post ->
     all_raise (prompt_of (t_analytics t)) (image_of t) pre b0 es b1 ->
     generate_videos m (prompt_of (t_analytics t)) (image_of t) b1 = (Ok op, b2) ->
     stays_pending 42 op b2 ->
     exists s' j',
       _run_veo_job t s = (Ok tt, s') /\
       (let evs := drop (length (trace s)) (trace s') in
        length (polled evs) = 42%nat /\ slept evs = replicate 42 10) /\
       heap s' !! t_job t = Some j' /\
       status j' = error /\
       job_error j' = Some "Veo operation timed out" /\
       video_url j' = Some MOCK_VIDEO_URL).
Proof.
  split.
  - intros t j Hj evs. subst evs.
    destruct (run_veo_job_spec t s j Hj) as (_ & evs & j' & Hfr & _).
    destruct Hfr as [_ _ _ Htr _ Hp Hs _].
    rewrite Htr, drop_app_length. split; [exact Hp|exact Hs].
  - intros t j b0 pre m post es b1 op b2 Hj Hi Hms Hall Hm Hpend.
    destruct (run_timeout t s j b0 pre m post es b1 op b2 Hj Hi Hms Hall Hm Hpend)
      as (b3 & ops & Hlen & Hrun).
    do 2 eexists. split; [exact Hrun|]. simpl. split; [|split].
    + rewrite drop_app_length. autorewrite with trace_db. simpl.
      rewrite ?app_nil_r, Hlen. split; reflexivity.
    + apply list_lookup_insert_eq. eapply lookup_lt_Some, Hj.
    + repeat split.
Qed.

Lemma stays_pending_stuck (n : nat) : stays_pending (E := env_stuck) n op_pending tt.
Proof.
  induction n as [|n IH].
  - now constructor.
  - now apply (stays_pending_S (E := env_stuck) n op_pending tt op_pending tt).
Qed.

Lemma poll_ceiling_timeout_witness :
  exists s' j',
    _run_veo_job (E := env_stuck) task1 (submitted env_stuck tt) = (Ok tt, s') /\
    (let evs := drop 1 (trace s') in
     length (polled evs) = 42%nat /\ slept evs = replicate 42 10) /\
    heap s' !! 0%nat = Some j' /\
    status j' = error /\
    job_error j' = Some "Veo operation timed out" /\
    video_url j' = Some MOCK_VIDEO_URL.
Proof.
  apply (proj2 (poll_ceiling_timeout (E := env_stuck) (submitted env_stuck tt))
           task1 (new_VeoJob jid1 MOCK_ANALYTICS 100) tt
           [] "veo-3.1-generate-preview"
           ["veo-3.0-generate-001"; "veo-2.0-generate-001"] [] tt op_pending tt).
  - reflexivity.
  - reflexivity.
  - reflexivity.
  - apply (all_raise_nil (E := env_stuck)).
  - reflexivity.
  - apply stays_pending_stuck.
Defined.

(** C1. In every reachable state, running any scheduled background task
    returns normally and leaves its job in status ready or error with a
    non-empty output locator, which a caller reading the job under its id
    then sees; and every stored job that is still generating has its task
    scheduled. *)
Theorem background_work_reaches_terminal `{E : Env} (s : State E) :
  reachable s ->
  (forall i t,
     tasks s !! i = Some t ->
     let r := _run_veo_job t (with_tasks (delete i (tasks s)) s) in
     fst r = Ok tt /\
     exists j',
       heap (snd r) !! t_job t = Some j' /\
       (status j' = ready \/ status j' = error) /\
       truthy (video_url j') = true /\
       forall jid, get_job jid s = Some (t_job t) -> read_job jid (snd r) = Some j') /\
  (forall jid j,
     read_job jid s = Some j -> status j = generating ->
     exists i t, tasks s !! i = Some t /\ get_job jid s = Some (t_job t)).
Proof.
  intros Hreach. pose proof (reachable_Inv s Hreach) as HI. split.
  - intros i t Hi r. subst r.
    assert (Hin : t ∈ tasks s) by (apply list_elem_of_lookup; eauto).
    destruct (inv_pending s HI t Hin) as (j & Hj & _).
    destruct (run_veo_job_spec t (with_tasks (delete i (tasks s)) s) j Hj)
      as (Hr & evs & j' & Hfr & Hh & Hfin & _).
    split; [exact Hr|]. exists j'.
    assert (Hl : heap (snd (_run_veo_job t (with_tasks (delete i (tasks s)) s)))
                 !! t_job t = Some j').
    { rewrite Hh. apply list_lookup_insert_eq. eapply lookup_lt_Some, Hj. }
    split; [exact Hl|]. split; [destruct Hfin; simpl; auto|].
    split; [destruct Hfin; reflexivity|].
    intros jid Hget. unfold read_job, get_job in *.
    rewrite (fr_jobs _ _ _ Hfr). simpl. rewrite Hget. exact Hl.
  - intros jid j Hr Hgen. apply read_job_Some in Hr as (l & Hl & Hj).
    destruct (inv_job s HI l j Hj) as (_ & Hok). rewrite Hgen in Hok.
    destruct Hok as (_ & _ & _ & Hpend).
    apply list_elem_of_fmap in Hpend as (t & -> & Ht).
    apply list_elem_of_lookup in Ht as (i & Hi).
    exists i, t. split; [exact Hi|exact Hl].
Qed.

Lemma background_work_reaches_terminal_witness :
  let s := submitted env_quota tt in
  let r := _run_veo_job task1 (with_tasks (delete 0%nat (tasks s)) s) in
  fst r = Ok tt /\
  exists j',
    heap (snd r) !! 0%nat = Some j' /\
    (status j' = ready \/ status j' = error) /\
    truthy (video_url j') = true /\
    forall jid, get_job jid s = Some 0%nat -> read_job jid (snd r) = Some j'.
Proof.
  apply (proj1 (background_work_reaches_terminal (E := env_quota)
                  (submitted env_quota tt) (reachable_submitted env_quota tt))
           0%nat task1).
  reflexivity.
Defined.

(** C2 as stated fails: after a run in which every model is out of quota
    the job is in status error and its output locator is set. *)
Lemma error_job_has_locator :
  let s := settled env_quota tt in
  reachable s /\
  exists j, read_job jid1 s = Some j /\ status j = error /\
            video_url j = Some MOCK_VIDEO_URL /\
            ~ (status j = ready <-> is_Some (video_url j)).
Proof.
  split; [apply reachable_settled|].
  exists (failed_job "No Veo model available or all failed. Last error: 429 quota exceeded"
            (new_VeoJob jid1 MOCK_ANALYTICS 100)).
  split; [reflexivity|]. split; [reflexivity|]. split; [reflexivity|].
  simpl. intros [_ H]. discriminate H. eauto.
Qed.

(** C2, amended.  At every point of the process, the writes of the
    background runs in progress included, a job record in a terminal state
    has its output locator set: a ready job has a non-empty locator and a
    job in status error has the substitute locator. *)
Theorem terminal_job_has_locator `{E : Env} (s : State E) (thr : list (Task * point))
    (l : nat) (j : VeoJob) :
  interleaved s thr -> heap s !! l = Some j ->
  (status j = ready -> truthy (video_url j) = true) /\
  (status j = error -> video_url j = Some MOCK_VIDEO_URL).
Proof.
  intros Hil Hj.
  destruct (interleaved_record_shape s thr l j Hil Hj) as (_ & Hs).
  unfold record_shape in Hs. split; intros Hst; rewrite Hst in Hs.
  - destruct Hs as (_ & [(-> & _)|(-> & _)]); reflexivity.
  - now destruct Hs as (-> & _).
Qed.

Lemma terminal_job_has_locator_witness :
  let j := failed_job "No Veo model available or all failed. Last error: 429 quota exceeded"
             (new_VeoJob jid1 MOCK_ANALYTICS 100) in
  (status j = ready -> truthy (video_url j) = true) /\
  (status j = error -> video_url j = Some MOCK_VIDEO_URL).
Proof.
  apply (terminal_job_has_locator (E := env_quota) (settled env_quota tt) [] 0%nat).
  - apply reachable_interleaved, reachable_settled.
  - reflexivity.
Defined.

Lemma step_heap_frozen `{E : Env} (s s' : State E) (l : nat) (j : VeoJob) :
  Inv s -> step s s' -> heap s !! l = Some j -> status j <> generating ->
  heap s' !! l = Some j.
Proof.
  intros HI Hstep Hj Hterm. destruct Hstep as [s jid now img mime a _|s i t Hi|s now max_age|s F].
  - destruct (generate_video_spec jid now img mime a s) as (_ & _ & Hcase).
    destruct Hcase as [(_ & _ & Hh & _)|(_ & _ & Hh & _)];
      rewrite Hh; now apply lookup_app_l_Some.
  - assert (Hin : t ∈ tasks s) by (apply list_elem_of_lookup; eauto).
    destruct (inv_pending s HI t Hin) as (j0 & Hj0 & Hgen).
    destruct (run_veo_job_spec t (with_tasks (delete i (tasks s)) s) j0 Hj0)
      as (_ & evs & j' & _ & Hh & _).
    rewrite Hh. simpl. rewrite list_lookup_insert_ne; [exact Hj|].
    intros Heq. rewrite Heq, Hj in Hj0. injection Hj0 as <-. contradiction.
  - destruct (cleanup_old_jobs_spec now max_age s (Inv_store_closed s HI))
      as (_ & Hh & _). now rewrite Hh.
  - exact Hj.
Qed.

(** C7. In every reachable state a job record either is generating and its
    status has never been written, or is ready or error and its status has
    been written exactly once, with that value; once it is ready or error no
    operation of the service changes the record or writes its status again.
    Objects that do not exist yet have had no write. *)
Theorem status_monotonic `{E : Env} (s : State E) (l : nat) (j : VeoJob) :
  reachable s -> heap s !! l = Some j ->
  (status j = generating /\ status_writes l (trace s) = [] \/
   (status j = ready \/ status j = error) /\ status_writes l (trace s) = [status j]) /\
  (forall s', step s s' -> status j <> generating ->
     heap s' !! l = Some j /\ status_writes l (trace s') = [status j]) /\
  (forall l', (length (heap s) <= l')%nat -> status_writes l' (trace s) = []).
Proof.
  intros Hreach Hj. pose proof (reachable_Inv s Hreach) as HI.
  assert (Hnow : forall (s0 : State E) j0, Inv s0 -> heap s0 !! l = Some j0 ->
            status j0 = generating /\ status_writes l (trace s0) = [] \/
            (status j0 = ready \/ status j0 = error) /\
            status_writes l (trace s0) = [status j0]).
  { intros s0 j0 HI0 Hj0. destruct (inv_job s0 HI0 l j0 Hj0) as (_ & Hok).
    destruct (status j0).
    - left. now destruct Hok as (_ & _ & Hw & _).
    - right. destruct Hok as (_ & _ & Hw & _). auto.
    - right. destruct Hok as (_ & _ & _ & Hw & _). auto. }
  split; [now apply Hnow|]. split; [|apply (inv_fresh s HI)].
  intros s' Hstep Hterm.
  pose proof (step_heap_frozen s s' l j HI Hstep Hj Hterm) as Hj'.
  split; [exact Hj'|].
  destruct (Hnow s' j (Inv_step s s' HI Hstep) Hj') as [[Hgen _]|[_ Hw]];
    [contradiction|exact Hw].
Qed.

Lemma status_monotonic_witness :
  let s := settled env_quota tt in
  let j := failed_job "No Veo model available or all failed. Last error: 429 quota exceeded"
             (new_VeoJob jid1 MOCK_ANALYTICS 100) in
  (status j = generating /\ status_writes 0 (trace s) = [] \/
   (status j = ready \/ status j = error) /\ status_writes 0 (trace s) = [status j]) /\
  (forall s', step s s' -> status j <> generating ->
     heap s' !! 0%nat = Some j /\ status_writes 0 (trace s') = [status j]) /\
  (forall l', (length (heap s) <= l')%nat -> status_writes l' (trace s) = []).
Proof.
  apply (status_monotonic (E := env_quota) (settled env_quota tt) 0%nat).
  - apply reachable_settled.
  - reflexivity.
Defined.

(** C9 as stated fails: [get_video_path] does not look at the status.  In
    the scenario of [env_last], when the thread has saved the video and
    written [job.video_path] and has not yet written [job.status], the job is
    generating and [get_video_path] returns the path of the file. *)
Lemma path_served_while_generating :
  let p := "/tmp/agribot_videos/123e4567-e89b-42d3-a456-426614174000.mp4" in
  let j := with_video_path (Some p) (new_VeoJob jid1 MOCK_ANALYTICS 100) in
  interleaved path_written [(task1, AtUrl jid1)] /\
  read_job jid1 path_written = Some j /\ status j = generating /\
  p ∈ files path_written /\
  get_video_path jid1 path_written = Some p /\
  ~ (get_video_path jid1 path_written = Some p ->
     exists j', read_job jid1 path_written = Some j' /\ status j' = ready).
Proof.
  cbv zeta. split; [exact interleaved_path_written|].
  assert (Hr : read_job jid1 path_written
               = Some (with_video_path
                         (Some "/tmp/agribot_videos/123e4567-e89b-42d3-a456-426614174000.mp4")
                         (new_VeoJob jid1 MOCK_ANALYTICS 100)))
    by (vm_compute; reflexivity).
  assert (Hg : get_video_path jid1 path_written
               = Some "/tmp/agribot_videos/123e4567-e89b-42d3-a456-426614174000.mp4")
    by (vm_compute; reflexivity).
  split; [exact Hr|]. split; [reflexivity|].
  split; [vm_compute; reflexivity|]. split; [exact Hg|].
  intros H. destruct (H Hg) as (j' & Hr' & Hst).
  rewrite Hr in Hr'. injection Hr' as <-. discriminate Hst.
Qed.

(** C9, amended.  At every point of the process [get_video_path] returns a
    path exactly when a record is stored under the id, the record has a
    recorded path and the file exists; in every other case it returns
    [None].  The status is not tested: a recorded path is the path of the
    job's file, and its job is ready or is still generating with its thread
    about to write the locator and the status; it is never in status
    error. *)
Theorem get_video_path_iff_recorded `{E : Env} (s : State E)
    (thr : list (Task * point)) (jid p : string) :
  interleaved s thr ->
  (get_video_path jid s = Some p <->
   exists j, read_job jid s = Some j /\ video_path j = Some p /\ p ∈ files s) /\
  (forall j, read_job jid s = Some j -> video_path j = Some p ->
     p = video_file_path jid /\
     (status j = ready \/
      status j = generating /\
      exists t q, (t, q) ∈ thr /\ get_job jid s = Some (t_job t) /\
                  (q = AtUrl jid \/ q = AtStatus))).
Proof.
  intros Hil. pose proof (interleaved_TInv s thr Hil) as HI.
  assert (Hrec : forall j, read_job jid s = Some j -> video_path j = Some p ->
            is_uuid4_str jid = true /\ p = video_file_path jid /\
            (status j = ready \/
             status j = generating /\
             exists t q, (t, q) ∈ thr /\ get_job jid s = Some (t_job t) /\
                         (q = AtUrl jid \/ q = AtStatus))).
  { intros j Hr Hp. apply read_job_Some in Hr as (l & Hl & Hj).
    destruct (tinv_store s thr HI jid l Hl) as (j0 & Hj0 & Hid).
    rewrite Hj in Hj0. injection Hj0 as <-.
    destruct (TInv_cases s thr l j HI Hj) as (Hu & Hc). rewrite Hid in Hu.
    split; [exact Hu|].
    destruct Hc as [Hun|[(t & q & Hin & Ht & Hs)|Hs]].
    - destruct Hun as (_ & _ & Hnone & _). congruence.
    - assert (Hgo : forall q', q = q' -> (q' = AtUrl jid \/ q' = AtStatus) ->
                status j = generating ->
                status j = ready \/
                status j = generating /\
                exists t q, (t, q) ∈ thr /\ get_job jid s = Some (t_job t) /\
                            (q = AtUrl jid \/ q = AtStatus)).
      { intros q' -> Hq Hst. right. split; [exact Hst|]. exists t, q'.
        unfold get_job. rewrite Ht. auto. }
      destruct q; simpl in Hs; unfold untouched in Hs;
        repeat match goal with H : _ /\ _ |- _ => destruct H end;
        try congruence.
      + subst. split; [congruence|]. eapply Hgo; eauto.
      + split; [congruence|]. eapply Hgo; eauto.
      + match goal with H : _ \/ _ |- _ => destruct H as [(_ & Hn)|(_ & Hv & _)] end;
          [congruence|]. split; [congruence|auto].
    - unfold settled_shape in Hs. destruct (status j); [contradiction| |].
      + destruct Hs as (_ & [(_ & Hn)|(_ & Hv & _)]); [congruence|].
        split; [congruence|auto].
      + destruct Hs as (_ & Hn & _). congruence. }
  split; [|intros j Hr Hp; now destruct (Hrec j Hr Hp)].
  unfold get_video_path. split.
  - destruct (read_job jid s) as [j|] eqn:Hr; [|discriminate].
    destruct (truthy (video_path j)) eqn:Ht; [|discriminate]. simpl.
    destruct (bool_decide (or_empty (video_path j) ∈ files s)) eqn:Hex; [|discriminate].
    intros Hp. apply bool_decide_eq_true in Hex. rewrite Hp in Hex. simpl in Hex.
    exists j. auto.
  - intros (j & Hr & Hp & Hin). rewrite Hr.
    destruct (Hrec j Hr Hp) as (Hu & -> & _).
    rewrite Hp, (video_file_path_truthy _ Hu). simpl.
    now rewrite bool_decide_eq_true_2.
Qed.

Lemma get_video_path_iff_recorded_witness :
  let p := "/tmp/agribot_videos/123e4567-e89b-42d3-a456-426614174000.mp4" in
  (get_video_path jid1 path_written = Some p <->
   exists j, read_job jid1 path_written = Some j /\ video_path j = Some p /\
             p ∈ files path_written) /\
  (forall j, read_job jid1 path_written = Some j -> video_path j = Some p ->
     p = video_file_path (E := env_last) jid1 /\
     (status j = ready \/
      status j = generating /\
      exists t q, (t, q) ∈ [(task1, AtUrl jid1)] /\
                  get_job jid1 path_written = Some (t_job t) /\
                  (q = AtUrl jid1 \/ q = AtStatus))).
Proof.
  apply (get_video_path_iff_recorded (E := env_last) path_written
           [(task1, AtUrl jid1)] jid1
           "/tmp/agribot_videos/123e4567-e89b-42d3-a456-426614174000.mp4").
  exact interleaved_path_written.
Defined.

Lemma artifact_Some `{E : Env} (s : State E) (jid p : string) :
  artifact s jid = Some p ->
  exists j, read_job jid s = Some j /\ video_path j = Some p.
Proof.
  unfold artifact. destruct (read_job jid s) as [j|]; [|discriminate].
  destruct (truthy (video_path j)); [|discriminate]. eauto.
Qed.

(** C8. In every reachable state [cleanup_old_jobs] returns normally,
    removes from the store exactly the records with
    [now - created_at > max_age_seconds], leaves every record object as it
    is, deletes the recorded artifact of every removed record, and leaves
    every other file alone: in particular the artifact of a record that stays
    exists afterwards exactly if it existed before. *)
Theorem sweep_removes_exactly_expired `{E : Env} (s : State E) (now max_age : Z) :
  reachable s ->
  let r := cleanup_old_jobs now max_age s in
  fst r = Ok tt /\
  heap (snd r) = heap s /\
  (forall jid j, read_job jid s = Some j -> now - created_at j > max_age ->
     read_job jid (snd r) = None) /\
  (forall jid j, read_job jid s = Some j -> ~ now - created_at j > max_age ->
     read_job jid (snd r) = Some j) /\
  (forall jid, read_job jid s = None -> read_job jid (snd r) = None) /\
  (forall jid j p, read_job jid s = Some j -> now - created_at j > max_age ->
     video_path j = Some p -> p ∉ files (snd r)) /\
  (forall jid j p, read_job jid s = Some j -> ~ now - created_at j > max_age ->
     video_path j = Some p -> (p ∈ files (snd r) <-> p ∈ files s)) /\
  (forall p, p ∈ files (snd r) -> p ∈ files s) /\
  (forall p, p ∈ files s ->
     (forall jid j, read_job jid s = Some j -> now - created_at j > max_age ->
        video_path j <> Some p) ->
     p ∈ files (snd r)).
Proof.
  intros Hreach r. subst r. pose proof (reachable_Inv s Hreach) as HI.
  destruct (cleanup_old_jobs_spec now max_age s (Inv_store_closed s HI))
    as (Hr & Hh & _ & _ & _ & _ & Hjobs & Hfiles).
  set (s' := snd (cleanup_old_jobs now max_age s)) in *.
  assert (Hkeep : forall jid, ~ is_expired now max_age s jid ->
            read_job jid s' = read_job jid s).
  { intros jid Hne. unfold read_job, get_job.
    now rewrite (proj2 (Hjobs jid) Hne), Hh. }
  assert (Hstay : forall p, p ∈ files s ->
            (forall jid j, read_job jid s = Some j -> now - created_at j > max_age ->
               video_path j <> Some p) -> p ∈ files s').
  { intros p Hp Hno. apply Hfiles. split; [exact Hp|].
    intros jid (j & Hrj & Hage) Hart.
    apply artifact_Some in Hart as (j1 & Hrj1 & Hpath).
    rewrite Hrj in Hrj1. injection Hrj1 as <-. exact (Hno jid j Hrj Hage Hpath). }
  split; [exact Hr|]. split; [exact Hh|].
  split; [|split; [|split; [|split; [|split; [|split]]]]].
  - intros jid j Hrj Hage. unfold read_job, get_job.
    rewrite (proj1 (Hjobs jid)); [reflexivity|]. exists j. auto.
  - intros jid j Hrj Hage. rewrite Hkeep; [exact Hrj|].
    intros (j1 & Hrj1 & Hage1). rewrite Hrj in Hrj1. injection Hrj1 as <-.
    contradiction.
  - intros jid Hrj. rewrite Hkeep; [exact Hrj|].
    intros (j1 & Hrj1 & _). congruence.
  - intros jid j p Hrj Hage Hpath Hin.
    apply Hfiles in Hin as [_ Hall]. apply (Hall jid); [exists j; auto|].
    unfold artifact. rewrite Hrj.
    apply read_job_Some in Hrj as (l & _ & Hj).
    destruct (Inv_path s l j p HI Hj Hpath) as (_ & -> & Hu).
    now rewrite Hpath, (video_file_path_truthy _ Hu).
  - intros jid j p Hrj Hage Hpath. split; [intros Hin; now apply Hfiles in Hin|].
    intros Hin. apply Hstay; [exact Hin|].
    intros jid' j' Hrj' Hage' Hpath'.
    pose proof Hrj as Hx. apply read_job_Some in Hx as (l & Hl & Hj).
    pose proof Hrj' as Hx'. apply read_job_Some in Hx' as (l' & Hl' & Hj').
    destruct (Inv_path s l j p HI Hj Hpath) as (_ & Hp & Hu).
    destruct (Inv_path s l' j' p HI Hj' Hpath') as (_ & Hp' & Hu').
    destruct (inv_store s HI jid l Hl) as (j0 & Hj0 & Hid).
    destruct (inv_store s HI jid' l' Hl') as (j0' & Hj0' & Hid').
    rewrite Hj in Hj0. injection Hj0 as <-.
    rewrite Hj' in Hj0'. injection Hj0' as <-.
    assert (Heq : job_id j = job_id j').
    { apply video_file_path_inj; congruence. }
    rewrite Hid, Hid' in Heq. rewrite <- Heq in Hrj'.
    rewrite Hrj in Hrj'. injection Hrj' as <-. contradiction.
  - intros p Hin. now apply Hfiles in Hin.
  - exact Hstay.
Qed.

Lemma sweep_removes_exactly_expired_witness :
  let s := settled env_last tt in
  let r := cleanup_old_jobs 1000 800 s in
  fst r = Ok tt /\
  heap (snd r) = heap s /\
  (forall jid j, read_job jid s = Some j -> 1000 - created_at j > 800 ->
     read_job jid (snd r) = None) /\
  (forall jid j, read_job jid s = Some j -> ~ 1000 - created_at j > 800 ->
     read_job jid (snd r) = Some j) /\
  (forall jid, read_job jid s = None -> read_job jid (snd r) = None) /\
  (forall jid j p, read_job jid s = Some j -> 1000 - created_at j > 800 ->
     video_path j = Some p -> p ∉ files (snd r)) /\
  (forall jid j p, read_job jid s = Some j -> ~ 1000 - created_at j > 800 ->
     video_path j = Some p -> (p ∈ files (snd r) <-> p ∈ files s)) /\
  (forall p, p ∈ files (snd r) -> p ∈ files s) /\
  (forall p, p ∈ files s ->
     (forall jid j, read_job jid s = Some j -> 1000 - created_at j > 800 ->
        video_path j <> Some p) ->
     p ∈ files (snd r)).
Proof.
  apply (sweep_removes_exactly_expired (E := env_last) (settled env_last tt) 1000 800).
  apply reachable_settled.
Defined.

(** The sweep on the scenario: the record of age 900 and its file go when
    the limit is 800 and stay when it is 900. *)
Example sweep_scenario :
  let s := settled env_last tt in
  elements (files s) = ["/tmp/agribot_videos/123e4567-e89b-42d3-a456-426614174000.mp4"] /\
  read_job jid1 (snd (cleanup_old_jobs 1000 800 s)) = None /\
  elements (files (snd (cleanup_old_jobs 1000 800 s))) = [] /\
  read_job jid1 (snd (cleanup_old_jobs 1000 900 s)) = read_job jid1 s /\
  elements (files (snd (cleanup_old_jobs 1000 900 s))) = elements (files s).
Proof.
  split; [vm_compute; reflexivity|]. split; [vm_compute; reflexivity|].
  split; [vm_compute; reflexivity|]. split; [vm_compute; reflexivity|].
  vm_compute; reflexivity.
Qed.

(** With two stored jobs of ages 900 and 500 and a limit of 800, the sweep
    drops the first record and its file and keeps the second record and its
    file. *)
Example sweep_two_jobs :
  let r := cleanup_old_jobs 1000 800 two_jobs in
  elements (files two_jobs)
  = ["/tmp/agribot_videos/123e4567-e89b-42d3-a456-426614174000.mp4";
     "/tmp/agribot_videos/0f8fad5b-d9cb-469f-a165-70867728950e.mp4"] /\
  fst r = Ok tt /\
  read_job jid1 (snd r) = None /\
  read_job jid2 (snd r) = read_job jid2 two_jobs /\
  (status <$> read_job jid2 (snd r)) = Some ready /\
  elements (files (snd r))
  = ["/tmp/agribot_videos/0f8fad5b-d9cb-469f-a165-70867728950e.mp4"] /\
  get_video_path jid1 (snd r) = None /\
  get_video_path jid2 (snd r)
  = Some "/tmp/agribot_videos/0f8fad5b-d9cb-469f-a165-70867728950e.mp4".
Proof.
  split; [vm_compute; reflexivity|]. split; [vm_compute; reflexivity|].
  split; [vm_compute; reflexivity|]. split; [vm_compute; reflexivity|].
  split; [vm_compute; reflexivity|]. split; [vm_compute; reflexivity|].
  split; vm_compute; reflexivity.
Qed.

(** C10 fails on the code: the scores of the response are stored as they
    come.  A response with [risk_score] 150 and [sustainability_score] -5
    yields analytics with these values, whatever the other conversions
    do. *)
Theorem analysis_scores_not_clamped
    (float_conv : pyval -> outcome float) (int_conv : pyval -> outcome Z)
    (str_conv : pyval -> string) (c : GenaiClient) :
  let data := VDict (<["risk_score" := VInt 150]>
                       (<["sustainability_score" := VInt (-5)]> ∅)) in
  let a := fst (_analyze_image_sync float_conv int_conv str_conv
                  (Some c) (Ok data) MOCK_ANALYTICS) in
  is_mock a = false /\
  risk_score a = 150 /\ sustainability_score a = -5 /\
  ~ (0 <= risk_score a <= 100) /\ ~ (0 <= sustainability_score a <= 100).
Proof.
  vm_compute. repeat split; try reflexivity; intros [H1 H2]; congruence.
Qed.

(** * Further properties *)

(** ** Submitting with a client, the store and the client cache *)

(** X1. If a capability client is available, [generate_video] returns the
    job id without a locator, stores a generating record without locator or
    path under the id, and schedules exactly one task, for that record and
    with the request's image and analytics; no status is written. *)
Theorem submit_schedules_one_task `{E : Env} (s : State E) (jid : string) (now : Z)
    (img : list Byte.byte) (mime : string) (a : FieldAnalytics) :
  ~ client_absent s ->
  let r := generate_video jid now img mime a s in
  fst r = Ok (jid, None) /\
  read_job jid (snd r) = Some (new_VeoJob jid a now) /\
  (exists t, tasks (snd r) = tasks s ++ [t] /\
             get_job jid (snd r) = Some (t_job t) /\
             t_image_bytes t = img /\ t_mime_type t = mime /\ t_analytics t = a) /\
  drop (length (trace s)) (trace (snd r)) = [EvCreateTask (length (heap s))].
Proof.
  intros Hcl r. subst r.
  destruct (generate_video_spec jid now img mime a s) as (Hjobs & _ & Hcase).
  destruct Hcase as [(Habs & _)|(_ & Hr & Hh & (c & Ht) & Htr)]; [contradiction|].
  split; [exact Hr|]. split; [|split].
  - unfold read_job, get_job. rewrite Hjobs, lookup_insert_eq, Hh.
    now apply list_lookup_middle.
  - eexists. split; [exact Ht|]. unfold get_job.
    rewrite Hjobs, lookup_insert_eq. repeat split.
  - now rewrite Htr, drop_app_length.
Qed.

Lemma submit_schedules_one_task_witness :
  let r := generate_video (E := env_quota) jid1 100 [] "image/png" MOCK_ANALYTICS
             (fresh_state (E := env_quota) tt ∅) in
  fst r = Ok (jid1, None) /\
  read_job jid1 (snd r) = Some (new_VeoJob jid1 MOCK_ANALYTICS 100) /\
  (exists t, tasks (snd r) = [] ++ [t] /\
             get_job jid1 (snd r) = Some (t_job t) /\
             t_image_bytes t = [] /\ t_mime_type t = "image/png" /\
             t_analytics t = MOCK_ANALYTICS) /\
  drop 0 (trace (snd r)) = [EvCreateTask 0].
Proof.
  apply (submit_schedules_one_task (E := env_quota)
           (fresh_state (E := env_quota) tt ∅)).
  intros [_ [H|(e & b & H)]]; discriminate H.
Defined.

(** X2. In a reachable state, after [generate_video] the record read under
    the new id is the new one, whatever was stored under that id before, and
    the record read under any other id is the same as before. *)
Theorem submit_store_lookup `{E : Env} (s : State E) (jid : string) (now : Z)
    (img : list Byte.byte) (mime : string) (a : FieldAnalytics) :
  reachable s ->
  let s' := snd (generate_video jid now img mime a s) in
  (exists j, read_job jid s' = Some j /\ job_id j = jid /\ created_at j = now /\
             analytics j = Some a /\ video_path j = None) /\
  (forall jid', jid' <> jid -> read_job jid' s' = read_job jid' s).
Proof.
  intros Hreach s'. subst s'. pose proof (reachable_Inv s Hreach) as HI.
  destruct (generate_video_spec jid now img mime a s) as (Hjobs & _ & Hcase).
  assert (Hh : exists jn, heap (snd (generate_video jid now img mime a s)) = heap s ++ [jn] /\
             job_id jn = jid /\ created_at jn = now /\ analytics jn = Some a /\
             video_path jn = None).
  { destruct Hcase as [(_ & _ & Hh & _)|(_ & _ & Hh & _)];
      eexists; (split; [exact Hh|repeat split]). }
  destruct Hh as (jn & Hh & Hjn). split.
  - exists jn. split; [|exact Hjn]. unfold read_job, get_job.
    rewrite Hjobs, lookup_insert_eq, Hh. now apply list_lookup_middle.
  - intros jid' Hne. unfold read_job, get_job.
    rewrite Hjobs, lookup_insert_ne by auto.
    destruct (_jobs s !! jid') as [l|] eqn:Hl; [|reflexivity].
    destruct (inv_store s HI _ _ Hl) as (j & Hj & _).
    rewrite Hh, Hj. now apply lookup_app_l_Some.
Qed.

Lemma submit_store_lookup_witness :
  let s' := snd (generate_video (E := env_last) jid2 500 [] "image/png" MOCK_ANALYTICS
                   (settled env_last tt)) in
  (exists j, read_job jid2 s' = Some j /\ job_id j = jid2 /\ created_at j = 500 /\
             analytics j = Some MOCK_ANALYTICS /\ video_path j = None) /\
  (forall jid', jid' <> jid2 -> read_job jid' s' = read_job jid' (settled env_last tt)).
Proof.
  apply (submit_store_lookup (E := env_last) (settled env_last tt)).
  apply reachable_settled.
Defined.

Lemma get_client_cases `{E : Env} (s : State E) :
  (exists c, _client s = Some c /\ _get_client s = (Ok (Some c), s)) \/
  (_client s = None /\ truthy gemini_api_key = false /\ _get_client s = (Ok None, s)) \/
  (_client s = None /\ truthy gemini_api_key = true /\
   exists e b, genai_Client (or_empty gemini_api_key) (backend s) = (Raise e, b) /\
               _get_client s = (Ok None, with_backend b s)) \/
  (_client s = None /\ truthy gemini_api_key = true /\
   exists c b, genai_Client (or_empty gemini_api_key) (backend s) = (Ok c, b) /\
               _get_client s = (Ok (Some c), with_client (Some c) (with_backend b s))).
Proof.
  unfold _get_client. destruct (_client s) as [c|] eqn:Hc; [left; eauto|].
  destruct (truthy gemini_api_key) eqn:Hk; [|right; left; auto].
  unfold try_except, bind, call, ret.
  destruct (genai_Client (or_empty gemini_api_key) (backend s)) as [[c|e] b] eqn:Hg.
  - right. right. right. simpl. eauto 10.
  - right. right. left. simpl. eauto 10.
Qed.

(** X3. [_get_client] never raises and touches nothing but the cached
    client and the backend.  A cached client is returned without any call;
    a client that was constructed is cached, so that the next call returns it
    and changes nothing; a failed construction caches nothing. *)
Theorem get_client_caches `{E : Env} (s : State E) :
  (exists oc s1, _get_client s = (Ok oc, s1) /\
     heap s1 = heap s /\ _jobs s1 = _jobs s /\ tasks s1 = tasks s /\
     files s1 = files s /\ trace s1 = trace s /\
     (_client s1 = oc \/ oc = None /\ _client s1 = _client s)) /\
  (forall c, _client s = Some c -> _get_client s = (Ok (Some c), s)) /\
  (forall c s1, _get_client s = (Ok (Some c), s1) ->
     _client s1 = Some c /\ _get_client s1 = (Ok (Some c), s1)) /\
  (forall s1, _get_client s = (Ok None, s1) -> _client s1 = None).
Proof.
  destruct (get_client_cases s)
    as [(c & Hc & Hg)|[(Hc & Hk & Hg)|[(Hc & Hk & e & b & Hb & Hg)|(Hc & Hk & c & b & Hb & Hg)]]];
    rewrite Hg.
  - split; [exists (Some c), s; repeat split; auto|].
    split; [intros c' Hc'; congruence|].
    split; [|discriminate].
    intros c' s1 [= <- <-]. split; [exact Hc|exact Hg].
  - split; [exists None, s; repeat split; auto|].
    split; [intros c' Hc'; congruence|].
    split; [discriminate|]. now intros s1 [= <-].
  - split; [exists None, (with_backend b s); repeat split; auto|].
    split; [intros c' Hc'; congruence|].
    split; [discriminate|]. now intros s1 [= <-].
  - split; [exists (Some c), (with_client (Some c) (with_backend b s)); repeat split; auto|].
    split; [intros c' Hc'; congruence|].
    split; [|discriminate].
    intros c' s1 [= <- <-]. split; [reflexivity|]. reflexivity.
Qed.

Lemma get_client_caches_witness :
  let s1 := with_client (Some {| api_key := "key" |})
              (fresh_state (E := env_quota) tt ∅) in
  _client s1 = Some {| api_key := "key" |} /\
  _get_client (E := env_quota) s1 = (Ok (Some {| api_key := "key" |}), s1).
Proof.
  apply (proj1 (proj2 (proj2 (get_client_caches (E := env_quota)
                                (fresh_state (E := env_quota) tt ∅))))
           {| api_key := "key" |}).
  reflexivity.
Defined.

(** ** The poll loop and the courses of a run *)

Section MoreCourses.
Context `{E : Env}.

Lemma poll_completes k : forall n op (s : State E) op' b',
  completes k op (backend s) op' b' -> (k <= n)%nat ->
  exists ops, length ops = k /\
    poll n op s = (Ok op', ext s b' (wait_events ops)) /\ done op' = true.
Proof.
  induction k as [|k IH]; intros n op s op' b' Hc Hle;
    inversion Hc as [? ? Hd|? ? ? op1 b1 ? ? Hd Hget Hrest]; subst.
  - exists []. split; [reflexivity|]. split; [|exact Hd].
    destruct n; simpl; [|rewrite Hd]; unfold ret; now rewrite ext_id.
  - destruct n as [|n]; [lia|]. simpl. rewrite Hd.
    unfold bind, sleep, log, call. simpl. rewrite Hget.
    match goal with |- context [poll n op1 ?s1] =>
      destruct (IH n op1 s1 op' b' Hrest ltac:(lia)) as (ops & Hlen & Hp & Hd') end.
    exists (op :: ops). rewrite Hp. split; [simpl; now rewrite Hlen|].
    split; [|exact Hd'].
    f_equal. apply state_eq; simpl; try reflexivity. now rewrite <- !app_assoc.
Qed.

Lemma wp_poll_completes k n op (s : State E) op' b' Q :
  completes k op (backend s) op' b' -> (k <= n)%nat ->
  (forall ops, length ops = k -> Q (Ok op') (ext s b' (wait_events ops))) ->
  wp (poll n op) s Q.
Proof.
  intros Hc Hle HQ. unfold wp.
  destruct (poll_completes k n op s op' b' Hc Hle) as (ops & Hlen & -> & _).
  now apply HQ.
Qed.

Lemma append_truthy (a b : string) :
  truthy (Some b) = true -> truthy (Some (a +:+ b)) = true.
Proof. destruct a; [intros H; exact H|reflexivity]. Qed.

Lemma video_file_path_nonempty (jid : string) :
  truthy (Some (video_file_path jid)) = true.
Proof.
  assert (Hb : truthy (Some (jid +:+ ".mp4")) = true) by (now destruct jid).
  unfold video_file_path, path_join.
  destruct (String.prefix "/" (jid +:+ ".mp4")); [exact Hb|].
  destruct (String.eqb VIDEO_DIR "" || ends_with_sep VIDEO_DIR)%bool.
  - now apply append_truthy.
  - apply append_truthy. reflexivity.
Qed.

End MoreCourses.

(** The steps of a run up to the end of the poll loop, for a run whose
    import succeeds, whose candidate [m] returns a handle and whose handle
    completes after [k] refreshes. *)
Ltac run_to_poll Hi Hms Hall Hm Hc Hk ops Hlen :=
  apply wp_run; unfold _run_veo_job; apply wp_try_except;
  unfold _run_veo_sync; apply wp_bind, wp_call;
  let r := fresh "r" in let b := fresh "b" in let Hr := fresh "Hr" in
  intros r b Hr; rewrite Hi in Hr; injection Hr as <- <-;
  apply wp_bind;
  eapply wp_start_first_found; [exact Hms|exact Hall|exact Hm|];
  apply wp_bind; eapply wp_poll_completes; [exact Hc|exact Hk|];
  intros ops Hlen.

Ltac run_result_facts Hj :=
  repeat split; simpl; rewrite <- ?app_assoc; try reflexivity;
  rewrite ?list_alter_alter_eq, ?(alter_at _ _ _ _ Hj); try reflexivity.

(** X4. The poll loop stops at the first handle that reports done: if the
    operation completes after [k] refreshes and [k] is at most the number of
    rounds, the loop returns the done handle after exactly [k] rounds of a
    sleep of 10 and a refresh; a handle that is done at the start is returned
    without sleeping or refreshing. *)
Theorem poll_stops_when_done `{E : Env} (k n : nat) (op : Operation) (s : State E)
    (op' : Operation) (b' : remote) :
  completes k op (backend s) op' b' -> (k <= n)%nat ->
  exists ops,
    poll n op s = (Ok op', ext s b' (wait_events ops)) /\
    length ops = k /\ done op' = true /\
    polled (wait_events ops) = ops /\ slept (wait_events ops) = replicate k 10 /\
    (k = 0%nat -> poll n op s = (Ok op, s)).
Proof.
  intros Hc Hle.
  destruct (poll_completes k n op s op' b' Hc Hle) as (ops & Hlen & Hp & Hd).
  exists ops. split; [exact Hp|]. split; [exact Hlen|]. split; [exact Hd|].
  split; [apply polled_wait_events|].
  split; [now rewrite slept_wait_events, Hlen|].
  intros ->. inversion Hc; subst. destruct ops; [|discriminate].
  rewrite Hp. now rewrite ext_id.
Qed.

Lemma poll_stops_when_done_witness :
  exists ops,
    poll (E := env_last) 42 op_pending (fresh_state (E := env_last) tt ∅)
    = (Ok op_finished, ext (fresh_state (E := env_last) tt ∅) tt (wait_events ops)) /\
    length ops = 1%nat /\ done op_finished = true /\
    polled (wait_events ops) = ops /\ slept (wait_events ops) = replicate 1 10 /\
    (1%nat = 0%nat ->
     poll (E := env_last) 42 op_pending (fresh_state (E := env_last) tt ∅)
     = (Ok op_pending, fresh_state (E := env_last) tt ∅)).
Proof.
  apply (poll_stops_when_done (E := env_last) 1 42 op_pending
           (fresh_state (E := env_last) tt ∅) op_finished tt).
  - apply (completes_S (E := env_last) 0 op_pending tt op_finished tt op_finished tt);
      [reflexivity|reflexivity|].
    apply (completes_O (E := env_last)). reflexivity.
  - lia.
Defined.

(** X5. If the import succeeds, a candidate returns a handle, the handle
    completes within 42 refreshes with at least one video, and the download
    and the save of the first video succeed, the run marks the job ready with
    the locator [/api/field-vision/video/<job id>] and the path of the saved
    file, the file exists, and [get_video_path] returns the path under every
    id the store holds for the job.  The other videos are not looked at. *)
Theorem run_saves_first_video `{E : Env} (t : Task) (s : State E) (j : VeoJob)
    b0 pre m post es b1 op b2 k op' b3 resp g gs b4 b5 :
  heap s !! t_job t = Some j ->
  genai_import (backend s) = (Ok tt, b0) ->
  veo_models = pre ++ m :: post ->
  all_raise (prompt_of (t_analytics t)) (image_of t) pre b0 es b1 ->
  generate_videos m (prompt_of (t_analytics t)) (image_of t) b1 = (Ok op, b2) ->
  completes k op b2 op' b3 -> (k <= 42)%nat ->
  response op' = Some resp -> generated_videos resp = g :: gs ->
  files_download (video g) b3 = (Ok tt, b4) ->
  video_save (video g) (video_file_path (job_id j)) b4 = (Ok tt, b5) ->
  exists s',
    _run_veo_job t s = (Ok tt, s') /\
    exists ops,
      length ops = k /\
      run_result s s' (t_job t) (saved_job j)
        ({[video_file_path (job_id j)]} ∪ files s)
        ((EvStart <$> pre ++ [m]) ++ wait_events ops ++
         [EvDownload (video g); EvSave (video g) (video_file_path (job_id j));
          EvStatus (t_job t) ready]) /\
      forall jid, get_job jid s = Some (t_job t) ->
        get_video_path jid s' = Some (video_file_path (job_id j)).
Proof.
  intros Hj Hi Hms Hall Hm Hc Hk Hresp Hgen Hdl Hsave.
  pose proof (poll_completes k 42 op (with_backend b2 s) op' b3 Hc Hk)
    as (_ & _ & _ & Hd).
  run_to_poll Hi Hms Hall Hm Hc Hk ops Hlen.
  rewrite Hd, Hresp, Hgen.
  apply wp_bind, wp_log. apply wp_bind, wp_call. intros r1 b Hr1.
  simpl in Hr1. rewrite Hdl in Hr1. injection Hr1 as <- <-.
  apply wp_bind, (wp_deref _ j); [exact Hj|].
  apply wp_bind, wp_save. intros r2 b Hr2.
  simpl in Hr2. rewrite Hsave in Hr2. injection Hr2 as <- <-.
  do 4 wp_step. apply wp_set_status.
  split; [reflexivity|]. exists ops. split; [exact Hlen|]. split.
  - run_result_facts Hj.
  - intros jid Hget. unfold get_video_path, read_job, get_job in *. simpl.
    rewrite Hget, !list_alter_alter_eq, (alter_at _ _ _ _ Hj).
    rewrite list_lookup_insert_eq by (eapply lookup_lt_Some, Hj).
    unfold compose. cbn [video_path with_status with_video_url with_video_path].
    rewrite video_file_path_nonempty. cbn [or_empty].
    rewrite bool_decide_eq_true_2; [reflexivity|]. set_solver.
Qed.

Lemma run_saves_first_video_witness :
  exists s',
    _run_veo_job (E := env_last) task1 (submitted env_last tt) = (Ok tt, s') /\
    exists ops,
      length ops = 1%nat /\
      run_result (submitted env_last tt) s' 0
        (saved_job (E := env_last) (new_VeoJob jid1 MOCK_ANALYTICS 100))
        ({[video_file_path (E := env_last) jid1]} ∪ ∅)
        ((EvStart <$> ["veo-3.1-generate-preview"; "veo-3.0-generate-001"]
                      ++ ["veo-2.0-generate-001"]) ++ wait_events ops ++
         [EvDownload {| uri := "files/1" |};
          EvSave {| uri := "files/1" |} (video_file_path (E := env_last) jid1);
          EvStatus 0 ready]) /\
      forall jid, get_job jid (submitted env_last tt) = Some 0%nat ->
        get_video_path jid s' = Some (video_file_path (E := env_last) jid1).
Proof.
  apply (run_saves_first_video (E := env_last) task1 (submitted env_last tt)
           (new_VeoJob jid1 MOCK_ANALYTICS 100) tt
           ["veo-3.1-generate-preview"; "veo-3.0-generate-001"]
           "veo-2.0-generate-001" []
           ["404 model not found: veo-3.1-generate-preview";
            "404 model not found: veo-3.0-generate-001"]
           tt op_pending tt 1 op_finished tt
           {| generated_videos := [ {| video := {| uri := "files/1" |} |} ] |}
           {| video := {| uri := "files/1" |} |} [] tt tt).
  - reflexivity.
  - reflexivity.
  - reflexivity.
  - repeat (eapply (all_raise_cons (E := env_last)); [reflexivity|]).
    apply (all_raise_nil (E := env_last)).
  - reflexivity.
  - apply (completes_S (E := env_last) 0 op_pending tt op_finished tt op_finished tt);
      [reflexivity|reflexivity|].
    apply (completes_O (E := env_last)). reflexivity.
  - lia.
  - reflexivity.
  - reflexivity.
  - reflexivity.
  - reflexivity.
Defined.

(** X6. If the handle completes within 42 refreshes but carries no
    response, the run fails the job with the message of the timeout although
    nothing timed out; if its response has no videos, the run fails the job
    with [Veo returned no videos].  In both cases the job gets the substitute
    locator, no file is created and nothing is downloaded. *)
Theorem run_without_videos `{E : Env} (t : Task) (s : State E) (j : VeoJob)
    b0 pre m post es b1 op b2 k op' b3 :
  heap s !! t_job t = Some j ->
  genai_import (backend s) = (Ok tt, b0) ->
  veo_models = pre ++ m :: post ->
  all_raise (prompt_of (t_analytics t)) (image_of t) pre b0 es b1 ->
  generate_videos m (prompt_of (t_analytics t)) (image_of t) b1 = (Ok op, b2) ->
  completes k op b2 op' b3 -> (k <= 42)%nat ->
  (response op' = None \/
   exists resp, response op' = Some resp /\ generated_videos resp = []) ->
  exists s',
    _run_veo_job t s = (Ok tt, s') /\
    exists ops,
      length ops = k /\
      run_result s s' (t_job t)
        (failed_job (match response op' with
                     | None => "Veo operation timed out"
                     | Some _ => "Veo returned no videos"
                     end) j)
        (files s)
        ((EvStart <$> pre ++ [m]) ++ wait_events ops ++ [EvStatus (t_job t) error]).
Proof.
  intros Hj Hi Hms Hall Hm Hc Hk Hcase.
  pose proof (poll_completes k 42 op (with_backend b2 s) op' b3 Hc Hk)
    as (_ & _ & _ & Hd).
  run_to_poll Hi Hms Hall Hm Hc Hk ops Hlen.
  rewrite Hd.
  destruct Hcase as [Hresp|(resp & Hresp & Hgen)]; rewrite Hresp; [|rewrite Hgen];
    apply wp_raise; apply wp_bind, wp_set_status; do 2 wp_step; apply wp_update_job;
    (split; [reflexivity|]); exists ops; (split; [exact Hlen|]);
    run_result_facts Hj.
Qed.

Lemma run_without_videos_witness :
  exists s',
    _run_veo_job (E := env_no_videos) task1 (submitted env_no_videos tt) = (Ok tt, s') /\
    exists ops,
      length ops = 1%nat /\
      run_result (submitted env_no_videos tt) s' 0
        (failed_job "Veo returned no videos" (new_VeoJob jid1 MOCK_ANALYTICS 100))
        ∅
        ((EvStart <$> [] ++ ["veo-3.1-generate-preview"]) ++ wait_events ops
         ++ [EvStatus 0 error]).
Proof.
  apply (run_without_videos (E := env_no_videos) task1 (submitted env_no_videos tt)
           (new_VeoJob jid1 MOCK_ANALYTICS 100) tt
           [] "veo-3.1-generate-preview"
           ["veo-3.0-generate-001"; "veo-2.0-generate-001"] []
           tt op_pending tt 1 op_empty tt).
  - reflexivity.
  - reflexivity.
  - reflexivity.
  - apply (all_raise_nil (E := env_no_videos)).
  - reflexivity.
  - apply (completes_S (E := env_no_videos) 0 op_pending tt op_empty tt op_empty tt);
      [reflexivity|reflexivity|].
    apply (completes_O (E := env_no_videos)). reflexivity.
  - lia.
  - right. exists {| generated_videos := [] |}. split; reflexivity.
Defined.

(** X7. If the download of the first video raises, the run fails the job
    with the message of that exception and never calls [save]; if the
    download returns and [save] raises, the run fails the job with the
    message of [save].  In both cases the job keeps no path and gets the
    substitute locator. *)
Theorem run_download_or_save_fails `{E : Env} (t : Task) (s : State E) (j : VeoJob)
    b0 pre m post es b1 op b2 k op' b3 resp g gs :
  heap s !! t_job t = Some j ->
  genai_import (backend s) = (Ok tt, b0) ->
  veo_models = pre ++ m :: post ->
  all_raise (prompt_of (t_analytics t)) (image_of t) pre b0 es b1 ->
  generate_videos m (prompt_of (t_analytics t)) (image_of t) b1 = (Ok op, b2) ->
  completes k op b2 op' b3 -> (k <= 42)%nat ->
  response op' = Some resp -> generated_videos resp = g :: gs ->
  (forall e b4,
     files_download (video g) b3 = (Raise e, b4) ->
     exists s' ops,
       _run_veo_job t s = (Ok tt, s') /\ length ops = k /\
       run_result s s' (t_job t) (failed_job e j) (files s)
         ((EvStart <$> pre ++ [m]) ++ wait_events ops ++
          [EvDownload (video g); EvStatus (t_job t) error])) /\
  (forall b4 e b5,
     files_download (video g) b3 = (Ok tt, b4) ->
     video_save (video g) (video_file_path (job_id j)) b4 = (Raise e, b5) ->
     exists s' ops,
       _run_veo_job t s = (Ok tt, s') /\ length ops = k /\
       run_result s s' (t_job t) (failed_job e j) (files s)
         ((EvStart <$> pre ++ [m]) ++ wait_events ops ++
          [EvDownload (video g); EvSave (video g) (video_file_path (job_id j));
           EvStatus (t_job t) error])).
Proof.
  intros Hj Hi Hms Hall Hm Hc Hk Hresp Hgen.
  pose proof (poll_completes k 42 op (with_backend b2 s) op' b3 Hc Hk)
    as (_ & _ & _ & Hd).
  split.
  - intros e b4 Hdl.
    cut (exists s', _run_veo_job t s = (Ok tt, s') /\
           exists ops, length ops = k /\
             run_result s s' (t_job t) (failed_job e j) (files s)
               ((EvStart <$> pre ++ [m]) ++ wait_events ops ++
                [EvDownload (video g); EvStatus (t_job t) error])).
    { intros (s' & Hrun & ops & Hlen & Hres). eauto. }
    run_to_poll Hi Hms Hall Hm Hc Hk ops Hlen.
    rewrite Hd, Hresp, Hgen.
    apply wp_bind, wp_log. apply wp_bind, wp_call. intros r1 b Hr1.
    simpl in Hr1. rewrite Hdl in Hr1. injection Hr1 as <- <-.
    apply wp_bind, wp_set_status; do 2 wp_step; apply wp_update_job.
    split; [reflexivity|]. exists ops. split; [exact Hlen|].
    run_result_facts Hj.
  - intros b4 e b5 Hdl Hsave.
    cut (exists s', _run_veo_job t s = (Ok tt, s') /\
           exists ops, length ops = k /\
             run_result s s' (t_job t) (failed_job e j) (files s)
               ((EvStart <$> pre ++ [m]) ++ wait_events ops ++
                [EvDownload (video g); EvSave (video g) (video_file_path (job_id j));
                 EvStatus (t_job t) error])).
    { intros (s' & Hrun & ops & Hlen & Hres). eauto. }
    run_to_poll Hi Hms Hall Hm Hc Hk ops Hlen.
    rewrite Hd, Hresp, Hgen.
    apply wp_bind, wp_log. apply wp_bind, wp_call. intros r1 b Hr1.
    simpl in Hr1. rewrite Hdl in Hr1. injection Hr1 as <- <-.
    apply wp_bind, (wp_deref _ j); [exact Hj|].
    apply wp_bind, wp_save. intros r2 b Hr2.
    simpl in Hr2. rewrite Hsave in Hr2. injection Hr2 as <- <-.
    apply wp_bind, wp_set_status; do 2 wp_step; apply wp_update_job.
    split; [reflexivity|]. exists ops. split; [exact Hlen|].
    run_result_facts Hj.
Qed.

Lemma run_download_or_save_fails_witness :
  exists s' ops,
    _run_veo_job (E := env_no_download) task1 (submitted env_no_download tt)
    = (Ok tt, s') /\ length ops = 0%nat /\
    run_result (submitted env_no_download tt) s' 0
      (failed_job "403 file not accessible" (new_VeoJob jid1 MOCK_ANALYTICS 100)) ∅
      ((EvStart <$> [] ++ ["veo-3.1-generate-preview"]) ++ wait_events ops ++
       [EvDownload {| uri := "files/1" |}; EvStatus 0 error]).
Proof.
  apply (proj1 (run_download_or_save_fails (E := env_no_download) task1
                  (submitted env_no_download tt)
                  (new_VeoJob jid1 MOCK_ANALYTICS 100) tt
                  [] "veo-3.1-generate-preview"
                  ["veo-3.0-generate-001"; "veo-2.0-generate-001"] []
                  tt op_finished tt 0 op_finished tt
                  {| generated_videos := [ {| video := {| uri := "files/1" |} |} ] |}
                  {| video := {| uri := "files/1" |} |} []
                  eq_refl eq_refl eq_refl (all_raise_nil (E := env_no_download) _ _ tt)
                  eq_refl
                  (completes_O (E := env_no_download) op_finished tt eq_refl)
                  (Nat.le_0_l 42) eq_refl eq_refl)
           "403 file not accessible" tt).
  reflexivity.
Defined.

(** X8. If the imports at the head of [_run_veo_sync] raise, no model is
    started: the run only marks the job as failed with the message of the
    import error and the substitute locator. *)
Theorem run_import_fails `{E : Env} (t : Task) (s : State E) (j : VeoJob)
    (e : string) (b0 : remote) :
  heap s !! t_job t = Some j ->
  genai_import (backend s) = (Raise e, b0) ->
  exists s',
    _run_veo_job t s = (Ok tt, s') /\
    run_result s s' (t_job t) (failed_job e j) (files s) [EvStatus (t_job t) error] /\
    backend s' = b0.
Proof.
  intros Hj Hi.
  apply wp_run. unfold _run_veo_job. apply wp_try_except.
  unfold _run_veo_sync. apply wp_bind, wp_call. intros r b Hr.
  rewrite Hi in Hr. injection Hr as <- <-.
  apply wp_bind, wp_set_status; do 2 wp_step; apply wp_update_job.
  split; [reflexivity|]. split; [|reflexivity].
  run_result_facts Hj.
Qed.

Lemma run_import_fails_witness :
  exists s',
    _run_veo_job (E := env_no_import) task1 (submitted env_no_import tt) = (Ok tt, s') /\
    run_result (submitted env_no_import tt) s' 0
      (failed_job "cannot import name 'types'" (new_VeoJob jid1 MOCK_ANALYTICS 100))
      ∅ [EvStatus 0 error] /\
    backend s' = tt.
Proof.
  apply (run_import_fails (E := env_no_import) task1 (submitted env_no_import tt)
           (new_VeoJob jid1 MOCK_ANALYTICS 100) "cannot import name 'types'" tt).
  - reflexivity.
  - reflexivity.
Defined.

(** ** The janitor, again *)

Section MoreCleanup.
Context `{E : Env}.

Lemma is_expired_dec (now max_age : Z) (s : State E) (jid : string) :
  is_expired now max_age s jid \/ ~ is_expired now max_age s jid.
Proof.
  unfold is_expired. destruct (read_job jid s) as [j|].
  - destruct (decide (now - created_at j > max_age)) as [H|H].
    + left. eauto.
    + right. intros (j' & [= <-] & H'). contradiction.
  - right. intros (j' & [=] & _).
Qed.

Lemma cleanup_run (now max_age : Z) (s : State E) :
  store_closed s ->
  cleanup_old_jobs now max_age s = (Ok tt, snd (cleanup_old_jobs now max_age s)).
Proof.
  intros Hcl. destruct (cleanup_old_jobs_spec now max_age s Hcl) as (Hr & _).
  destruct (cleanup_old_jobs now max_age s) as [r s']. simpl in *. now subst.
Qed.

Lemma cleanup_nothing_expired (now max_age : Z) (s : State E) :
  store_closed s ->
  (forall jid, ~ is_expired now max_age s jid) ->
  snd (cleanup_old_jobs now max_age s) = s.
Proof.
  intros Hcl Hnone.
  destruct (cleanup_old_jobs_spec now max_age s Hcl)
    as (_ & Hh & Hc & Ht & Hb & Htr & Hjobs & Hfiles).
  apply state_eq; auto.
  - apply map_eq. intros jid. now apply (proj2 (Hjobs jid)).
  - apply set_eq. intros p. rewrite Hfiles. split; [now intros [H _]|].
    intros H. split; [exact H|]. intros jid Hexp. now apply Hnone in Hexp.
Qed.

Lemma cleanup_keeps_unrecorded (now max_age : Z) (s : State E) (p : string) :
  store_closed s -> p ∈ files s ->
  (forall jid j, read_job jid s = Some j -> video_path j <> Some p) ->
  p ∈ files (snd (cleanup_old_jobs now max_age s)).
Proof.
  intros Hcl Hp Hno.
  destruct (cleanup_old_jobs_spec now max_age s Hcl) as (_ & _ & _ & _ & _ & _ & _ & Hfiles).
  apply Hfiles. split; [exact Hp|].
  intros jid _ Hart. apply artifact_Some in Hart as (j & Hr & Hpath).
  exact (Hno jid j Hr Hpath).
Qed.

Lemma reachable_sweep (now max_age : Z) (s : State E) :
  reachable s -> reachable (snd (cleanup_old_jobs now max_age s)).
Proof. intros H. apply (reachable_step s); [exact H|apply step_sweep]. Qed.

End MoreCleanup.

(** X9. Sweeping is idempotent: in a reachable state, a second sweep at a
    time that is not later and with a limit that is not smaller returns
    normally and changes nothing. *)
Theorem sweep_twice `{E : Env} (s : State E) (now max_age now' max_age' : Z) :
  reachable s -> now' <= now -> max_age <= max_age' ->
  let s1 := snd (cleanup_old_jobs now max_age s) in
  cleanup_old_jobs now' max_age' s1 = (Ok tt, s1).
Proof.
  intros Hreach Hnow Hmax s1.
  pose proof (reachable_Inv s Hreach) as HI.
  pose proof (Inv_store_closed s HI) as Hcl.
  pose proof (Inv_store_closed s1 (Inv_sweep s now max_age HI)) as Hcl1.
  rewrite (cleanup_run now' max_age' s1 Hcl1). f_equal.
  apply cleanup_nothing_expired; [exact Hcl1|].
  destruct (cleanup_old_jobs_spec now max_age s Hcl) as (_ & Hh & _ & _ & _ & _ & Hjobs & _).
  fold s1 in Hh, Hjobs.
  intros jid (j & Hr & Hage).
  destruct (is_expired_dec now max_age s jid) as [Hexp|Hnexp].
  - unfold read_job, get_job in Hr. rewrite (proj1 (Hjobs jid) Hexp) in Hr. discriminate.
  - apply Hnexp. exists j. split; [|lia].
    unfold read_job, get_job in *. now rewrite (proj2 (Hjobs jid) Hnexp), Hh in Hr.
Qed.

Lemma sweep_twice_witness :
  let s1 := snd (cleanup_old_jobs 1000 800 two_jobs) in
  cleanup_old_jobs 900 800 s1 = (Ok tt, s1).
Proof.
  apply (sweep_twice (E := env_last) two_jobs 1000 800 900 800).
  - unfold two_jobs, run_first.
    destruct (tasks (snd (generate_video jid2 500 [] "image/png" MOCK_ANALYTICS
                            (settled env_last tt)))) as [|t ts] eqn:Ht.
    + apply (reachable_step (settled env_last tt)); [apply reachable_settled|].
      apply step_submit. reflexivity.
    + eapply reachable_step.
      * apply (reachable_step (settled env_last tt)); [apply reachable_settled|].
        apply (step_submit _ jid2 500 [] "image/png" MOCK_ANALYTICS). reflexivity.
      * rewrite <- Ht. apply (step_task _ 0%nat t). now rewrite Ht.
  - lia.
  - lia.
Defined.

Lemma reachable_two_jobs : reachable two_jobs.
Proof.
  unfold two_jobs, run_first.
  assert (Hsub : reachable (snd (generate_video (E := env_last) jid2 500 []
                                   "image/png" MOCK_ANALYTICS (settled env_last tt)))).
  { apply (reachable_step (settled env_last tt)); [apply reachable_settled|].
    apply step_submit. reflexivity. }
  destruct (tasks (snd (generate_video jid2 500 [] "image/png" MOCK_ANALYTICS
                          (settled env_last tt)))) as [|t ts] eqn:Ht.
  - exact Hsub.
  - eapply reachable_step; [exact Hsub|].
    rewrite <- Ht. apply (step_task _ 0%nat t). now rewrite Ht.
Qed.

(** X10. If no stored record is older than the limit, [cleanup_old_jobs]
    returns normally and leaves the store, the records and the files as they
    are. *)
Theorem sweep_nothing_to_do `{E : Env} (s : State E) (now max_age : Z) :
  reachable s ->
  (forall jid j, read_job jid s = Some j -> now - created_at j <= max_age) ->
  cleanup_old_jobs now max_age s = (Ok tt, s).
Proof.
  intros Hreach Hyoung.
  pose proof (Inv_store_closed s (reachable_Inv s Hreach)) as Hcl.
  rewrite (cleanup_run now max_age s Hcl). f_equal.
  apply cleanup_nothing_expired; [exact Hcl|].
  intros jid (j & Hr & Hage). specialize (Hyoung jid j Hr). lia.
Qed.

Lemma two_jobs_ages (jid : string) (j : VeoJob) :
  read_job jid two_jobs = Some j -> 1000 - created_at j <= 900.
Proof.
  intros Hr. apply read_job_Some in Hr as (l & _ & Hj).
  assert (Hc : (created_at <$> heap two_jobs) !! l = Some (created_at j))
    by (now rewrite list_lookup_fmap, Hj).
  assert (Hm : created_at <$> heap two_jobs = [100; 500]) by (vm_compute; reflexivity).
  rewrite Hm in Hc. destruct l as [|[|l]]; simpl in Hc; [| |discriminate Hc];
    injection Hc as <-; lia.
Qed.

Lemma sweep_nothing_to_do_witness :
  cleanup_old_jobs (E := env_last) 1000 900 two_jobs = (Ok tt, two_jobs).
Proof.
  apply (sweep_nothing_to_do (E := env_last) two_jobs 1000 900).
  - apply reachable_two_jobs.
  - exact two_jobs_ages.
Defined.

(** X11. A job that is swept while its task is still scheduled is not put
    back by the task, and the file the task then saves belongs to no record:
    [get_video_path] returns it under no id and no later sweep deletes it. *)
Theorem swept_job_file_stays `{E : Env} (s : State E) (i : nat) (t : Task)
    (j j2 : VeoJob) :
  reachable s -> tasks s !! i = Some t ->
  heap s !! t_job t = Some j -> get_job (job_id j) s = None ->
  let s2 := snd (_run_veo_job t (with_tasks (delete i (tasks s)) s)) in
  heap s2 !! t_job t = Some j2 -> is_Some (video_path j2) ->
  get_job (job_id j) s2 = None /\
  video_file_path (job_id j) ∈ files s2 /\
  (forall jid, get_video_path jid s2 <> Some (video_file_path (job_id j))) /\
  (forall now max_age,
     video_file_path (job_id j) ∈ files (snd (cleanup_old_jobs now max_age s2))).
Proof.
  intros Hreach Hi Hj Hnone s2 Hj2 Hpath.
  pose proof (reachable_Inv s Hreach) as HI.
  assert (Hreach2 : reachable s2) by (apply (reachable_step s); [exact Hreach|now apply step_task]).
  pose proof (reachable_Inv s2 Hreach2) as HI2.
  assert (Hin : t ∈ tasks s) by (apply list_elem_of_lookup; eauto).
  destruct (inv_pending s HI t Hin) as (j0 & Hj0 & Hgen).
  rewrite Hj in Hj0. injection Hj0 as <-.
  destruct (inv_job s HI _ _ Hj) as (Hu & Hok). rewrite Hgen in Hok.
  destruct Hok as (_ & Hp0 & _).
  destruct (run_veo_job_spec t (with_tasks (delete i (tasks s)) s) j Hj)
    as (_ & evs & j' & Hfr & Hh & Hfin & _).
  fold s2 in Hfr, Hh, Hfin. simpl in Hh, Hfin.
  assert (Hl : heap s2 !! t_job t = Some j').
  { rewrite Hh. apply list_lookup_insert_eq. eapply lookup_lt_Some, Hj. }
  rewrite Hl in Hj2. injection Hj2 as <-.
  assert (Hfile : video_file_path (job_id j) ∈ files s2).
  { destruct Hfin as [| |exc]; simpl in Hpath; rewrite ?Hp0 in Hpath;
      try (destruct Hpath as [? [=]]). set_solver. }
  assert (Hjobs : _jobs s2 = _jobs s) by (now rewrite (fr_jobs _ _ _ Hfr)).
  assert (Hno : forall jid j1, read_job jid s2 = Some j1 ->
            video_path j1 <> Some (video_file_path (job_id j))).
  { intros jid j1 Hr Hp1. apply read_job_Some in Hr as (l1 & Hl1 & Hj1).
    destruct (Inv_path s2 l1 j1 _ HI2 Hj1 Hp1) as (_ & Heq & Hu1).
    destruct (inv_store s2 HI2 _ _ Hl1) as (j1' & Hj1' & Hid).
    rewrite Hj1 in Hj1'. injection Hj1' as <-.
    apply video_file_path_inj in Heq; [|exact Hu|exact Hu1].
    unfold get_job in Hnone. rewrite Heq, Hid, <- Hjobs, Hl1 in Hnone. discriminate. }
  split; [unfold get_job; now rewrite Hjobs|]. split; [exact Hfile|]. split.
  - intros jid Hg. unfold get_video_path in Hg.
    destruct (read_job jid s2) as [j1|] eqn:Hr; [|discriminate].
    destruct (truthy (video_path j1) && _)%bool; [|discriminate].
    exact (Hno jid j1 Hr Hg).
  - intros now max_age.
    apply cleanup_keeps_unrecorded; [now apply Inv_store_closed|exact Hfile|exact Hno].
Qed.

Lemma reachable_swept_pending : reachable swept_pending.
Proof. apply reachable_sweep, reachable_submitted. Qed.

Lemma swept_job_file_stays_witness :
  let s2 := snd (_run_veo_job (E := env_last) task1
                   (with_tasks (delete 0%nat (tasks swept_pending)) swept_pending)) in
  get_job jid1 s2 = None /\
  video_file_path (E := env_last) jid1 ∈ files s2 /\
  (forall jid, get_video_path jid s2 <> Some (video_file_path (E := env_last) jid1)) /\
  (forall now max_age,
     video_file_path (E := env_last) jid1
       ∈ files (snd (cleanup_old_jobs now max_age s2))).
Proof.
  apply (swept_job_file_stays (E := env_last) swept_pending 0%nat task1
           (new_VeoJob jid1 MOCK_ANALYTICS 100)
           (saved_job (E := env_last) (new_VeoJob jid1 MOCK_ANALYTICS 100))).
  - apply reachable_swept_pending.
  - reflexivity.
  - reflexivity.
  - reflexivity.
  - reflexivity.
  - eexists. reflexivity.
Defined.

(** ** Invariants of the records *)

(** X12. In a reachable state two records stored under different ids never
    record the same artifact path. *)
Theorem artifact_paths_distinct `{E : Env} (s : State E) (jid jid' : string)
    (j j' : VeoJob) (p p' : string) :
  reachable s ->
  read_job jid s = Some j -> read_job jid' s = Some j' -> jid <> jid' ->
  video_path j = Some p -> video_path j' = Some p' ->
  p <> p'.
Proof.
  intros Hreach Hr Hr' Hne Hp Hp' Heq. subst p'.
  pose proof (reachable_Inv s Hreach) as HI.
  apply read_job_Some in Hr as (l & Hl & Hj).
  apply read_job_Some in Hr' as (l' & Hl' & Hj').
  destruct (Inv_path s l j p HI Hj Hp) as (_ & Hpath & Hu).
  destruct (Inv_path s l' j' p HI Hj' Hp') as (_ & Hpath' & Hu').
  destruct (inv_store s HI _ _ Hl) as (j0 & Hj0 & Hid).
  destruct (inv_store s HI _ _ Hl') as (j0' & Hj0' & Hid').
  rewrite Hj in Hj0. injection Hj0 as <-.
  rewrite Hj' in Hj0'. injection Hj0' as <-.
  apply Hne. rewrite <- Hid, <- Hid'.
  apply video_file_path_inj; congruence.
Qed.

Lemma artifact_paths_distinct_witness :
  video_file_path (E := env_last) jid1 <> video_file_path (E := env_last) jid2.
Proof.
  apply (artifact_paths_distinct (E := env_last) two_jobs jid1 jid2
           (saved_job (E := env_last) (new_VeoJob jid1 MOCK_ANALYTICS 100))
           (saved_job (E := env_last) (new_VeoJob jid2 MOCK_ANALYTICS 500))).
  - apply reachable_two_jobs.
  - reflexivity.
  - reflexivity.
  - discriminate.
  - reflexivity.
  - reflexivity.
Defined.

(** X13. No operation of the service (a submission, the run of a scheduled
    task, a sweep) changes the id, the creation time or the analytics of a
    job object. *)
Theorem job_identity_is_stable `{E : Env} (s s' : State E) (l : nat) (j : VeoJob) :
  reachable s -> step s s' -> heap s !! l = Some j ->
  exists j', heap s' !! l = Some j' /\ job_id j' = job_id j /\
             created_at j' = created_at j /\ analytics j' = analytics j.
Proof.
  intros Hreach Hstep Hj. pose proof (reachable_Inv s Hreach) as HI.
  destruct Hstep as [s jid now img mime a _|s i t Hi|s now max_age|s F].
  - destruct (generate_video_spec jid now img mime a s) as (_ & _ & Hcase).
    exists j. split; [|auto].
    destruct Hcase as [(_ & _ & Hh & _)|(_ & _ & Hh & _)];
      rewrite Hh; now apply lookup_app_l_Some.
  - assert (Hin : t ∈ tasks s) by (apply list_elem_of_lookup; eauto).
    destruct (inv_pending s HI t Hin) as (j0 & Hj0 & Hgen).
    destruct (run_veo_job_spec t (with_tasks (delete i (tasks s)) s) j0 Hj0)
      as (_ & evs & j' & _ & Hh & Hfin & _).
    simpl in Hh. destruct (decide (l = t_job t)) as [->|Hne].
    + rewrite Hj in Hj0. injection Hj0 as <-. exists j'.
      split; [rewrite Hh; apply list_lookup_insert_eq; eapply lookup_lt_Some, Hj|].
      destruct Hfin; auto.
    + exists j. split; [|auto]. rewrite Hh. now rewrite list_lookup_insert_ne.
  - destruct (cleanup_old_jobs_spec now max_age s (Inv_store_closed s HI))
      as (_ & Hh & _). exists j. rewrite Hh. auto.
  - exists j. auto.
Qed.

Lemma job_identity_is_stable_witness :
  exists j', heap (settled env_last tt) !! 0%nat = Some j' /\
             job_id j' = jid1 /\ created_at j' = 100 /\
             analytics j' = Some MOCK_ANALYTICS.
Proof.
  apply (job_identity_is_stable (E := env_last) (submitted env_last tt)
           (settled env_last tt) 0%nat (new_VeoJob jid1 MOCK_ANALYTICS 100)).
  - apply reachable_submitted.
  - apply (step_task (E := env_last) (submitted env_last tt) 0%nat task1). reflexivity.
  - reflexivity.
Defined.



(** X15. At every point of the process, the writes of the background runs
    in progress included, the fields of a job record agree with its status.
    A record in status error has the substitute locator, an error message
    and no path.  A ready record has no error and either the substitute
    locator and no path, or the locator [/api/field-vision/video/<job id>]
    and the path of its file.  A generating record has no error and no
    note, and is untouched, or has the substitute locator only (the billing
    fallback before its status write), or has the path of its file and no
    locator yet or the job's locator (a saved video before the status
    write).  So an error message is present exactly in status error, and the
    job's own locator is only set on a record that has its path. *)
Theorem record_fields_follow_status `{E : Env} (s : State E)
    (thr : list (Task * point)) (l : nat) (j : VeoJob) :
  interleaved s thr -> heap s !! l = Some j ->
  record_shape j /\
  (is_Some (job_error j) <-> status j = error) /\
  (video_url j = Some ("/api/field-vision/video/" +:+ job_id j) ->
   video_path j = Some (video_file_path (job_id j))) /\
  (is_Some (video_path j) ->
   video_path j = Some (video_file_path (job_id j)) /\ status j <> error).
Proof.
  intros Hil Hj. destruct (interleaved_record_shape s thr l j Hil Hj) as (_ & Hshape).
  split; [exact Hshape|].
  assert (Hmock : forall x, Some MOCK_VIDEO_URL <> Some ("/api/field-vision/video/" +:+ x)).
  { intros x H. injection H as H. discriminate H. }
  assert (Hnone : forall A, ~ is_Some (@None A)) by (intros A [x [=]]).
  unfold record_shape in Hshape.
  destruct (status j);
    [destruct Hshape as (Herr & _ & [(Hurl & Hpath)|[(Hurl & Hpath)|(Hpath & _)]])
    |destruct Hshape as (Herr & [(Hurl & Hpath)|(Hurl & Hpath & _)])
    |destruct Hshape as (Hurl & Hpath & Herr & _)];
    rewrite ?Herr, ?Hpath, ?Hurl;
    repeat match goal with
           | |- _ /\ _ => split
           | |- _ <-> _ => split
           | |- _ -> _ => intro
           | |- _ <> _ => intro
           end;
    try reflexivity; try assumption; try discriminate;
    try (exfalso; match goal with H : is_Some None |- _ => now apply Hnone in H end);
    try (exfalso;
         match goal with H : Some MOCK_VIDEO_URL = Some _ |- _ => now apply Hmock in H end).
Qed.

Lemma record_fields_follow_status_witness :
  let j := with_video_path
             (Some "/tmp/agribot_videos/123e4567-e89b-42d3-a456-426614174000.mp4")
             (new_VeoJob jid1 MOCK_ANALYTICS 100) in
  record_shape (E := env_last) j /\
  (is_Some (job_error j) <-> status j = error) /\
  (video_url j = Some ("/api/field-vision/video/" +:+ job_id j) ->
   video_path j = Some (video_file_path (E := env_last) (job_id j))) /\
  (is_Some (video_path j) ->
   video_path j = Some (video_file_path (E := env_last) (job_id j)) /\ status j <> error).
Proof.
  apply (record_fields_follow_status (E := env_last) path_written
           [(task1, AtUrl jid1)] 0%nat).
  - exact interleaved_path_written.
  - vm_compute. reflexivity.
Defined.

(** ** Vision analysis *)

Lemma obind_Ok {A B} (m : outcome A) (k : A -> outcome B) (b : B) :
  obind m k = Ok b -> exists a, m = Ok a /\ k a = Ok b.
Proof. destruct m as [a|e]; simpl; [eauto|discriminate]. Qed.

Lemma data_get_Ok (data : pyval) (key : string) (default v : pyval) :
  data_get data key default = Ok v ->
  exists d, data = VDict d /\ v = match d !! key with Some x => x | None => default end.
Proof. destruct data; simpl; intros [= <-] || discriminate. eauto. Qed.

Lemma prefix_fence_other (c : ascii) (r : string) :
  Ascii.eqb c "`" = false -> String.prefix fence (String c r) = false.
Proof.
  intros Hc. unfold fence, String.prefix.
  destruct (ascii_dec "`" c) as [Heq|_]; [|reflexivity].
  subst c. discriminate Hc.
Qed.

Lemma prefix_fence_here (r : string) : String.prefix fence (fence +:+ r) = true.
Proof.
  unfold fence. rewrite !append_cons, append_nil_l. unfold String.prefix.
  repeat (destruct (ascii_dec _ _) as [_|Hn]; [|now contradiction Hn]).
  fold String.prefix. now destruct r.
Qed.

Lemma before_fence_body (body rest : string) :
  no_backtick body = true -> before fence (body +:+ fence +:+ rest) = body.
Proof.
  induction body as [|c body IH]; intros Hb.
  - rewrite append_nil_l. destruct (fence +:+ rest) eqn:Hf; [discriminate Hf|].
    unfold before. rewrite <- Hf. now rewrite prefix_fence_here.
  - simpl in Hb. apply andb_prop in Hb as [Hc Hb]. apply negb_true_iff in Hc.
    rewrite append_cons. unfold before. rewrite prefix_fence_other by exact Hc.
    fold before. now rewrite IH.
Qed.

Lemma before_fence_open (body : string) :
  no_backtick body = true -> before fence body = body.
Proof.
  induction body as [|c body IH]; intros Hb; [reflexivity|].
  simpl in Hb. apply andb_prop in Hb as [Hc Hb]. apply negb_true_iff in Hc.
  unfold before. rewrite prefix_fence_other by exact Hc.
  fold before. now rewrite IH.
Qed.

Lemma prefix_json_here (r : string) : String.prefix "json" ("json" +:+ r) = true.
Proof.
  rewrite !append_cons, append_nil_l. unfold String.prefix.
  repeat (destruct (ascii_dec _ _) as [_|Hn]; [|now contradiction Hn]).
  now destruct r.
Qed.

(** X16. A text that does not start with a fence is parsed as it is.  Of a
    text that starts with a fence, what lies between the first and the second
    fence is parsed, without a leading [json]; what follows the second
    fence is dropped, and a fence that is never closed is tolerated. *)
Theorem strip_fences_unwraps (raw body rest : string) :
  no_backtick body = true ->
  (String.prefix fence raw = false -> strip_fences raw = raw) /\
  strip_fences (fence +:+ "json" +:+ body +:+ fence +:+ rest) = body /\
  strip_fences (fence +:+ "json" +:+ body) = body /\
  (String.prefix "json" body = false ->
   strip_fences (fence +:+ body +:+ fence +:+ rest) = body /\
   strip_fences (fence +:+ body) = body).
Proof.
  intros Hb.
  assert (Hj : no_backtick ("json" +:+ body) = true) by exact Hb.
  split; [|split; [|split]].
  - intros Hp. unfold strip_fences. now rewrite Hp.
  - unfold strip_fences. rewrite prefix_fence_here.
    change (drop_chars 3 (fence +:+ "json" +:+ body +:+ fence +:+ rest))
      with ("json" +:+ body +:+ fence +:+ rest).
    rewrite <- append_assoc, before_fence_body by exact Hj.
    now rewrite prefix_json_here.
  - unfold strip_fences. rewrite prefix_fence_here.
    change (drop_chars 3 (fence +:+ "json" +:+ body)) with ("json" +:+ body).
    rewrite before_fence_open by exact Hj.
    now rewrite prefix_json_here.
  - intros Hp. split.
    + unfold strip_fences. rewrite prefix_fence_here.
      change (drop_chars 3 (fence +:+ body +:+ fence +:+ rest))
        with (body +:+ fence +:+ rest).
      rewrite before_fence_body by exact Hb. now rewrite Hp.
    + unfold strip_fences. rewrite prefix_fence_here.
      change (drop_chars 3 (fence +:+ body)) with body.
      rewrite before_fence_open by exact Hb. now rewrite Hp.
Qed.

Lemma strip_fences_unwraps_witness :
  (String.prefix fence "{}" = false -> strip_fences "{}" = "{}") /\
  strip_fences (fence +:+ "json" +:+ "{}" +:+ fence +:+ " Done.") = "{}" /\
  strip_fences (fence +:+ "json" +:+ "{}") = "{}" /\
  (String.prefix "json" "{}" = false ->
   strip_fences (fence +:+ "{}" +:+ fence +:+ " Done.") = "{}" /\
   strip_fences (fence +:+ "{}") = "{}").
Proof.
  apply (strip_fences_unwraps "{}" "{}" " Done."). reflexivity.
Defined.

Section AnalysisProperties.
Variable float_conv : pyval -> outcome float.
Variable int_conv : pyval -> outcome Z.
Variable str_conv : pyval -> string.

Lemma analytics_of_data_Ok (data : pyval) (a : FieldAnalytics) :
  analytics_of_data float_conv int_conv str_conv data = Ok a ->
  exists d, data = VDict d /\
    let get key default := match d !! key with Some v => v | None => default end in
    py_float float_conv (get "land_area_ha" (VFloat 10.0)) = Ok (land_area_ha a) /\
    py_float float_conv (get "water_need_l_per_day" (VFloat 3500.0))
      = Ok (water_need_l_per_day a) /\
    py_float float_conv (get "profit_usd_per_ha" (VFloat 1000.0))
      = Ok (profit_usd_per_ha a) /\
    py_int int_conv (get "risk_score" (VInt 30)) = Ok (risk_score a) /\
    risk_label a = py_str str_conv (get "risk_label" (VStr "Moderate")) /\
    py_int int_conv (get "sustainability_score" (VInt 65))
      = Ok (sustainability_score a) /\
    soil_type a = py_str str_conv (get "soil_type" (VStr "Unknown")) /\
    dominant_vegetation a = py_str str_conv (get "dominant_vegetation" (VStr "Unknown")) /\
    recommended_crop a = py_str str_conv (get "recommended_crop" (VStr "N/A")) /\
    veo_prompt a = py_str str_conv (get "veo_prompt" (VStr "")) /\
    notes a = py_str str_conv (get "notes" (VStr "")) /\
    is_mock a = false.
Proof.
  intros H. destruct data as [| | | | | |d]; try discriminate H.
  exists d. split; [reflexivity|].
  unfold analytics_of_data in H. cbn [data_get obind] in H.
  repeat (apply obind_Ok in H as (? & ? & H)).
  injection H as <-. cbn. repeat split; assumption.
Qed.

End AnalysisProperties.

(** X17. An analysis result is built from a JSON object only and is not
    flagged as mock.  Each of the eleven fields follows from its key: a key
    the object lacks takes its default (10.0 hectares, 3500.0 litres, 1000.0
    dollars, risk score 30, label Moderate, sustainability score 65, soil and
    vegetation Unknown, crop N/A, empty prompt and notes); a float under a
    float key, an integer under a score and a string under a text key are
    stored as they are, and a boolean under a score as 1 or 0. *)
Theorem analysis_fields_and_defaults
    (float_conv : pyval -> outcome float) (int_conv : pyval -> outcome Z)
    (str_conv : pyval -> string)
    (data : pyval) (a : FieldAnalytics) :
  analytics_of_data float_conv int_conv str_conv data = Ok a ->
  exists d, data = VDict d /\ is_mock a = false /\
    float_field d "land_area_ha" 10.0 (land_area_ha a) /\
    float_field d "water_need_l_per_day" 3500.0 (water_need_l_per_day a) /\
    float_field d "profit_usd_per_ha" 1000.0 (profit_usd_per_ha a) /\
    int_field d "risk_score" 30 (risk_score a) /\
    str_field d "risk_label" "Moderate" (risk_label a) /\
    int_field d "sustainability_score" 65 (sustainability_score a) /\
    str_field d "soil_type" "Unknown" (soil_type a) /\
    str_field d "dominant_vegetation" "Unknown" (dominant_vegetation a) /\
    str_field d "recommended_crop" "N/A" (recommended_crop a) /\
    str_field d "veo_prompt" "" (veo_prompt a) /\
    str_field d "notes" "" (notes a).
Proof.
  intros H. apply analytics_of_data_Ok in H as (d & -> & H). cbv zeta in H.
  destruct H as (Hl & Hw & Hp & Hr & Hrl & Hs & Hso & Hv & Hc & Hvp & Hn & Hm).
  exists d. split; [reflexivity|]. split; [exact Hm|].
  unfold float_field, int_field, str_field.
  repeat split;
    try (intros Hk; rewrite Hk in *; simpl in *; congruence);
    intros x Hk; rewrite Hk in *; simpl in *; congruence.
Qed.

(** X18. A parsed value that is not a JSON object (a list, a string, a
    number, true, false or null) makes the analysis fall back to the shared
    mock, whose note then names the type of the value. *)
Theorem analysis_of_non_object
    (float_conv : pyval -> outcome float) (int_conv : pyval -> outcome Z)
    (str_conv : pyval -> string)
    (c : GenaiClient) (data : pyval) (mock : FieldAnalytics) :
  (forall d, data <> VDict d) ->
  _analyze_image_sync float_conv int_conv str_conv (Some c) (Ok data) mock =
  (fallback_analytics ("'" +:+ type_name data +:+ "' object has no attribute 'get'") mock,
   fallback_analytics ("'" +:+ type_name data +:+ "' object has no attribute 'get'") mock).
Proof.
  intros Hd. destruct data as [| | | | | |d]; try reflexivity.
  now destruct (Hd d).
Qed.

(** X19. A failed analysis changes nothing of the shared mock but its note,
    and the note of a later failure replaces that of an earlier one; a
    successful analysis in between leaves the note of the failure in place. *)
Theorem analysis_failures_overwrite_note
    (float_conv : pyval -> outcome float) (int_conv : pyval -> outcome Z)
    (str_conv : pyval -> string)
    (c : GenaiClient) (exc1 exc2 : string)
    (data : pyval) (a : FieldAnalytics) (mock : FieldAnalytics) :
  analytics_of_data float_conv int_conv str_conv data = Ok a ->
  let run parsed m := _analyze_image_sync float_conv int_conv str_conv (Some c) parsed m in
  let m1 := snd (run (Raise exc1) mock) in
  let m2 := snd (run (Ok data) m1) in
  let m3 := snd (run (Raise exc2) m2) in
  notes m1 = "Using mock data due to analysis error: " +:+ exc1 /\
  with_analytics_notes (notes mock) m1 = with_analytics_notes (notes mock) mock /\
  fst (run (Ok data) m1) = a /\ m2 = m1 /\
  m3 = snd (run (Raise exc2) mock) /\
  fst (run (Raise exc2) m2) = m3.
Proof.
  intros H run m1 m2 m3. subst run m1 m2 m3.
  unfold _analyze_image_sync. cbn [obind]. rewrite H. cbn. auto 10.
Qed.

Lemma analysis_fields_and_defaults_witness :
  exists d, parsed_fields = VDict d /\ is_mock analytics_of_fields = false /\
    float_field d "land_area_ha" 10.0 (land_area_ha analytics_of_fields) /\
    float_field d "water_need_l_per_day" 3500.0 (water_need_l_per_day analytics_of_fields) /\
    float_field d "profit_usd_per_ha" 1000.0 (profit_usd_per_ha analytics_of_fields) /\
    int_field d "risk_score" 30 (risk_score analytics_of_fields) /\
    str_field d "risk_label" "Moderate" (risk_label analytics_of_fields) /\
    int_field d "sustainability_score" 65 (sustainability_score analytics_of_fields) /\
    str_field d "soil_type" "Unknown" (soil_type analytics_of_fields) /\
    str_field d "dominant_vegetation" "Unknown" (dominant_vegetation analytics_of_fields) /\
    str_field d "recommended_crop" "N/A" (recommended_crop analytics_of_fields) /\
    str_field d "veo_prompt" "" (veo_prompt analytics_of_fields) /\
    str_field d "notes" "" (notes analytics_of_fields).
Proof.
  apply (analysis_fields_and_defaults no_float no_int type_name parsed_fields
           analytics_of_fields).
  vm_compute. reflexivity.
Defined.

Lemma analysis_of_non_object_witness :
  _analyze_image_sync no_float no_int type_name (Some {| api_key := "key" |})
    (Ok (VList [])) MOCK_ANALYTICS =
  (fallback_analytics ("'" +:+ type_name (VList []) +:+ "' object has no attribute 'get'")
     MOCK_ANALYTICS,
   fallback_analytics ("'" +:+ type_name (VList []) +:+ "' object has no attribute 'get'")
     MOCK_ANALYTICS).
Proof.
  apply (analysis_of_non_object no_float no_int type_name {| api_key := "key" |}
           (VList []) MOCK_ANALYTICS).
  intros d. discriminate.
Defined.

Lemma analysis_failures_overwrite_note_witness :
  let run parsed m :=
    _analyze_image_sync no_float no_int type_name (Some {| api_key := "key" |}) parsed m in
  let m1 := snd (run (Raise "503 overloaded") MOCK_ANALYTICS) in
  let m2 := snd (run (Ok parsed_risk40) m1) in
  let m3 := snd (run (Raise "Expecting value") m2) in
  notes m1 = "Using mock data due to analysis error: " +:+ "503 overloaded" /\
  with_analytics_notes (notes MOCK_ANALYTICS) m1
    = with_analytics_notes (notes MOCK_ANALYTICS) MOCK_ANALYTICS /\
  fst (run (Ok parsed_risk40) m1) = risk40 /\ m2 = m1 /\
  m3 = snd (run (Raise "Expecting value") MOCK_ANALYTICS) /\
  fst (run (Raise "Expecting value") m2) = m3.
Proof.
  apply (analysis_failures_overwrite_note no_float no_int type_name {| api_key := "key" |}
           "503 overloaded" "Expecting value" parsed_risk40 risk40 MOCK_ANALYTICS).
  vm_compute. reflexivity.
Defined.

Section VisionProperties.
Context `{E : Env} `{V : !Vision E}.

Lemma with_backend_backend (s : State E) : with_backend (backend s) s = s.
Proof. now destruct s. Qed.

Lemma ask_first_no_answer (img : list Byte.byte) (mime prompt : string)
    (ms : list string) (b : remote) (es : list string) (b' : remote) :
  no_answer img mime prompt ms b es b' ->
  forall (s : State E) (err0 : option string), backend s = b ->
  ask_first ms img mime prompt None err0 s =
  (Ok (None, match last es with Some e => Some e | None => err0 end),
   with_backend b' s).
Proof.
  induction 1 as [b|m ms b e b1 es b' Hg _ IH|m ms b b1 es b' Hg _ IH];
    intros s err0 Hb.
  - simpl. unfold ret. now rewrite <- Hb, with_backend_backend.
  - cbn [ask_first]. unfold bind at 1. unfold try_except, bind, call, ret.
    rewrite Hb, Hg. rewrite (IH (with_backend b1 s) (Some e) eq_refl).
    rewrite last_cons. now destruct (last es).
  - cbn [ask_first]. unfold bind at 1. unfold try_except, bind, call, ret.
    rewrite Hb, Hg. now rewrite (IH (with_backend b1 s) err0 eq_refl).
Qed.

Lemma ask_first_answer (img : list Byte.byte) (mime prompt : string)
    (pre : list string) (b : remote) (es : list string) (b1 : remote) :
  no_answer img mime prompt pre b es b1 ->
  forall (m : string) (post : list string) (resp : ContentResponse) (b2 : remote)
         (s : State E) (err0 : option string),
  generate_content m img mime prompt b1 = (Ok (Some resp), b2) ->
  backend s = b ->
  ask_first (pre ++ m :: post) img mime prompt None err0 s =
  (Ok (Some resp, match last es with Some e => Some e | None => err0 end),
   with_backend b2 s).
Proof.
  induction 1 as [b|m0 ms b e b1 es b' Hg _ IH|m0 ms b b1 es b' Hg _ IH];
    intros m post resp b2 s err0 Hm Hb.
  - cbn [app ask_first]. unfold bind, try_except, call, ret.
    now rewrite Hb, Hm.
  - cbn [app ask_first]. unfold bind at 1. unfold try_except, bind, call, ret.
    rewrite Hb, Hg. rewrite (IH m post resp b2 (with_backend b1 s) (Some e) Hm eq_refl).
    rewrite last_cons. now destruct (last es).
  - cbn [app ask_first]. unfold bind at 1. unfold try_except, bind, call, ret.
    rewrite Hb, Hg. now rewrite (IH m post resp b2 (with_backend b1 s) err0 Hm eq_refl).
Qed.

Lemma analysis_data_no_answer (img : list Byte.byte) (mime hint : string)
    (s : State E) (b0 : remote) (es : list string) (b' : remote) :
  genai_import (backend s) = (Ok tt, b0) ->
  no_answer img mime (analysis_prompt hint) analysis_models b0 es b' ->
  analysis_data img mime hint s = (Raise (analysis_failure es), with_backend b' s).
Proof.
  intros Hi Hn. unfold analysis_data. unfold bind at 1. unfold call at 1. rewrite Hi.
  unfold bind. rewrite (ask_first_no_answer _ _ _ _ _ _ _ Hn (with_backend b0 s) None eq_refl).
  unfold analysis_failure, raise. now destruct (last es).
Qed.

Lemma ask_first_frame (img : list Byte.byte) (mime prompt : string)
    (ms : list string) (resp0 : option ContentResponse) (err0 : option string)
    (s : State E) :
  exists r b, ask_first ms img mime prompt resp0 err0 s = (Ok r, with_backend b s).
Proof.
  revert resp0 err0 s. induction ms as [|m ms IH]; intros resp0 err0 s.
  - exists (resp0, err0), (backend s). simpl. unfold ret.
    now rewrite with_backend_backend.
  - cbn [ask_first]. unfold bind at 1. unfold try_except, bind, call, ret.
    destruct (generate_content m img mime prompt (backend s)) as [[[resp|]|e] b1].
    + eauto.
    + destruct (IH None err0 (with_backend b1 s)) as (r & b & ->). eauto.
    + destruct (IH resp0 (Some e) (with_backend b1 s)) as (r & b & ->). eauto.
Qed.

Lemma analysis_data_frame (img : list Byte.byte) (mime hint : string) (s : State E) :
  exists r b, analysis_data img mime hint s = (r, with_backend b s).
Proof.
  unfold analysis_data. unfold bind at 1. unfold call at 1.
  destruct (genai_import (backend s)) as [[[]|e] b0]; [|eauto].
  unfold bind.
  destruct (ask_first_frame img mime (analysis_prompt hint) analysis_models None None
              (with_backend b0 s)) as ([resp err] & b & ->).
  destruct resp as [resp|]; [|unfold raise; eauto].
  destruct (text resp) as [t|]; [|unfold raise; eauto].
  destruct (json_loads (strip_fences (str_strip t))); unfold ret, raise; eauto.
Qed.

End VisionProperties.

(** X20. With a client, if every analysis model raises or answers nothing,
    each is asked once, in the order of the list, and the analysis returns
    the shared mock with a note that carries the message of the last model
    that raised, or [All analysis models failed] if none raised.  The note is
    written to the shared mock itself. *)
Theorem analysis_all_models_fail `{E : Env} `{V : !Vision E}
    (img : list Byte.byte) (mime hint : string)
    (mock : FieldAnalytics) (s : State E) (c : GenaiClient)
    (b0 : remote) (es : list string) (b' : remote) :
  _client s = Some c ->
  genai_import (backend s) = (Ok tt, b0) ->
  no_answer img mime (analysis_prompt hint) analysis_models b0 es b' ->
  analyze_image img mime hint mock s =
  (Ok (fallback_analytics (analysis_failure es) mock,
       fallback_analytics (analysis_failure es) mock),
   with_backend b' s).
Proof.
  intros Hc Hi Hn. unfold analyze_image, bind, _get_client. rewrite Hc.
  now rewrite (analysis_data_no_answer img mime hint s b0 es b' Hi Hn).
Qed.

(** X21. With a client, the first analysis model that answers decides: the
    models before it were asked once each, those after it are not asked, and
    if the answer's text, stripped and without fences, parses to data from
    which the analytics can be built, these analytics are returned, not
    flagged as mock, and the shared mock is left as it was. *)
Theorem analysis_first_answer_wins `{E : Env} `{V : !Vision E}
    (img : list Byte.byte) (mime hint : string)
    (mock : FieldAnalytics) (s : State E) (c : GenaiClient) (b0 : remote)
    (pre : list string) (m : string) (post : list string)
    (es : list string) (b1 : remote) (resp : ContentResponse) (b2 : remote)
    (t : string) (data : pyval) (a : FieldAnalytics) :
  _client s = Some c ->
  genai_import (backend s) = (Ok tt, b0) ->
  analysis_models = pre ++ m :: post ->
  no_answer img mime (analysis_prompt hint) pre b0 es b1 ->
  generate_content m img mime (analysis_prompt hint) b1 = (Ok (Some resp), b2) ->
  text resp = Some t ->
  json_loads (strip_fences (str_strip t)) = Ok data ->
  analytics_of_data vision_float_conv vision_int_conv vision_str_conv data = Ok a ->
  analyze_image img mime hint mock s = (Ok (a, mock), with_backend b2 s) /\
  is_mock a = false.
Proof.
  intros Hc Hi Hms Hn Hm Ht Hj Ha. split.
  - unfold analyze_image, bind, _get_client. rewrite Hc.
    unfold analysis_data. unfold bind at 1. unfold call at 1. rewrite Hi.
    unfold bind. rewrite Hms.
    rewrite (ask_first_answer _ _ _ _ _ _ _ Hn m post resp b2 (with_backend b0 s)
               None Hm eq_refl).
    rewrite Ht, Hj. unfold ret, _analyze_image_sync. cbn [obind]. now rewrite Ha.
  - apply analytics_of_data_Ok in Ha as (d & _ & Ha). cbv zeta in Ha. apply Ha.
Qed.

(** X22. [analyze_image] never raises.  What it returns is either analytics
    built from a parsed answer, not flagged as mock, with the shared mock
    left as it was; or the shared mock itself, as it was or with its note
    replaced by that of a failure, its flag unchanged.  So if the shared mock
    is flagged as mock, the flag of the result tells a genuine analysis from a
    substitute.  The analysis stores and removes no job id, creates and
    deletes no file, writes no status and schedules no task.  (The analytics
    a job record refers to are not covered: they may be the shared mock,
    whose note a failed analysis rewrites.) *)
Theorem analysis_genuine_or_mock `{E : Env} `{V : !Vision E}
    (img : list Byte.byte) (mime hint : string)
    (mock : FieldAnalytics) (s : State E) :
  exists a m' s',
    analyze_image img mime hint mock s = (Ok (a, m'), s') /\
    _jobs s' = _jobs s /\ files s' = files s /\ trace s' = trace s /\
    ((is_mock a = false /\ m' = mock /\
      exists data,
        analytics_of_data vision_float_conv vision_int_conv vision_str_conv data = Ok a) \/
     (a = m' /\ is_mock a = is_mock mock /\
      (m' = mock \/ exists exc, m' = fallback_analytics exc mock))).
Proof.
  unfold analyze_image, bind.
  assert (Hfr : exists oc s1, _get_client s = (Ok oc, s1) /\
            _jobs s1 = _jobs s /\ files s1 = files s /\ trace s1 = trace s).
  { destruct (get_client_cases s) as
      [(c & _ & ->)|[(_ & _ & ->)|[(_ & _ & e & b & _ & ->)|(_ & _ & c & b & _ & ->)]]];
      eauto 10. }
  destruct Hfr as (oc & s1 & -> & Hj & Hf & Htr).
  destruct oc as [c|].
  - destruct (analysis_data_frame img mime hint s1) as (r & b & ->).
    unfold _analyze_image_sync.
    destruct r as [data|exc]; cbn [obind].
    + destruct (analytics_of_data _ _ _ data) as [a|exc] eqn:Ha.
      * exists a, mock, (with_backend b s1). repeat split; try assumption.
        left. split; [|eauto].
        apply analytics_of_data_Ok in Ha as (d & _ & Ha). cbv zeta in Ha. apply Ha.
      * eexists _, _, (with_backend b s1). repeat split; try assumption.
        right. eauto.
    + eexists _, _, (with_backend b s1). repeat split; try assumption.
      right. eauto.
  - exists mock, mock, s1. repeat split; try assumption. right. auto.
Qed.

Lemma analysis_all_models_fail_witness :
  analyze_image (E := env_quota) (V := vision_down) [] "image/png" "wheat"
    MOCK_ANALYTICS (submitted env_quota tt) =
  (Ok (fallback_analytics
         (analysis_failure ["503 overloaded: gemini-2.0-flash-lite";
                            "503 overloaded: gemini-flash-latest"]) MOCK_ANALYTICS,
       fallback_analytics
         (analysis_failure ["503 overloaded: gemini-2.0-flash-lite";
                            "503 overloaded: gemini-flash-latest"]) MOCK_ANALYTICS),
   with_backend (E := env_quota) tt (submitted env_quota tt)).
Proof.
  apply (analysis_all_models_fail (E := env_quota) (V := vision_down) [] "image/png"
           "wheat" MOCK_ANALYTICS (submitted env_quota tt) {| api_key := "key" |} tt).
  - reflexivity.
  - reflexivity.
  - eapply (no_answer_raise (E := env_quota) (V := vision_down)); [reflexivity|].
    eapply (no_answer_none (E := env_quota) (V := vision_down)); [reflexivity|].
    eapply (no_answer_raise (E := env_quota) (V := vision_down)); [reflexivity|].
    apply (no_answer_nil (E := env_quota) (V := vision_down)).
Defined.

Lemma analysis_first_answer_wins_witness :
  analyze_image (E := env_quota) (V := vision_third) [] "image/png" "wheat"
    MOCK_ANALYTICS (submitted env_quota tt) =
  (Ok (risk40, MOCK_ANALYTICS), with_backend (E := env_quota) tt (submitted env_quota tt)) /\
  is_mock risk40 = false.
Proof.
  apply (analysis_first_answer_wins (E := env_quota) (V := vision_third) [] "image/png"
           "wheat" MOCK_ANALYTICS (submitted env_quota tt) {| api_key := "key" |} tt
           ["gemini-2.0-flash-lite"; "gemini-2.5-flash"] "gemini-flash-latest" []
           ["503 overloaded"] tt
           {| text := Some ("```json" +:+ nl +:+ "{...}" +:+ nl +:+ "```") |} tt
           ("```json" +:+ nl +:+ "{...}" +:+ nl +:+ "```") parsed_risk40 risk40).
  - reflexivity.
  - reflexivity.
  - reflexivity.
  - eapply (no_answer_raise (E := env_quota) (V := vision_third)); [reflexivity|].
    eapply (no_answer_none (E := env_quota) (V := vision_third)); [reflexivity|].
    apply (no_answer_nil (E := env_quota) (V := vision_third)).
  - reflexivity.
  - reflexivity.
  - vm_compute. reflexivity.
  - vm_compute. reflexivity.
Defined.

(** ** The two views of a background run *)

(** X23. The operations of a thread, run to the end without anything in
    between, do what [_run_veo_job] does in one piece: the thread ends in
    [Returned] in the state in which [_run_veo_job] returns, or in [Raised]
    in a state from which the handler leads to the state in which
    [_run_veo_job] returns.  So every state that is reachable when tasks run in
    one piece is a state of the process with no thread running. *)
Theorem thread_run_is_job_run `{E : Env} (t : Task) (s : State E) :
  (exists n p' s',
     thread_steps n t AtImport s = (p', s') /\
     (p' = Returned /\ _run_veo_job t s = (Ok tt, s') \/
      exists exc, p' = Raised exc /\
                  _run_veo_job t s = (Ok tt, snd (on_error t exc s')))) /\
  (reachable s -> interleaved s []).
Proof.
  split; [|apply reachable_interleaved].
  destruct (run_veo_job_runs t s) as (p' & s' & (n & Hn) & Hcase). eauto 10.
Qed.
